(** * The halo-model pipeline of [halomod/halo_model.py]

    A shallow embedding of the class [HaloModel]: its validated
    parameters, its lazily evaluated cached properties with their declared
    dependencies, and the minimum-mass solver [_find_m_min].

    Conventions of the embedding.
    - A Python float is a rational number; arithmetic on floats is read
      as exact arithmetic on [Q].  Transcendental functions of numpy
      ([np.log], [np.exp], [10 ** x]) are collaborators of the record [Lib].
    - Quantities with astropy units are their numeric value ([x.value] and
      multiplication by a unit are the identity).
    - Attribute names are strings, as in Python.
    - The caching decorators [cached_property] and [parameter] come from
      the package [hmf], whose source is not part of this repository; they
      are modelled from the specification (sections 3 and 4.1). *)

From Stdlib Require Import QArith Qabs Qround Lqa Lia List String.
From stdpp Require Import gmap strings list.

Open Scope Q_scope.
Open Scope string_scope.

(** ** Exceptions and results *)

Inductive exn : Type :=
| ValueError (msg : string)
| TypeError (msg : string)
| AttributeError (attr : string)
| NameError (ident : string)
| IndexError
| ReferenceError
(** [NGException (prefix + str(density))]: the message is a fixed prefix
    followed by the printed density; the density is kept as a number. *)
| NGException (prefix : string) (density : Q)
(** An exception raised inside a collaborator. *)
| ExternalError (msg : string).

Inductive result (A : Type) : Type :=
| Ok (a : A)
| Raise (e : exn).
Arguments Ok {A} a.
Arguments Raise {A} e.

Definition rbind {A B} (r : result A) (k : A -> result B) : result B :=
  match r with
  | Ok a => k a
  | Raise e => Raise e
  end.

Definition rmap {A B} (f : A -> B) (r : result A) : result B :=
  rbind r (fun a => Ok (f a)).

Definition is_ok {A} (r : result A) : bool :=
  match r with Ok _ => true | Raise _ => false end.

(** ** Python values *)

#[warnings="-register-all"]
Inductive value : Type :=
| VNone
| VBool (b : bool)
| VNum (x : Q)
| VStr (s : string)
| VArr (xs : list Q)                      (* one-dimensional ndarray *)
| VMat (rows : list (list Q))             (* two-dimensional ndarray, by rows *)
| VDict (items : list (string * value))   (* dict, or keyword arguments *)
| VClass (cls : string)                   (* a class object *)
| VObj (cls : string) (init : list (string * value)).  (* an instance *)

Definition Qltb (a b : Q) : bool := negb (Qle_bool b a).

Fixpoint list_eqb {A} (eqb : A -> A -> bool) (l1 l2 : list A) : bool :=
  match l1, l2 with
  | [], [] => true
  | x :: l1', y :: l2' => eqb x y && list_eqb eqb l1' l2'
  | _, _ => false
  end.

(** Python's [==] on the values above. *)
Fixpoint value_eqb (v w : value) {struct v} : bool :=
  let items_eqb :=
    fix go (l1 l2 : list (string * value)) {struct l1} : bool :=
      match l1, l2 with
      | [], [] => true
      | (k1, v1) :: l1', (k2, v2) :: l2' =>
          String.eqb k1 k2 && value_eqb v1 v2 && go l1' l2'
      | _, _ => false
      end in
  match v, w with
  | VNone, VNone => true
  | VBool a, VBool b => Bool.eqb a b
  | VNum a, VNum b => Qeq_bool a b
  | VStr a, VStr b => String.eqb a b
  | VArr a, VArr b => list_eqb Qeq_bool a b
  | VMat a, VMat b => list_eqb (list_eqb Qeq_bool) a b
  | VDict a, VDict b => items_eqb a b
  | VClass a, VClass b => String.eqb a b
  | VObj c a, VObj d b => String.eqb c d && items_eqb a b
  | _, _ => false
  end.

Fixpoint assoc {A} (k : string) (l : list (string * A)) : option A :=
  match l with
  | [] => None
  | (k', a) :: l' => if String.eqb k k' then Some a else assoc k l'
  end.

Fixpoint remove_key {A} (k : string) (l : list (string * A)) : list (string * A) :=
  match l with
  | [] => []
  | (k', a) :: l' =>
      if String.eqb k k' then remove_key k l' else (k', a) :: remove_key k l'
  end.

Definition has_key {A} (k : string) (l : list (string * A)) : bool :=
  match assoc k l with Some _ => true | None => false end.

(** Truth value of an object in a condition.  An array of more than one
    element has no truth value. *)
Definition truthy (v : value) : result bool :=
  match v with
  | VNone => Ok false
  | VBool b => Ok b
  | VNum x => Ok (negb (Qeq_bool x 0))
  | VStr s => Ok (negb (String.eqb s ""))
  | VArr [] => Ok false
  | VArr [x] => Ok (negb (Qeq_bool x 0))
  | VArr _ => Raise (ValueError "truth value of an array is ambiguous")
  | VMat [] => Ok false
  | VMat [[x]] => Ok (negb (Qeq_bool x 0))
  | VMat _ => Raise (ValueError "truth value of an array is ambiguous")
  | VDict l => Ok (match l with [] => false | _ => true end)
  | VClass _ => Ok true
  | VObj _ _ => Ok true
  end.

Definition is_none (v : value) : bool :=
  match v with VNone => true | _ => false end.

(** ** numpy on the values *)

Definition as_num (v : value) : result Q :=
  match v with
  | VNum x => Ok x
  | VBool b => Ok (if b then 1 else 0)
  | _ => Raise (TypeError "a number is required")
  end.

Definition as_arr (v : value) : result (list Q) :=
  match v with
  | VArr l => Ok l
  | _ => Raise (TypeError "a one-dimensional array is required")
  end.

Definition as_mat (v : value) : result (list (list Q)) :=
  match v with
  | VMat l => Ok l
  | _ => Raise (TypeError "a two-dimensional array is required")
  end.

Definition shape_error {A} : result A :=
  Raise (ValueError "operands could not be broadcast together").

(** Elementwise combination of two rows. *)
Definition zip_rows (op : Q -> Q -> Q) (l1 l2 : list Q) : result (list Q) :=
  if Nat.eqb (length l1) (length l2) then Ok (zip_with op l1 l2)
  else match l1, l2 with
       | [x], _ => Ok (map (op x) l2)
       | _, [y] => Ok (map (fun x => op x y) l1)
       | _, _ => shape_error
       end.

Fixpoint collect {A} (l : list (result A)) : result (list A) :=
  match l with
  | [] => Ok []
  | r :: l' => rbind r (fun a => rmap (cons a) (collect l'))
  end.

(** A binary operator of numpy with its broadcasting over scalars, rows and
    matrices.  A row combined with a matrix is combined with every row of
    the matrix (the last axes are aligned). *)
Definition broadcast2 (op : Q -> Q -> Q) (v w : value) : result value :=
  match v, w with
  | VNum a, VNum b => Ok (VNum (op a b))
  | VNum a, VArr l => Ok (VArr (map (op a) l))
  | VArr l, VNum b => Ok (VArr (map (fun x => op x b) l))
  | VArr l1, VArr l2 => rmap VArr (zip_rows op l1 l2)
  | VNum a, VMat m => Ok (VMat (map (map (op a)) m))
  | VMat m, VNum b => Ok (VMat (map (map (fun x => op x b)) m))
  | VArr l, VMat m => rmap VMat (collect (map (fun row => zip_rows op l row) m))
  | VMat m, VArr l => rmap VMat (collect (map (fun row => zip_rows op row l) m))
  | VMat m1, VMat m2 =>
      if Nat.eqb (length m1) (length m2)
      then rmap VMat (collect (zip_with (zip_rows op) m1 m2))
      else shape_error
  | _, _ => Raise (TypeError "unsupported operand types")
  end.

Definition np_add := broadcast2 Qplus.
Definition np_sub := broadcast2 Qminus.
Definition np_mul := broadcast2 Qmult.
Definition np_div := broadcast2 Qdiv.

(** [v ** n] for a literal exponent [n]. *)
Definition np_pow (v : value) (n : positive) : result value :=
  match v with
  | VNum a => Ok (VNum (Qpower_positive a n))
  | VArr l => Ok (VArr (map (fun x => Qpower_positive x n) l))
  | VMat m => Ok (VMat (map (map (fun x => Qpower_positive x n)) m))
  | _ => Raise (TypeError "unsupported operand types")
  end.

(** A function of numbers applied to a number or to every entry. *)
Definition np_map (f : Q -> Q) (v : value) : result value :=
  match v with
  | VNum a => Ok (VNum (f a))
  | VArr l => Ok (VArr (map f l))
  | VMat m => Ok (VMat (map (map f) m))
  | _ => Raise (TypeError "a number or an array is required")
  end.

Definition py_len (v : value) : result value :=
  match v with
  | VArr l => Ok (VNum (inject_Z (Z.of_nat (length l))))
  | VMat m => Ok (VNum (inject_Z (Z.of_nat (length m))))
  | VStr s => Ok (VNum (inject_Z (Z.of_nat (String.length s))))
  | VDict l => Ok (VNum (inject_Z (Z.of_nat (length l))))
  | _ => Raise (TypeError "object has no len()")
  end.

(** [np.pi], the double nearest to the circle constant. *)
Definition np_pi : Q := 884279719003555 # 281474976710656.

(** [scipy.integrate.trapz(y, dx=dx)] on one row:
    [dx * sum ((y[i] + y[i+1]) / 2)]. *)
Fixpoint trapz_row (y : list Q) (dx : Q) : Q :=
  match y with
  | a :: ((b :: _) as y') => dx * (a + b) / 2 + trapz_row y' dx
  | _ => 0
  end.

(** [trapz] integrates along the last axis. *)
Definition np_trapz (y : value) (dx : Q) : result value :=
  match y with
  | VArr l => Ok (VNum (trapz_row l dx))
  | VMat m => Ok (VArr (map (fun row => trapz_row row dx) m))
  | _ => Raise (TypeError "an array is required")
  end.

(** [scipy.integrate.cumtrapz(y, dx=dx)]: the running sums of the
    trapezoid areas, one entry fewer than [y]. *)
Fixpoint cumtrapz_from (acc : Q) (y : list Q) (dx : Q) : list Q :=
  match y with
  | a :: ((b :: _) as y') =>
      let acc' := acc + dx * (a + b) / 2 in
      acc' :: cumtrapz_from acc' y' dx
  | _ => []
  end.

Definition cumtrapz (y : list Q) (dx : Q) : list Q := cumtrapz_from 0 y dx.

(** [np.arange(start, stop, step)]: [ceil((stop - start) / step)] entries
    [start + i * step]. *)
Definition arange (start stop step : Q) : list Q :=
  let n := Z.to_nat (Qceiling ((stop - start) / step)) in
  map (fun i => start + inject_Z (Z.of_nat i) * step) (seq 0 n).

(** [np.linspace(a, b, n)]. *)
Definition linspace (a b : Q) (n : nat) : list Q :=
  match n with
  | O => []
  | S O => [a]
  | S m => map (fun i => a + inject_Z (Z.of_nat i) * ((b - a) / inject_Z (Z.of_nat m)))
               (seq 0 n)
  end.

(** The count of an integer-valued number, for [rnum]. *)
Definition as_count (v : value) : result nat :=
  match v with
  | VNum x =>
      if Qeq_bool x (inject_Z (Qfloor x)) then Ok (Z.to_nat (Qfloor x))
      else Raise (TypeError "an integer is required")
  | _ => Raise (TypeError "an integer is required")
  end.

(** [l[lo:hi]] for non-negative bounds. *)
Definition slice {A} (lo hi : nat) (l : list A) : list A :=
  firstn (hi - lo) (skipn lo l).

(** [np.where(cond)[0][0]]: the first index at which [cond] holds. *)
Fixpoint find_index {A} (cond : A -> bool) (l : list A) : option nat :=
  match l with
  | [] => None
  | x :: l' => if cond x then Some O else option_map S (find_index cond l')
  end.

(** [np.log(M[1] / M[0])], the logarithmic step of a grid. *)
Definition grid_step (ln : Q -> Q) (M : value) : result Q :=
  match M with
  | VArr (m0 :: m1 :: _) => Ok (ln (m1 / m0))
  | VArr _ => Raise IndexError
  | _ => Raise (TypeError "an array is required")
  end.

(** [integrand[mask.T] = 0] where [mask[i][j] = cond M[i] bound[j]]: the
    integrand has one row per entry of [bound] and one column per mass. *)
Definition mask_rows (cond : Q -> Q -> bool) (M bound : list Q)
    (integrand : list (list Q)) : result (list (list Q)) :=
  if Nat.eqb (length integrand) (length bound)
     && forallb (fun row => Nat.eqb (length row) (length M)) integrand
  then Ok (zip_with
             (fun b row => zip_with (fun m x => if cond m b then 0 else x) M row)
             bound integrand)
  else Raise IndexError.

Definition as_kwargs (v : value) : result (list (string * value)) :=
  match v with
  | VDict l => Ok l
  | _ => Raise (TypeError "argument after ** must be a mapping")
  end.

(** ** Collaborators

    Everything the class calls and this repository does not define in
    [halo_model.py]: numpy and scipy functions beyond the simple ones above,
    the occupation, bias, concentration and profile models, the accelerated
    kernels and the two-halo kernel. *)

Record OptimizeResult : Type := {
  res_x : list Q;
  res_success : bool;
  res_nit : nat
}.

(** A derivative-free minimiser seen from its caller: it asks for the
    objective at points of its choosing and ends with a result. *)
Inductive minimizer : Type :=
| Evaluate (x : Q) (k : Q -> minimizer)
| Finished (res : OptimizeResult).

Record Lib : Type := {
  np_log : Q -> Q;
  np_log10 : Q -> Q;
  np_exp : Q -> Q;
  pow10 : Q -> Q;                                   (* 10 ** x *)
  simps : list Q -> Q -> Q;                         (* scipy.integrate.simps(y, dx) *)
  spline : list Q -> list Q -> nat -> result (Q -> Q);
                                   (* InterpolatedUnivariateSpline(x, y, k) *)
  minimize : Q -> Q -> string -> nat -> minimizer;  (* x0, tol, method, maxiter *)
  call : string -> list value -> list (string * value) -> result value;
  instantiate : value -> list (string * value) -> result value;
  call_method : value -> string -> list value -> list (string * value) -> result value;
  attribute : value -> string -> result value;
  issubclass_ : value -> string -> bool;
  str : value -> string;
  type_of : value -> value
}.

(** Module-level settings of [halo_model.py]. *)
Record globals : Type := { USEFORT : bool }.

(** The setting in the source: [USEFORT = True]. *)
Definition module_globals : globals := {| USEFORT := true |}.

(** ** Programs that read attributes of [self]

    The body of a property only reads attributes of the instance; every
    read may trigger the evaluation of another property. *)

Inductive prog (A : Type) : Type :=
| Ret (a : A)
| Throw (e : exn)
| GetAttr (n : string) (k : value -> prog A).
Arguments Ret {A} a.
Arguments Throw {A} e.
Arguments GetAttr {A} n k.

Fixpoint pbind {A B} (p : prog A) (f : A -> prog B) : prog B :=
  match p with
  | Ret a => f a
  | Throw e => Throw e
  | GetAttr n k => GetAttr n (fun v => pbind (k v) f)
  end.

Declare Scope prog_scope.
Delimit Scope prog_scope with prog.
Bind Scope prog_scope with prog.
Notation "x ← p ; q" := (pbind p (fun x => q))
  (at level 20, p at level 100, q at level 200, only parsing) : prog_scope.
Local Open Scope prog_scope.

Definition lift {A} (r : result A) : prog A :=
  match r with
  | Ok a => Ret a
  | Raise e => Throw e
  end.

(** [self.n] *)
Definition self (n : string) : prog value := GetAttr n Ret.

Definition num (x : Q) : prog value := Ret (VNum x).

Definition pbinop (op : value -> value -> result value) (p q : prog value) : prog value :=
  a ← p; b ← q; lift (op a b).

Notation "p [+] q" := (pbinop np_add p q) (at level 50, left associativity) : prog_scope.
Notation "p [-] q" := (pbinop np_sub p q) (at level 50, left associativity) : prog_scope.
Notation "p [*] q" := (pbinop np_mul p q) (at level 40, left associativity) : prog_scope.
Notation "p [/] q" := (pbinop np_div p q) (at level 40, left associativity) : prog_scope.
Notation "p [^] n" := (a ← p; lift (np_pow a n)) (at level 30, right associativity) : prog_scope.

(** The three kinds of class members the class uses: a property under the
    decorator [cached_property] with its declared parents, a property under
    the decorator [parameter] with its validating setter, and a plain class
    attribute. *)
Inductive member : Type :=
| cached_property (parents : list string) (body : prog value)
| parameter (validate : value -> result value)
| class_attr (v : value).

(** * The class [HaloModel] *)

Module HaloModel.
Section Class.

Variable lib : Lib.
Variable g : globals.

Local Open Scope prog_scope.

Definition isinstance_basestring (val : value) : bool :=
  match val with VStr _ => true | _ => false end.

(** ** Parameters: the validating setters (source lines 98-191) *)

Definition cut_fit (val : value) : result value := Ok (VBool false).

Definition ng (val : value) : result value := Ok val.

Definition bias_params (val : value) : result value := Ok val.

Definition hod_params (val : value) : result value := Ok val.

Definition hod_model (val : value) : result value :=
  if negb (isinstance_basestring val) && negb (issubclass_ lib val "hod.HOD")
  then Raise (ValueError "hod_model must be a subclass of hod.HOD")
  else Ok val.

Definition nonlinear (val : value) : result value :=
  match truthy val with
  | Ok true => Ok (VBool true)
  | Ok false => Ok (VBool false)
  | Raise _ => Raise (ValueError "nonlinear must be a logical value")
  end.

Definition halo_profile (val : value) : result value :=
  if negb (isinstance_basestring val) && negb (issubclass_ lib val "profiles.Profile")
  then Raise (ValueError "halo_profile must be a subclass of profiles.Profile")
  else Ok val.

Definition cm_relation (val : value) : result value :=
  if negb (isinstance_basestring val) && negb (issubclass_ lib val "CMRelation")
  then Raise (ValueError "cm_relation must be a subclass of concentration.CMRelation")
  else Ok val.

Definition bias_model (val : value) : result value :=
  if negb (isinstance_basestring val) && negb (issubclass_ lib val "bias.Bias")
  then Raise (ValueError "bias_model must be a subclass of bias.Bias")
  else Ok val.

(** The labels the setter of [halo_exclusion] accepts. *)
Definition available : list string :=
  ["None"; "sphere"; "ellipsoid"; "ng_matched"; "schneider"].

Definition halo_exclusion (val : value) : result value :=
  let val := if is_none val then VStr "None" else val in
  if negb (existsb (value_eqb val) (map VStr available))
  then Raise (ValueError ("halo_exclusion not acceptable: " +:+ str lib val
                            +:+ " " +:+ str lib (type_of lib val)))
  else Ok val.

Definition cm_params (val : value) : result value := Ok val.

Definition rmin (val : value) : result value := Ok val.

Definition rmax (val : value) : result value := Ok val.

Definition rnum (val : value) : result value := Ok val.

Definition scale_dependent_bias (val : value) : result value :=
  match truthy val with
  | Ok true => Ok (VBool true)
  | Ok false => Ok (VBool false)
  | Raise _ =>
      Raise (ValueError "scale_dependent_bias must be a boolean/have logical value")
  end.

(** ** Cached properties: the bodies (source lines 195-497) *)

(** [get_model(selector, module, **kwargs)], or the class itself called
    when the selector is a class of the family. *)
Definition build (selector : value) (family module : string)
    (kwargs : list (string * value)) : result value :=
  if issubclass_ lib selector family
  then instantiate lib selector kwargs
  else call lib "get_model" [selector; VStr module] kwargs.

(** The value multiplied by [u.<unit> / self._hunit]. *)
Definition in_hunits (v : value) : prog value :=
  _ ← self "_hunit"; Ret v.

Definition r : prog value :=
  rmin ← self "rmin";
  r0 ← match rmin with
       | VArr _ => Ret rmin
       | _ =>
           rlog ← self "rlog";
           b ← lift (truthy rlog);
           lo ← lift (as_num rmin);
           rmax ← self "rmax";
           hi ← lift (as_num rmax);
           rnum ← self "rnum";
           n ← lift (as_count rnum);
           if b
           then Ret (VArr (map (np_exp lib) (linspace (np_log lib lo) (np_log lib hi) n)))
           else Ret (VArr (linspace lo hi n))
       end;
  in_hunits r0.

Definition hod : prog value :=
  selector ← self "hod_model";
  params ← self "hod_params";
  kwargs ← lift (as_kwargs params);
  lift (build selector "hod.HOD" "halomod.hod" kwargs).

Definition M : prog value :=
  h ← self "hod";
  mmin ← lift (rbind (attribute lib h "mmin") as_num);
  dlog10m ← self "dlog10m";
  step ← lift (as_num dlog10m);
  in_hunits (VArr (map (pow10 lib) (arange mmin 18 step))).

Definition n_sat : prog value :=
  h ← self "hod"; m ← self "M"; lift (call_method lib h "ns" [m] []).

Definition n_cen : prog value :=
  h ← self "hod"; m ← self "M"; lift (call_method lib h "nc" [m] []).

Definition n_tot : prog value :=
  h ← self "hod"; m ← self "M"; lift (call_method lib h "ntot" [m] []).

Definition bias : prog value :=
  selector ← self "bias_model";
  nu ← self "nu";
  delta_c ← self "delta_c";
  delta_halo ← self "delta_halo";
  n ← self "n";
  params ← self "bias_params";
  extra ← lift (as_kwargs params);
  b ← lift (build selector "bias.Bias" "halomod.bias"
              ([("nu", nu); ("delta_c", delta_c); ("delta_halo", delta_halo); ("n", n)]
                 ++ extra));
  lift (call_method lib b "bias" [] []).

Definition cm : prog value :=
  selector ← self "cm_relation";
  nu ← self "nu";
  z ← self "z";
  growth ← self "_growth";
  m ← self "M";
  params ← self "cm_params";
  extra ← lift (as_kwargs params);
  lift (build selector "CMRelation" "halomod.concentration"
          ([("nu", nu); ("z", z); ("growth", growth); ("M", m)] ++ extra)).

Definition concentration : prog value :=
  c ← self "cm"; m ← self "M"; lift (call_method lib c "cm" [m] []).

Definition profile : prog value :=
  selector ← self "halo_profile";
  c ← self "cm";
  mean_dens ← self "mean_density0";
  delta_halo ← self "delta_halo";
  z ← self "z";
  lift (build selector "profiles.Profile" "halomod.profiles"
          [("cm_relation", c); ("mean_dens", mean_dens);
           ("delta_halo", delta_halo); ("z", z)]).

Definition n_gal : prog value := self "dndm" [*] self "n_tot".

(** [np.log(self.M[1] / self.M[0])] *)
Definition dlnM : prog Q :=
  m ← self "M"; lift (grid_step (np_log lib) m).

Definition trapz (integrand : value) (dx : Q) : prog value :=
  lift (np_trapz integrand dx).

Definition mean_gal_den : prog value :=
  ng ← self "ng";
  if negb (is_none ng)
  then ng ← self "ng"; _ ← self "M"; _ ← self "dndm"; Ret ng
  else
    integrand ← self "M" [*] self "dndm" [*] self "n_tot";
    dx ← dlnM;
    trapz integrand dx.

Definition bias_effective : prog value :=
  integrand ← self "M" [*] self "dndm" [*] self "n_tot" [*] self "bias";
  dx ← dlnM;
  b ← trapz integrand dx;
  Ret b [/] self "mean_gal_den".

Definition mass_effective : prog value :=
  integrand ← self "M" [^] 2 [*] self "dndm" [*] self "n_tot";
  dx ← dlnM;
  m ← trapz integrand dx;
  q ← Ret m [/] self "mean_gal_den";
  lift (np_map (np_log10 lib) q).

Definition satellite_fraction : prog value :=
  integrand ← self "M" [*] self "dndm" [*] self "n_sat";
  dx ← dlnM;
  s ← trapz integrand dx;
  Ret s [/] self "mean_gal_den".

Definition central_fraction : prog value :=
  num 1 [-] self "satellite_fraction".

Definition matter_power : prog value :=
  nonlinear ← self "nonlinear";
  b ← lift (truthy nonlinear);
  if b then self "nonlinear_power" else self "power".

Definition dm_corr : prog value :=
  p ← self "matter_power"; k ← self "k"; r ← self "r";
  lift (call lib "tools.power_to_corr_ogata" [p; k; r] []).

(** [self.profile.<f>(self.<x>, self.M, norm="m")] *)
Definition profile_of (f x : string) : prog value :=
  p ← self "profile"; a ← self x; m ← self "M";
  lift (call_method lib p f [a; m] [("norm", VStr "m")]).

(** [np.log(10) * self.dlog10m] *)
Definition dln10m : prog Q :=
  d ← self "dlog10m"; step ← lift (as_num d); Ret (np_log lib 10 * step).

(** [self.hod._central] *)
Definition hod_central : prog value :=
  h ← self "hod"; lift (attribute lib h "_central").

Definition len_of (n : string) : prog value :=
  v ← self n; lift (py_len v).

Fixpoint reads (ns : list string) : prog (list value) :=
  match ns with
  | [] => Ret []
  | n :: ns' => v ← self n; vs ← reads ns'; Ret (v :: vs)
  end.

Definition _power_gg_1h_ss : prog value :=
  p ← (if USEFORT g
       then
         u ← profile_of "u" "k";
         nlnk ← len_of "k";
         nm ← len_of "M";
         dndm ← self "dndm";
         nsat ← self "n_sat";
         ncen ← self "n_cen";
         mass ← self "M";
         central ← hod_central;
         lift (call lib "fort.power_gal_1h_ss" []
                 [("nlnk", nlnk); ("nm", nm); ("u", u); ("dndm", dndm);
                  ("nsat", nsat); ("ncen", ncen); ("mass", mass);
                  ("central", central)])
       else
         u ← profile_of "u" "k";
         integ ← Ret u [^] 2 [*] self "dndm" [*] self "M" [*] self "n_sat" [^] 2;
         central ← hod_central;
         b ← lift (truthy central);
         integ ← (if b then Ret integ [*] self "n_cen" else Ret integ);
         d ← self "dlog10m";
         step ← lift (as_num d);
         trapz integ (step * np_log lib 10));
  Ret p [/] self "mean_gal_den" [^] 2.

(** [4*np.pi * radius**3 * self.<density> * self.delta_halo/3]: the mass
    of the halo whose virial radius is [radius]. *)
Definition virial_mass (radius : value) (density : string) : prog value :=
  num (4 * np_pi) [*] Ret radius [^] 3 [*] self density [*] self "delta_halo" [/] num 3.

(** [mask = np.repeat(self.M, len(x)).reshape(len(self.M), len(x)) < mmin;
    integrand[mask.T] = 0] *)
Definition mask_below (mmin integrand : value) : prog value :=
  m ← self "M";
  lift (rbind (as_arr m) (fun ms =>
        rbind (as_arr mmin) (fun bound =>
        rbind (as_mat integrand) (fun rows =>
        rmap VMat (mask_rows Qltb ms bound rows))))).

Definition _power_mm_1h : prog value :=
  u ← profile_of "u" "k";
  integrand ← self "dndm" [*] self "M" [^] 3 [*] Ret u [^] 2;
  r ← num np_pi [/] self "k";
  mmin ← virial_mass r "mean_density";
  integrand ← mask_below mmin integrand;
  d ← self "dlog10m";
  step ← lift (as_num d);
  t ← trapz integrand (np_log lib 10 * step);
  Ret t [/] self "mean_density" [^] 2.

(** [self.profile.has_lam] *)
Definition has_lam : prog bool :=
  p ← self "profile"; f ← lift (attribute lib p "has_lam"); lift (truthy f).

Definition _corr_mm_1h : prog value :=
  exact ← has_lam;
  if exact
  then
    lam ← profile_of "lam" "r";
    integrand ← self "dndm" [*] self "M" [^] 3 [*] Ret lam;
    r ← self "r" [/] num 2;
    mmin ← virial_mass r "mean_density";
    integrand ← mask_below mmin integrand;
    d ← self "dlog10m";
    step ← lift (as_num d);
    t ← trapz integrand (np_log lib 10 * step);
    Ret t [/] self "mean_density" [^] 2
  else
    p ← self "_power_mm_1h"; k ← self "k"; r ← self "r";
    lift (call lib "tools.power_to_corr_ogata" [p; k; r] []).

Definition _corr_gg_1h_ss : prog value :=
  p ← self "_power_gg_1h_ss"; k ← self "k"; r ← self "r";
  lift (call lib "tools.power_to_corr_ogata" [p; k; r] []).

Definition _corr_gg_1h_cs : prog value :=
  rho ← profile_of "rho" "r";
  c ← (if USEFORT g
       then
         nr ← len_of "r";
         nm ← len_of "M";
         r ← self "r";
         mass ← self "M";
         dndm ← self "dndm";
         ncen ← self "n_cen";
         nsat ← self "n_sat";
         mean_dens ← self "mean_density0";
         delta_halo ← self "delta_halo";
         c ← lift (call lib "fort.corr_gal_1h_cs" []
                     [("nr", nr); ("nm", nm); ("r", r); ("mass", mass);
                      ("dndm", dndm); ("ncen", ncen); ("nsat", nsat);
                      ("rho", rho); ("mean_dens", mean_dens);
                      ("delta_halo", delta_halo)]);
         _ ← self "mean_gal_den";
         Ret c
       else
         r ← self "r";
         mmin ← virial_mass r "mean_density";
         integ ← self "dndm" [*] num 2 [*] self "n_cen" [*] self "n_sat"
                   [*] Ret rho [*] self "M";
         integ ← mask_below mmin integ;
         d ← self "dlog10m";
         step ← lift (as_num d);
         trapz integ (step * np_log lib 10));
  Ret c [/] self "mean_gal_den" [^] 2.

(** Lines 461-466 of [corr_gal_1h]: the satellite-satellite integrand and
    the mass bound.  The mask of line 466 is an array of booleans built
    from [self.M], [self.r] and the bound, all read before. *)
Definition corr_gal_1h_lines_461_466 (lam : value) : prog value :=
  integ ← self "dndm" [*] self "n_sat" [^] 2 [*] Ret lam;
  central ← hod_central;
  b ← lift (truthy central);
  integ ← (if b then Ret integ [*] self "n_cen" else Ret integ);
  r ← self "r";
  virial_mass r "mean_density".

Definition corr_gal_1h : prog value :=
  exact ← has_lam;
  if exact
  then
    rho ← profile_of "rho" "r";
    lam ← profile_of "lam" "r";
    c ← (if USEFORT g
         then
           nr ← len_of "r";
           nm ← len_of "M";
           r ← self "r";
           mass ← self "M";
           dndm ← self "dndm";
           ncen ← self "n_cen";
           nsat ← self "n_sat";
           central ← hod_central;
           mean_dens ← self "mean_density0";
           delta_halo ← self "delta_halo";
           c ← lift (call lib "fort.corr_gal_1h" []
                       [("nr", nr); ("nm", nm); ("r", r); ("mass", mass);
                        ("dndm", dndm); ("ncen", ncen); ("nsat", nsat);
                        ("rho", rho); ("lam", lam); ("central", central);
                        ("mean_dens", mean_dens); ("delta_halo", delta_halo)]);
           _ ← self "mean_gal_den";
           Ret c
         else
           _ ← corr_gal_1h_lines_461_466 lam;
           (* Line 467 evaluates the global name [h], which the module
              never binds.  Lines 468-472 are not reached. *)
           Throw (NameError "h"));
    Ret c [/] self "mean_gal_den" [^] 2
  else
    self "_corr_gal_1h_cs" [+] self "_corr_gal_1h_ss".

Definition corr_gal_2h : prog value :=
  u ← profile_of "u" "k";
  halo_exclusion ← self "halo_exclusion";
  scale_dependent_bias ← self "scale_dependent_bias";
  m ← self "M";
  bias ← self "bias";
  n_tot ← self "n_tot";
  dndm ← self "dndm";
  k ← self "k";
  lnk ← lift (np_map (np_log lib) k);
  matter_power ← self "matter_power";
  r ← self "r";
  dm_corr ← self "dm_corr";
  mean_gal_den ← self "mean_gal_den";
  delta_halo ← self "delta_halo";
  mean_density0 ← self "mean_density0";
  nthreads_2halo ← self "nthreads_2halo";
  lift (call lib "twohalo_wrapper"
          [halo_exclusion; scale_dependent_bias; m; bias; n_tot; dndm; lnk;
           matter_power; u; r; dm_corr; mean_gal_den; delta_halo;
           mean_density0; nthreads_2halo] []).

Definition corr_gal : prog value :=
  self "corr_gal_1h" [+] self "corr_gal_2h".

(** ** The class dictionary: every member with its decorator *)

Definition class_dict : list (string * member) :=
  [ ("rlog", class_attr (VBool true));
    ("cut_fit", parameter cut_fit);
    ("ng", parameter ng);
    ("bias_params", parameter bias_params);
    ("hod_params", parameter hod_params);
    ("hod_model", parameter hod_model);
    ("nonlinear", parameter nonlinear);
    ("halo_profile", parameter halo_profile);
    ("cm_relation", parameter cm_relation);
    ("bias_model", parameter bias_model);
    ("halo_exclusion", parameter halo_exclusion);
    ("cm_params", parameter cm_params);
    ("rmin", parameter rmin);
    ("rmax", parameter rmax);
    ("rnum", parameter rnum);
    ("scale_dependent_bias", parameter scale_dependent_bias);
    ("r", cached_property ["rmin"; "rmax"; "rnum"] r);
    ("hod", cached_property ["hod_model"; "hod_params"] hod);
    ("M", cached_property ["hod"; "dlog10m"] M);
    ("n_sat", cached_property ["hod"; "M"] n_sat);
    ("n_cen", cached_property ["hod"; "M"] n_cen);
    ("n_tot", cached_property ["hod"; "M"] n_tot);
    ("bias", cached_property
       ["bias_model"; "nu"; "delta_c"; "delta_halo"; "n"; "bias_params"] bias);
    ("cm", cached_property
       ["cm_relation"; "nu"; "z"; "growth_model"; "M"; "cm_params"] cm);
    ("concentration", cached_property ["cm"; "M"] concentration);
    ("profile", cached_property
       ["halo_profile"; "delta_halo"; "cm_relation"; "z"; "mean_density0"] profile);
    ("n_gal", cached_property ["dndm"; "n_tot"] n_gal);
    ("mean_gal_den", cached_property ["M"; "dndm"; "n_tot"; "ng"] mean_gal_den);
    ("bias_effective", cached_property ["M"; "dndm"; "n_tot"; "bias"] bias_effective);
    ("mass_effective", cached_property
       ["M"; "dndm"; "n_tot"; "mean_gal_den"] mass_effective);
    ("satellite_fraction", cached_property
       ["M"; "dndm"; "n_sat"; "mean_gal_den"] satellite_fraction);
    ("central_fraction", cached_property ["satellite_fraction"] central_fraction);
    ("matter_power", cached_property
       ["nonlinear"; "power"; "nonlinear_power"] matter_power);
    ("dm_corr", cached_property ["matter_power"; "k"; "r"] dm_corr);
    ("_power_gg_1h_ss", cached_property
       ["k"; "M"; "dndm"; "n_sat"; "n_cen"; "hod"; "profile"; "mean_gal_den"]
       _power_gg_1h_ss);
    ("_power_mm_1h", cached_property
       ["profile"; "dndm"; "M"; "k"; "mean_density"; "delta_halo"; "dlog10m"]
       _power_mm_1h);
    ("_corr_mm_1h", cached_property
       ["profile"; "dndm"; "M"; "r"; "mean_density"; "delta_halo"; "dlog10m"]
       _corr_mm_1h);
    ("_corr_gg_1h_ss", cached_property ["_power_gal_1h_ss"; "k"; "r"] _corr_gg_1h_ss);
    ("_corr_gg_1h_cs", cached_property
       ["r"; "M"; "dndm"; "n_cen"; "n_sat"; "mean_density0"; "delta_halo";
        "mean_gal_den"] _corr_gg_1h_cs);
    ("corr_gal_1h", cached_property
       ["r"; "M"; "dndm"; "n_cen"; "n_sat"; "hod"; "mean_density0"; "delta_halo";
        "mean_gal_den"; "_corr_gal_1h_cs"; "_corr_gal_1h_ss"] corr_gal_1h);
    ("corr_gal_2h", cached_property
       ["profile"; "k"; "M"; "halo_exclusion"; "scale_dependent_bias"; "bias";
        "n_tot"; "dndm"; "matter_power"; "r"; "dm_corr"; "mean_gal_den";
        "delta_halo"; "mean_density0"] corr_gal_2h);
    ("corr_gal", cached_property ["corr_gal_1h"; "corr_gal_2h"] corr_gal) ].

End Class.
End HaloModel.

(** * Instances and attribute access

    An instance holds the values stored by its parameter setters, the
    values of the cached properties computed so far, and its plain
    attributes (such as [nthreads_2halo], which [__init__] assigns without
    a setter). *)

Record inst : Type := {
  params : gmap string value;
  cache : gmap string value;
  attrs : gmap string value
}.

Definition with_cache (c : gmap string value) (st : inst) : inst :=
  {| params := params st; cache := c; attrs := attrs st |}.

Definition with_params (p : gmap string value) (st : inst) : inst :=
  {| params := p; cache := cache st; attrs := attrs st |}.

Definition with_attrs (a : gmap string value) (st : inst) : inst :=
  {| params := params st; cache := cache st; attrs := a |}.

Section Instance.

Variable lib : Lib.
Variable g : globals.

(** The members [HaloModel] inherits from [hmf.MassFunction]: for each
    name, its kind with, for a cached property, its body. *)
Variable MassFunction : string -> option member.

(** Whether an inherited cached property depends on a parameter, through
    its own declared parents. *)
Variable inherited_depends : string -> string -> bool.

(** Attribute resolution: the class first, then the class it extends. *)
Definition lookup_member (n : string) : option member :=
  match assoc n (HaloModel.class_dict lib g) with
  | Some m => Some m
  | None => MassFunction n
  end.

(** Modelled from the spec: the read side of hmf's [cached_property] and
    [parameter] decorators (section 4.1, [get]).  Reading a cached
    property returns the stored value when there is one; otherwise the body
    runs, the value is stored and returned.  A body that raises stores
    nothing for its own property.  [exec fuel p st] runs the program [p] on
    the instance [st]; [fuel] bounds the nesting of property evaluations,
    and [None] means that the bound was hit. *)
Fixpoint exec (fuel : nat) : forall A : Type, prog A -> inst -> option (result A * inst) :=
  fix run (A : Type) (p : prog A) (st : inst) {struct p} : option (result A * inst) :=
    match p with
    | Ret a => Some (Ok a, st)
    | Throw e => Some (Raise e, st)
    | GetAttr n k =>
        match lookup_member n with
        | Some (cached_property _ body) =>
            match cache st !! n with
            | Some v => run A (k v) st
            | None =>
                match fuel with
                | O => None
                | S fuel' =>
                    match exec fuel' value body st with
                    | None => None
                    | Some (Raise e, st') => Some (Raise e, st')
                    | Some (Ok v, st') =>
                        run A (k v) (with_cache (<[n:=v]> (cache st')) st')
                    end
                end
            end
        | Some (parameter _) =>
            match params st !! n with
            | Some v => run A (k v) st
            | None => Some (Raise (AttributeError n), st)
            end
        | Some (class_attr v) =>
            match attrs st !! n with
            | Some w => run A (k w) st
            | None => run A (k v) st
            end
        | None =>
            match attrs st !! n with
            | Some v => run A (k v) st
            | None => Some (Raise (AttributeError n), st)
            end
        end
    end.
Arguments exec fuel {A} p st.

(** [self.n] evaluated on an instance. *)
Definition get (fuel : nat) (n : string) (st : inst) : option (result value * inst) :=
  exec fuel (self n) st.

(** The parameters and inherited quantities a property is declared to
    depend on, through the parents declared in this class. *)
Fixpoint leaves (fuel : nat) (n : string) : list string :=
  match assoc n (HaloModel.class_dict lib g) with
  | Some (cached_property ps _) =>
      match fuel with
      | O => []
      | S fuel' => flat_map (leaves fuel') ps
      end
  | _ => [n]
  end.

Definition leaf_depends (l p : string) : bool :=
  match assoc l (HaloModel.class_dict lib g) with
  | Some (parameter _) => String.eqb l p
  | Some _ => false
  | None =>
      match MassFunction l with
      | Some (parameter _) => String.eqb l p
      | Some (cached_property _ _) => inherited_depends l p
      | _ => false
      end
  end.

(** [depends n p]: the cached property [n] depends, transitively, on the
    parameter [p]. *)
Definition depends (n p : string) : bool :=
  existsb (fun l => leaf_depends l p)
          (leaves (length (HaloModel.class_dict lib g)) n).

(** Modelled from the spec: the write side of hmf's decorators (section
    4.1, [invalidate]).  Every cached value that depends on the changed
    parameter is dropped; nothing is recomputed. *)
Definition invalidate (p : string) (c : gmap string value) : gmap string value :=
  filter (fun kv => depends kv.1 p = false) c.

(** Modelled from the spec: assignment [self.n = v] (sections 3 and 7).
    The setter of a parameter validates at once; a rejected value leaves
    the instance as it was; a value equal to the stored one changes
    nothing; a new value is stored and its dependents are invalidated. *)
Definition setattr (n : string) (v : value) (st : inst) : result unit * inst :=
  match lookup_member n with
  | Some (parameter validate) =>
      match validate v with
      | Raise e => (Raise e, st)
      | Ok v' =>
          let changed :=
            (Ok tt, {| params := <[n:=v']> (params st);
                       cache := invalidate n (cache st);
                       attrs := attrs st |}) in
          match params st !! n with
          | Some old => if value_eqb old v' then (Ok tt, st) else changed
          | None => changed
          end
      end
  | Some (cached_property _ _) => (Raise (AttributeError n), st)
  | _ => (Ok tt, with_attrs (<[n:=v]> (attrs st)) st)
  end.

(** Modelled from the spec: the inherited [update] with keyword arguments (section 3,
    lifecycle).  Every keyword must name a parameter; all values are
    validated before any is stored, so a rejected value leaves the instance
    as it was; then each is assigned. *)
Definition validate_kwarg (kv : string * value) : result unit :=
  match lookup_member kv.1 with
  | Some (parameter validate) => rmap (fun _ => tt) (validate kv.2)
  | _ => Raise (ValueError ("Invalid argument: " +:+ kv.1))
  end.

Fixpoint assign_all (kwargs : list (string * value)) (st : inst) : result unit * inst :=
  match kwargs with
  | [] => (Ok tt, st)
  | (n, v) :: rest =>
      match setattr n v st with
      | (Ok _, st') => assign_all rest st'
      | (Raise e, st') => (Raise e, st')
      end
  end.

Definition base_update (kwargs : list (string * value)) (st : inst) : result unit * inst :=
  match collect (map validate_kwarg kwargs) with
  | Raise e => (Raise e, st)
  | Ok _ => assign_all kwargs st
  end.

End Instance.
Arguments exec lib g MassFunction fuel {A} p st.

(** * The object store and the methods

    Instances live in a store; a method receives the location of [self].
    [deepcopy] allocates a new location, so that the copy and the original
    are distinct objects. *)

Definition loc : Type := nat.

Definition Op (A : Type) : Type :=
  gmap loc inst -> option (result A * gmap loc inst).

Definition oret {A} (a : A) : Op A := fun h => Some (Ok a, h).

Definition oraise {A} (e : exn) : Op A := fun h => Some (Raise e, h).

Definition obind {A B} (m : Op A) (k : A -> Op B) : Op B :=
  fun h =>
    match m h with
    | None => None
    | Some (Raise e, h') => Some (Raise e, h')
    | Some (Ok a, h') => k a h'
    end.

Definition olift {A} (r : result A) : Op A :=
  match r with
  | Ok a => oret a
  | Raise e => oraise e
  end.

Declare Scope op_scope.
Delimit Scope op_scope with op.
Notation "x ← p ; q" := (obind p (fun x => q))
  (at level 20, p at level 100, q at level 200, only parsing) : op_scope.

(** The sharp-cutoff branch of the solver on the arrays of the working
    copy (source lines 512-524): [M] is [c.M], [integrand] is
    [c.M * c.dndm * c.n_tot]. *)
Section Solver.

Variable lib : Lib.

(** [max(ind - 4, 0)] and [min(ind + 4, len(c.M))], the bounds of the
    slice taken around [ind]. *)
Definition window (ind len_M : nat) : nat * nat :=
  (Nat.max (ind - 4) 0, Nat.min (ind + 4) len_M).

Definition sharp_cut_m_min (M integrand : list Q) (ng : Q) : result Q :=
  rbind (grid_step (np_log lib) (VArr M)) (fun dx =>
  let integral := cumtrapz (rev integrand) dx in
  match last integral with
  | None => Raise IndexError
  | Some top =>
      if Qltb top ng
      then Raise (NGException "Maximum mean galaxy density exceeded: " top)
      else
        match find_index (fun x => Qltb ng x) integral with
        | None => Raise IndexError
        | Some ind =>
            let (lo, hi) := window ind (length M) in
            let m := slice lo hi (tail (rev M)) in
            let integral := slice lo hi integral in
            rbind (spline lib (map (np_log lib) integral) (map (np_log lib) m) 3)
                  (fun spline_int => Ok (spline_int (np_log lib ng) / np_log lib 10))
        end
  end).

(** The feasibility test of the smooth branch (source lines 527-529). *)
Definition smooth_feasible (M integrand : list Q) (ng : Q) : result unit :=
  rbind (grid_step (np_log lib) (VArr M)) (fun dx =>
  let integral := simps lib integrand dx in
  if Qltb integral ng
  then Raise (NGException "Maximum mean galaxy density exceeded: " integral)
  else Ok tt).

(** [res.x[0]] *)
Definition first_x (res : OptimizeResult) : result Q :=
  match res_x res with
  | x :: _ => Ok x
  | [] => Raise IndexError
  end.

End Solver.

Section Methods.

Variable lib : Lib.
Variable g : globals.
Variable MassFunction : string -> option member.
Variable inherited_depends : string -> string -> bool.

Local Close Scope prog_scope.
Local Open Scope op_scope.

(** A program run on the instance at a location. *)
Definition at_ {A} (fuel : nat) (l : loc) (p : prog A) : Op A :=
  fun h =>
    match h !! l with
    | None => Some (Raise ReferenceError, h)
    | Some st =>
        match exec lib g MassFunction fuel p st with
        | None => None
        | Some (r0, st') => Some (r0, <[l:=st']> h)
        end
    end.

(** [l.n = v] *)
Definition assign (l : loc) (n : string) (v : value) : Op unit :=
  fun h =>
    match h !! l with
    | None => Some (Raise ReferenceError, h)
    | Some st =>
        let (r0, st') := setattr lib g MassFunction inherited_depends n v st in
        Some (r0, <[l:=st']> h)
    end.

(** [super(HaloModel, l).update] with keyword arguments *)
Definition super_update (l : loc) (kwargs : list (string * value)) : Op unit :=
  fun h =>
    match h !! l with
    | None => Some (Raise ReferenceError, h)
    | Some st =>
        let (r0, st') := base_update lib g MassFunction inherited_depends kwargs st in
        Some (r0, <[l:=st']> h)
    end.

(** [deepcopy(l)]: a new object with the same parameters, cached values
    and attributes. *)
Definition deepcopy (l : loc) : Op loc :=
  fun h =>
    match h !! l with
    | None => Some (Raise ReferenceError, h)
    | Some st => let c := fresh (dom h) in Some (Ok c, <[c:=st]> h)
    end.

(** [key in d] for a dict [d]. *)
Definition contains (key : string) (d : value) : result bool :=
  match d with
  | VDict items => Ok (has_key key items)
  | _ => Raise (TypeError "argument is not a dict")
  end.

(** [update] (source lines 79-93), with the solver it calls as an
    argument. *)
Definition update_with (find : loc -> value -> Op Q) (fuel : nat)
    (l : loc) (kwargs : list (string * value)) : Op unit :=
  kwargs ← match assoc "ng" kwargs with
            | Some v => _ ← assign l "ng" v; oret (remove_key "ng" kwargs)
            | None =>
                match assoc "hod_params" kwargs with
                | Some hp =>
                    b ← olift (contains "M_min" hp);
                    if b : bool
                    then _ ← assign l "ng" VNone; oret kwargs
                    else oret kwargs
                | None => oret kwargs
                end
            end;
  _ ← super_update l kwargs;
  ng ← at_ fuel l (self "ng");
  if negb (is_none ng)
  then mmin ← find l ng; assign l "hod_params" (VDict [("M_min", VNum mmin)])
  else oret tt.

(** The minimiser driven with an objective that acts on the store. *)
Fixpoint drive (objective : Q -> Op Q) (m : minimizer) : Op OptimizeResult :=
  match m with
  | Finished res => oret res
  | Evaluate x k => y ← objective x; drive objective (k y)
  end.

(** [c.M * c.dndm * c.n_tot] with the grid [c.M] *)
Definition density_integrand (fuel : nat) (c : loc) : Op (list Q * list Q) :=
  integrand ← at_ fuel c (self "M" [*] self "dndm" [*] self "n_tot")%prog;
  integrand ← olift (as_arr integrand);
  m ← at_ fuel c (self "M");
  m ← olift (as_arr m);
  oret (m, integrand).

(** What the solver prepares before it branches (source lines 505-511):
    the working copy, its grid and integrand, and whether the occupation
    model of the caller has a sharp cutoff. *)
Record setup : Type := {
  clone : loc;
  grid : list Q;
  integrand : list Q;
  sharp_cut : bool
}.

Definition solver_setup (update : loc -> list (string * value) -> Op unit)
    (fuel : nat) (l : loc) : Op setup :=
  _ ← at_ fuel l (self "power");
  c ← deepcopy l;
  _ ← update c [("hod_params", VDict [("M_min", VNum 8)]);
                ("dlog10m", VNum (1 # 100))];
  mi ← density_integrand fuel c;
  hod ← at_ fuel l (self "hod");
  sharp ← olift (rbind (attribute lib hod "sharp_cut") truthy);
  oret {| clone := c; grid := mi.1; integrand := mi.2; sharp_cut := sharp |}.

(** The objective [model(mmin)] of the smooth branch (source lines
    531-535): it moves the minimum mass of the working copy. *)
Definition model (update : loc -> list (string * value) -> Op unit)
    (fuel : nat) (c : loc) (ng mmin : Q) : Op Q :=
  _ ← update c [("hod_params", VDict [("M_min", VNum mmin)])];
  mi ← density_integrand fuel c;
  dx ← olift (grid_step (np_log lib) (VArr mi.1));
  oret (Qabs (simps lib mi.2 dx - ng)).

(** The smooth branch (source lines 527-539). *)
Definition smooth_m_min (update : loc -> list (string * value) -> Op unit)
    (fuel : nat) (s : setup) (ng : Q) : Op Q :=
  _ ← olift (smooth_feasible lib (grid s) (integrand s) ng);
  res ← drive (model update fuel (clone s) ng)
          (minimize lib 12 (1 # 1000) "Nelder-Mead" 200);
  olift (first_x res).

(** The body of [_find_m_min] (source lines 499-541), with the solver that
    a nested [update] calls as an argument. *)
Definition find_m_min_with (find : loc -> value -> Op Q) (fuel : nat)
    (l : loc) (ng : value) : Op Q :=
  let update := update_with find fuel in
  s ← solver_setup update fuel l;
  ng ← olift (as_num ng);
  if sharp_cut s
  then olift (sharp_cut_m_min lib (grid s) (integrand s) ng)
  else smooth_m_min update fuel s ng.

(** [_find_m_min].  [fuel] bounds both the nesting of property evaluations
    and the nesting of [update] and the solver. *)
Fixpoint _find_m_min (fuel : nat) (l : loc) (ng : value) : Op Q :=
  match fuel with
  | O => fun _ => None
  | S fuel' => find_m_min_with (_find_m_min fuel') fuel' l ng
  end.

Definition update (fuel : nat) : loc -> list (string * value) -> Op unit :=
  update_with (_find_m_min fuel) fuel.

End Methods.

(** * Properties of attribute access *)

Section Evaluation.

Variable lib : Lib.
Variable g : globals.
Variable MassFunction : string -> option member.

Local Abbreviation lookup_member := (lookup_member lib g MassFunction).
Local Abbreviation exec := (exec lib g MassFunction).

Local Open Scope prog_scope.

Definition store (n : string) (v : value) (st : inst) : inst :=
  with_cache (<[n:=v]> (cache st)) st.

(** The evaluation of a program as a relation, without the bound. *)
Inductive eval : forall A : Type, prog A -> inst -> result A -> inst -> Prop :=
| eval_Ret A (a : A) st :
    eval A (Ret a) st (Ok a) st
| eval_Throw A e st :
    eval A (Throw e) st (Raise e) st
| eval_hit A n k st ps body v r0 st' :
    lookup_member n = Some (cached_property ps body) ->
    cache st !! n = Some v ->
    eval A (k v) st r0 st' ->
    eval A (GetAttr n k) st r0 st'
| eval_miss A n k st ps body v st1 r0 st' :
    lookup_member n = Some (cached_property ps body) ->
    cache st !! n = None ->
    eval value body st (Ok v) st1 ->
    eval A (k v) (store n v st1) r0 st' ->
    eval A (GetAttr n k) st r0 st'
| eval_miss_raise A n k st ps body e st1 :
    lookup_member n = Some (cached_property ps body) ->
    cache st !! n = None ->
    eval value body st (Raise e) st1 ->
    eval A (GetAttr n k) st (Raise e) st1
| eval_param A n k st validate v r0 st' :
    lookup_member n = Some (parameter validate) ->
    params st !! n = Some v ->
    eval A (k v) st r0 st' ->
    eval A (GetAttr n k) st r0 st'
| eval_param_unset A n k st validate :
    lookup_member n = Some (parameter validate) ->
    params st !! n = None ->
    eval A (GetAttr n k) st (Raise (AttributeError n)) st
| eval_class_attr A n k st v r0 st' :
    lookup_member n = Some (class_attr v) ->
    eval A (k (default v (attrs st !! n))) st r0 st' ->
    eval A (GetAttr n k) st r0 st'
| eval_attr A n k st v r0 st' :
    lookup_member n = None ->
    attrs st !! n = Some v ->
    eval A (k v) st r0 st' ->
    eval A (GetAttr n k) st r0 st'
| eval_attr_missing A n k st :
    lookup_member n = None ->
    attrs st !! n = None ->
    eval A (GetAttr n k) st (Raise (AttributeError n)) st.

Lemma exec_Ret fuel A (a : A) st : exec fuel (Ret a) st = Some (Ok a, st).
Proof. destruct fuel; reflexivity. Qed.

Lemma exec_Throw fuel A e st : exec fuel (@Throw A e) st = Some (Raise e, st).
Proof. destruct fuel; reflexivity. Qed.

Lemma exec_GetAttr fuel A n (k : value -> prog A) st :
  exec fuel (GetAttr n k) st =
  match lookup_member n with
  | Some (cached_property _ body) =>
      match cache st !! n with
      | Some v => exec fuel (k v) st
      | None =>
          match fuel with
          | O => None
          | S fuel' =>
              match exec fuel' body st with
              | None => None
              | Some (Raise e, st') => Some (Raise e, st')
              | Some (Ok v, st') => exec fuel (k v) (store n v st')
              end
          end
      end
  | Some (parameter _) =>
      match params st !! n with
      | Some v => exec fuel (k v) st
      | None => Some (Raise (AttributeError n), st)
      end
  | Some (class_attr v) => exec fuel (k (default v (attrs st !! n))) st
  | None =>
      match attrs st !! n with
      | Some v => exec fuel (k v) st
      | None => Some (Raise (AttributeError n), st)
      end
  end.
Proof.
  destruct fuel; simpl; destruct (lookup_member n) as [[ps body|validate|v]|];
    try reflexivity; destruct (attrs st !! n); reflexivity.
Qed.

Lemma exec_bind fuel A B (p : prog A) (f : A -> prog B) st :
  exec fuel (pbind p f) st =
  match exec fuel p st with
  | None => None
  | Some (Raise e, st') => Some (Raise e, st')
  | Some (Ok a, st') => exec fuel (f a) st'
  end.
Proof.
  revert st. induction p as [a|e|n k IH]; intros st; simpl.
  - rewrite exec_Ret. reflexivity.
  - rewrite !exec_Throw. reflexivity.
  - rewrite !exec_GetAttr.
    destruct (lookup_member n) as [[ps body|validate|v]|]; auto.
    + destruct (cache st !! n); auto.
      destruct fuel; auto.
      destruct (exec fuel body st) as [[[v|e] st']|]; auto.
    + destruct (params st !! n); auto.
    + destruct (attrs st !! n); auto.
Qed.

Lemma exec_lift fuel A (r0 : result A) st : exec fuel (lift r0) st = Some (r0, st).
Proof. destruct r0; [apply exec_Ret | apply exec_Throw]. Qed.

(** Every run of the interpreter is an evaluation. *)
Lemma exec_eval fuel : forall A (p : prog A) st r0 st',
  exec fuel p st = Some (r0, st') -> eval A p st r0 st'.
Proof.
  induction fuel as [|fuel IHfuel]; intros A p; induction p as [a|e|n k IH];
    intros st r0 st'.
  all: try (rewrite exec_Ret; intros [= <- <-]; constructor).
  all: try (rewrite exec_Throw; intros [= <- <-]; constructor).
  all: rewrite exec_GetAttr;
    destruct (lookup_member n) as [[ps body|validate|v]|] eqn:Hm.
  all: try (destruct (params st !! n) eqn:Hp;
            [ intros H; eapply eval_param; eauto
            | intros [= <- <-]; eapply eval_param_unset; eauto ]).
  all: try (intros H; eapply eval_class_attr; eauto; fail).
  all: try (destruct (attrs st !! n) eqn:Ha;
            [ intros H; eapply eval_attr; eauto
            | intros [= <- <-]; eapply eval_attr_missing; eauto ]; fail).
  - destruct (cache st !! n) eqn:Hc; [|discriminate].
    intros H. eapply eval_hit; eauto.
  - destruct (cache st !! n) eqn:Hc.
    + intros H. eapply eval_hit; eauto.
    + destruct (exec fuel body st) as [[[v|e] st1]|] eqn:Hb; [| |discriminate].
      * intros H. eapply eval_miss; eauto.
      * intros [= <- <-]. eapply eval_miss_raise; eauto.
Qed.

(** More fuel never changes an outcome. *)
Lemma exec_fuel_S fuel : forall A (p : prog A) st x,
  exec fuel p st = Some x -> exec (S fuel) p st = Some x.
Proof.
  induction fuel as [|fuel IHfuel]; intros A p; induction p as [a|e|n k IH];
    intros st x.
  all: try (rewrite !exec_Ret; auto; fail).
  all: try (rewrite !exec_Throw; auto; fail).
  all: rewrite !exec_GetAttr;
    destruct (lookup_member n) as [[ps body|validate|v]|]; auto.
  all: try (destruct (params st !! n); auto; fail).
  all: try (destruct (attrs st !! n); auto; fail).
  - destruct (cache st !! n); auto. discriminate.
  - destruct (cache st !! n); auto.
    destruct (exec fuel body st) as [[[v|e] st1]|] eqn:Hb; [| |discriminate].
    + rewrite (IHfuel _ _ _ _ Hb). auto.
    + rewrite (IHfuel _ _ _ _ Hb). auto.
Qed.

Lemma exec_fuel_le fuel fuel' A (p : prog A) st x :
  (fuel <= fuel')%nat -> exec fuel p st = Some x -> exec fuel' p st = Some x.
Proof.
  induction 1 as [|m Hle IH]; auto.
  intros H. apply exec_fuel_S. auto.
Qed.

(** Evaluation never touches the parameters or the plain attributes. *)
Lemma eval_params A (p : prog A) st r0 st' :
  eval A p st r0 st' -> params st' = params st /\ attrs st' = attrs st.
Proof.
  induction 1; auto.
  destruct IHeval1 as [E1 E2]. destruct IHeval2 as [E3 E4].
  simpl in *. split; congruence.
Qed.

(** Evaluation only adds cached values: what was cached stays as it was. *)
Lemma eval_cache_mono A (p : prog A) st r0 st' :
  eval A p st r0 st' ->
  forall m w, cache st !! m = Some w -> cache st' !! m = Some w.
Proof.
  induction 1; auto.
  intros m w Hm. apply IHeval2. simpl.
  rewrite lookup_insert_ne; [auto | congruence].
Qed.

End Evaluation.

Section Acyclic.

Variable lib : Lib.
Variable g : globals.
Variable MassFunction : string -> option member.

Local Abbreviation lookup_member := (lookup_member lib g MassFunction).
Local Abbreviation exec := (exec lib g MassFunction).
Local Abbreviation eval := (eval lib g MassFunction).

(** A numbering of the attributes along which every body reads only
    attributes of a smaller number: the dependency graph has no cycle. *)
Variable rank : string -> nat.

Fixpoint reads_below {A} (bound : nat) (p : prog A) : Prop :=
  match p with
  | Ret _ => True
  | Throw _ => True
  | GetAttr n k => (rank n < bound)%nat /\ forall v, reads_below bound (k v)
  end.

Definition acyclic : Prop :=
  forall n ps body,
    lookup_member n = Some (cached_property ps body) ->
    reads_below (rank n) body.

Lemma reads_below_bind A B bound (p : prog A) (f : A -> prog B) :
  reads_below bound p -> (forall a, reads_below bound (f a)) ->
  reads_below bound (pbind p f).
Proof.
  induction p as [a|e|n k IH]; simpl; auto.
  intros [Hn Hk] Hf. split; auto.
Qed.

Lemma reads_below_lift A bound (r0 : result A) : reads_below bound (lift r0).
Proof. destruct r0; exact I. Qed.

Lemma reads_below_self bound n : (rank n < bound)%nat -> reads_below bound (self n).
Proof. intros H. split; [exact H | intros v; exact I]. Qed.

Lemma reads_below_le A bound bound' (p : prog A) :
  (bound <= bound')%nat -> reads_below bound p -> reads_below bound' p.
Proof.
  intros Hle. induction p as [a|e|n k IH]; simpl; auto.
  intros [Hn Hk]. split; [lia | auto].
Qed.

Hypothesis Hacyclic : acyclic.

(** A program leaves alone every cached value of a rank it cannot read. *)
Lemma eval_cache_above A (p : prog A) st r0 st' :
  eval A p st r0 st' ->
  forall bound, reads_below bound p ->
  forall m, (bound <= rank m)%nat -> cache st' !! m = cache st !! m.
Proof.
  induction 1 as
    [ | | A n k st ps body v r0 st' Hm Hc _ IH
      | A n k st ps body v st1 r0 st' Hm Hc _ IH1 _ IH2
      | A n k st ps body e st1 Hm Hc _ IH1
      | A n k st validate v r0 st' Hm Hp _ IH
      | | A n k st v r0 st' Hm _ IH
      | A n k st v r0 st' Hm Ha _ IH | ];
    intros bound Hb m Hle; auto; simpl in Hb; destruct Hb as [Hn Hk].
  - eapply IH; eauto.
  - rewrite (IH2 bound (Hk v) m Hle). simpl.
    rewrite lookup_insert_ne; [|intros ->; lia].
    apply (IH1 (rank n)); [eapply Hacyclic; eauto | lia].
  - apply (IH1 (rank n)); [eapply Hacyclic; eauto | lia].
  - eapply IH; eauto.
  - eapply IH; eauto.
  - eapply IH; eauto.
Qed.

(** With fuel beyond the rank the interpreter reaches an outcome. *)
Lemma exec_enough_fuel fuel : forall A (p : prog A) st bound,
  reads_below bound p -> (bound <= fuel)%nat -> is_Some (exec fuel p st).
Proof.
  induction fuel as [fuel IHfuel] using lt_wf_ind.
  intros A p. induction p as [a|e|n k IH]; intros st bound Hb Hle.
  - rewrite exec_Ret. eauto.
  - rewrite exec_Throw. eauto.
  - destruct Hb as [Hn Hk]. rewrite exec_GetAttr.
    destruct (lookup_member n) as [[ps body|validate|v]|] eqn:Hm.
    + destruct (cache st !! n); [eapply IH; eauto|].
      destruct fuel as [|fuel']; [lia|].
      destruct (IHfuel fuel' ltac:(lia) _ body st (rank n)) as [[[v|e] st1] Hx];
        [eapply Hacyclic; eauto | lia | rewrite Hx ..].
      * eapply IH; eauto.
      * eauto.
    + destruct (params st !! n); [eapply IH; eauto | eauto].
    + eapply IH; eauto.
    + destruct (attrs st !! n); [eapply IH; eauto | eauto].
Qed.

(** *** Coherence of a property with the parents it is computed from

    [coherent n ps F]: whenever [n] is cached, so are the parents [ps], and
    the cached value of [n] is [F] of the cached values of the parents. *)
Definition coherent (n : string) (ps : list string)
    (F : list value -> result value) (st : inst) : Prop :=
  forall v, cache st !! n = Some v ->
    exists vs, Forall2 (fun p w => cache st !! p = Some w) ps vs /\ F vs = Ok v.

(** The body evaluates to [F] of the values it leaves cached. *)
Definition computes (body : prog value) (ps : list string)
    (F : list value -> result value) : Prop :=
  forall fuel st v st1,
    exec fuel body st = Some (Ok v, st1) ->
    exists vs, Forall2 (fun p w => cache st1 !! p = Some w) ps vs /\ F vs = Ok v.

Lemma eval_exec A (p : prog A) st r0 st' :
  eval A p st r0 st' -> exists fuel, exec fuel p st = Some (r0, st').
Proof.
  induction 1 as
    [ A a st | A e st | A n k st ps body v r0 st' Hm Hc _ [f IH]
      | A n k st ps body v st1 r0 st' Hm Hc _ [f1 IH1] _ [f2 IH2]
      | A n k st ps body e st1 Hm Hc _ [f1 IH1]
      | A n k st validate v r0 st' Hm Hp _ [f IH]
      | A n k st validate Hm Hp | A n k st v r0 st' Hm _ [f IH]
      | A n k st v r0 st' Hm Ha _ [f IH] | A n k st Hm Ha ].
  - exists O. apply exec_Ret.
  - exists O. apply exec_Throw.
  - exists f. rewrite exec_GetAttr, Hm, Hc. exact IH.
  - exists (S (Nat.max f1 f2)). rewrite exec_GetAttr, Hm, Hc.
    rewrite (exec_fuel_le _ _ _ f1 (Nat.max f1 f2) _ _ _ _ ltac:(lia) IH1).
    apply (exec_fuel_le _ _ _ f2); [lia | exact IH2].
  - exists (S f1). rewrite exec_GetAttr, Hm, Hc, IH1. reflexivity.
  - exists f. rewrite exec_GetAttr, Hm, Hp. exact IH.
  - exists O. rewrite exec_GetAttr, Hm, Hp. reflexivity.
  - exists f. rewrite exec_GetAttr, Hm. exact IH.
  - exists f. rewrite exec_GetAttr, Hm, Ha. exact IH.
  - exists O. rewrite exec_GetAttr, Hm, Ha. reflexivity.
Qed.

Lemma Forall2_cached_ext (c1 c2 : gmap string value) (ps : list string) vs :
  (forall p, p ∈ ps -> c2 !! p = c1 !! p) ->
  Forall2 (fun p w => c1 !! p = Some w) ps vs ->
  Forall2 (fun p w => c2 !! p = Some w) ps vs.
Proof.
  intros Hext H. induction H as [|p w ps' vs' Hp _ IH].
  - constructor.
  - constructor.
    + rewrite Hext; [exact Hp | left].
    + apply IH. intros q Hq. apply Hext. right. exact Hq.
Qed.

Lemma Forall2_cached_elem (c : gmap string value) (ps : list string) vs p :
  Forall2 (fun p w => c !! p = Some w) ps vs -> p ∈ ps -> is_Some (c !! p).
Proof.
  intros H. induction H as [|q w ps' vs' Hq _ IH].
  - intros Hp. inversion Hp.
  - intros Hp. apply elem_of_cons in Hp as [->|Hp]; eauto.
Qed.

Section Coherence.

Variables (n : string) (ps dps : list string) (body : prog value)
          (F : list value -> result value).

Hypothesis Hmember : lookup_member n = Some (cached_property dps body).
Hypothesis Hcomputes : computes body ps F.
Hypothesis Hranks : forall p, p ∈ ps -> (rank p < rank n)%nat.

(** Evaluating any program keeps the property coherent with its parents. *)
Lemma coherent_eval A (p : prog A) st r0 st' :
  eval A p st r0 st' -> coherent n ps F st -> coherent n ps F st'.
Proof.
  induction 1 as
    [ | | | A m k st mps mbody v st1 r0 st' Hm Hc Hbody IH1 _ IH2
      | | | | | | ]; auto.
  intros Hst. apply IH2. specialize (IH1 Hst).
  destruct (decide (m = n)) as [->|Hmn].
  - (* the property itself is computed and stored *)
    rewrite Hmember in Hm. injection Hm as <- <-.
    destruct (eval_exec _ _ _ _ _ Hbody) as [fuel Hfuel].
    destruct (Hcomputes _ _ _ _ Hfuel) as (vs & Hvs & HF).
    intros v'. simpl. rewrite lookup_insert_eq. intros [= <-].
    exists vs. split; [|exact HF].
    eapply Forall2_cached_ext; [|exact Hvs].
    intros p Hp. rewrite lookup_insert_ne; [reflexivity|].
    intros ->. specialize (Hranks _ Hp). lia.
  - destruct (decide (m ∈ ps)) as [Hin|Hnotin].
    + (* a parent is computed: the property was not cached *)
      intros v'. simpl. rewrite lookup_insert_ne by exact Hmn.
      rewrite (eval_cache_above _ _ _ _ _ Hbody (rank m));
        [| eapply Hacyclic; eauto | specialize (Hranks _ Hin); lia].
      intros Hn. destruct (Hst v' Hn) as (vs & Hvs & _).
      destruct (Forall2_cached_elem _ _ _ _ Hvs Hin) as [w Hw]. congruence.
    + (* an unrelated property is stored *)
      intros v'. simpl. rewrite lookup_insert_ne by exact Hmn.
      intros Hn. destruct (IH1 v' Hn) as (vs & Hvs & HF).
      exists vs. split; [|exact HF].
      eapply Forall2_cached_ext; [|exact Hvs].
      intros p Hp. rewrite lookup_insert_ne; [reflexivity|].
      intros ->. contradiction.
Qed.

End Coherence.

End Acyclic.

(** * Properties of assignment *)

Section Invalidation.

Variable lib : Lib.
Variable g : globals.
Variable MassFunction : string -> option member.
Variable inherited_depends : string -> string -> bool.

Local Abbreviation lookup_member := (lookup_member lib g MassFunction).
Local Abbreviation eval := (eval lib g MassFunction).
Local Abbreviation depends := (depends lib g MassFunction inherited_depends).
Local Abbreviation invalidate := (invalidate lib g MassFunction inherited_depends).
Local Abbreviation setattr := (setattr lib g MassFunction inherited_depends).
Local Abbreviation base_update := (base_update lib g MassFunction inherited_depends).
Local Abbreviation assign_all := (assign_all lib g MassFunction inherited_depends).

Lemma lookup_invalidate p (c : gmap string value) n :
  invalidate p c !! n = if depends n p then None else c !! n.
Proof.
  unfold invalidate.
  destruct (depends n p) eqn:Hd.
  - apply map_lookup_filter_None. right. intros v _. simpl. congruence.
  - destruct (c !! n) as [v|] eqn:Hc.
    + apply map_lookup_filter_Some. split; auto.
    + apply map_lookup_filter_None. left. exact Hc.
Qed.

(** An assignment keeps the cache or invalidates the dependents of the
    assigned name. *)
Lemma setattr_cache n v st :
  cache (setattr n v st).2 = cache st \/
  cache (setattr n v st).2 = invalidate n (cache st).
Proof.
  unfold setattr.
  destruct (lookup_member n) as [[ps body|validate|w]|]; simpl; auto.
  destruct (validate v) as [v'|e]; simpl; auto.
  destruct (params st !! n) as [old|]; simpl; auto.
  destruct (value_eqb old v'); simpl; auto.
Qed.

(** A rejected assignment leaves the instance as it was. *)
Lemma setattr_raise n v st e st' :
  setattr n v st = (Raise e, st') -> st' = st.
Proof.
  unfold setattr.
  destruct (lookup_member n) as [[ps body|validate|w]|]; simpl;
    try (intros [= _ <-]; reflexivity); try discriminate.
  destruct (validate v) as [v'|e']; simpl; [|intros [= _ <-]; reflexivity].
  destruct (params st !! n) as [old|]; simpl; [|discriminate].
  destruct (value_eqb old v'); discriminate.
Qed.

Section Coherence.

Variables (n : string) (ps : list string) (F : list value -> result value).

(** Whatever a parent depends on, the property depends on as well. *)
Hypothesis Hdeps : forall p q, p ∈ ps -> depends p q = true -> depends n q = true.

Lemma coherent_invalidate q st c :
  cache st = c ->
  coherent n ps F st ->
  coherent n ps F (with_cache (invalidate q c) st).
Proof.
  intros <- Hst v. simpl. rewrite lookup_invalidate.
  destruct (depends n q) eqn:Hn; [discriminate|].
  intros Hv. destruct (Hst v Hv) as (vs & Hvs & HF).
  exists vs. split; [|exact HF].
  eapply Forall2_cached_ext; [|exact Hvs].
  intros p Hp. rewrite lookup_invalidate.
  destruct (depends p q) eqn:Hpq; [|reflexivity].
  rewrite (Hdeps p q Hp Hpq) in Hn. discriminate.
Qed.

Lemma coherent_cache_eq st st' :
  cache st' = cache st -> coherent n ps F st -> coherent n ps F st'.
Proof. unfold coherent. intros ->. auto. Qed.

Lemma coherent_setattr m v st :
  coherent n ps F st -> coherent n ps F (setattr m v st).2.
Proof.
  intros Hst. destruct (setattr_cache m v st) as [H|H].
  - eapply coherent_cache_eq; eauto.
  - eapply (coherent_cache_eq (with_cache (invalidate m (cache st)) st)).
    + exact H.
    + apply coherent_invalidate; auto.
Qed.

End Coherence.

(** The states an instance can be in: a new instance has nothing cached;
    from there attributes are read and assigned. *)
Inductive reachable : inst -> Prop :=
| reachable_new st :
    cache st = ∅ -> reachable st
| reachable_eval st A (p : prog A) r0 st' :
    reachable st -> eval A p st r0 st' -> reachable st'
| reachable_setattr st n v :
    reachable st -> reachable (setattr n v st).2.

Lemma reachable_assign_all kwargs : forall st,
  reachable st -> reachable (assign_all kwargs st).2.
Proof.
  induction kwargs as [|[n v] rest IH]; intros st Hst; simpl; auto.
  pose proof (reachable_setattr st n v Hst) as H.
  destruct (setattr n v st) as [[u|e] st']; simpl in *; auto.
Qed.

Lemma reachable_base_update kwargs st :
  reachable st -> reachable (base_update kwargs st).2.
Proof.
  intros Hst. unfold base_update.
  destruct (collect _); simpl; auto.
  apply reachable_assign_all. exact Hst.
Qed.

End Invalidation.

(** * Reading a property that is computed from cached parents *)

Section Node.

Variable lib : Lib.
Variable g : globals.
Variable MassFunction : string -> option member.
Variable inherited_depends : string -> string -> bool.
Variable rank : string -> nat.

Local Abbreviation lookup_member := (lookup_member lib g MassFunction).
Local Abbreviation exec := (exec lib g MassFunction).
Local Abbreviation get := (get lib g MassFunction).
Local Abbreviation depends := (depends lib g MassFunction inherited_depends).
Local Abbreviation reachable := (reachable lib g MassFunction inherited_depends).

Hypothesis Hacyclic : acyclic lib g MassFunction rank.

(** Reading a cached property leaves its value cached. *)
Lemma get_cached fuel n ps body st v st' :
  lookup_member n = Some (cached_property ps body) ->
  get fuel n st = Some (Ok v, st') ->
  cache st' !! n = Some v.
Proof.
  intros Hm. unfold get, self. rewrite exec_GetAttr, Hm.
  destruct (cache st !! n) as [w|] eqn:Hc.
  - rewrite exec_Ret. intros [= <- <-]. exact Hc.
  - destruct fuel as [|fuel]; [discriminate|].
    destruct (exec fuel body st) as [[[w|e] st1]|]; try discriminate.
    rewrite exec_Ret. intros [= <- <-]. simpl. apply lookup_insert_eq.
Qed.

Section Derived.

Variables (n : string) (ps dps : list string) (body : prog value)
          (F : list value -> result value).

Hypothesis Hmember : lookup_member n = Some (cached_property dps body).
Hypothesis Hcomputes : computes lib g MassFunction body ps F.
Hypothesis Hhit : forall fuel st vs,
  Forall2 (fun p w => cache st !! p = Some w) ps vs ->
  exec fuel body st = Some (F vs, st).
Hypothesis Hranks : forall p, p ∈ ps -> (rank p < rank n)%nat.
Hypothesis Hdeps : forall p q, p ∈ ps -> depends p q = true -> depends n q = true.

(** In every reachable state the property is coherent with its parents. *)
Lemma reachable_coherent st : reachable st -> coherent n ps F st.
Proof.
  induction 1 as [st Hnew | st A p r0 st' _ IH Hev | st m v _ IH].
  - intros v. rewrite Hnew, lookup_empty. discriminate.
  - eapply coherent_eval; eauto.
  - apply coherent_setattr; auto.
Qed.

(** Reading the property gives the outcome of its body, and a value read
    is [F] of the values of the parents, which are cached next to it. *)
Lemma read_derived st fuel :
  reachable st -> (rank n < fuel)%nat ->
  exists r0 st1 st2,
    get fuel n st = Some (r0, st1) /\
    exec fuel body st = Some (r0, st2) /\
    forall v, r0 = Ok v ->
      exists vs, Forall2 (fun p w => cache st1 !! p = Some w) ps vs /\ F vs = Ok v.
Proof.
  intros Hreach Hfuel. pose proof (reachable_coherent st Hreach) as Hco.
  unfold get, self. rewrite exec_GetAttr, Hmember.
  destruct (cache st !! n) as [v|] eqn:Hc.
  - destruct (Hco v Hc) as (vs & Hvs & HF).
    exists (Ok v), st, st. rewrite exec_Ret, (Hhit fuel st vs Hvs), HF.
    split; [reflexivity|]. split; [reflexivity|].
    intros v' [= <-]. eauto.
  - destruct fuel as [|fuel]; [lia|].
    destruct (exec_enough_fuel lib g MassFunction rank Hacyclic fuel _ body st (rank n))
      as [[r0 st1] Hx]; [eapply Hacyclic; eauto | lia |].
    rewrite Hx. rewrite (exec_fuel_S _ _ _ _ _ _ _ _ Hx).
    destruct r0 as [v|e].
    + exists (Ok v), (store n v st1), st1. rewrite exec_Ret.
      split; [reflexivity|]. split; [reflexivity|].
      intros v' [= <-]. destruct (Hcomputes _ _ _ _ Hx) as (vs & Hvs & HF).
      exists vs. split; [|exact HF].
      eapply Forall2_cached_ext; [|exact Hvs].
      intros p Hp. simpl. rewrite lookup_insert_ne; [reflexivity|].
      intros ->. specialize (Hranks _ Hp). lia.
    + exists (Raise e), st1, st1. split; [reflexivity|]. split; [reflexivity|].
      discriminate.
Qed.

End Derived.

End Node.

(** * The combined correlation and the galaxy fractions *)

Definition apply1 (op : value -> result value) (vs : list value) : result value :=
  match vs with
  | [a] => op a
  | _ => Raise (TypeError "one operand expected")
  end.

Definition apply2 (op : value -> value -> result value) (vs : list value) : result value :=
  match vs with
  | [a; b] => op a b
  | _ => Raise (TypeError "two operands expected")
  end.

Section Sums.

Variable lib : Lib.
Variable g : globals.
Variable MassFunction : string -> option member.
Variable inherited_depends : string -> string -> bool.

Local Abbreviation lookup_member := (lookup_member lib g MassFunction).
Local Abbreviation exec := (exec lib g MassFunction).
Local Abbreviation get := (get lib g MassFunction).
Local Abbreviation depends := (depends lib g MassFunction inherited_depends).
Local Abbreviation reachable := (reachable lib g MassFunction inherited_depends).
Local Abbreviation setattr := (setattr lib g MassFunction inherited_depends).

Local Open Scope prog_scope.

Lemma exec_self_hit fuel n ps body st v :
  lookup_member n = Some (cached_property ps body) ->
  cache st !! n = Some v ->
  exec fuel (self n) st = Some (Ok v, st).
Proof.
  intros Hm Hc. unfold self. rewrite exec_GetAttr, Hm, Hc. apply exec_Ret.
Qed.

Lemma eval_mono_exec fuel A (p : prog A) st r0 st' m w :
  exec fuel p st = Some (r0, st') ->
  cache st !! m = Some w -> cache st' !! m = Some w.
Proof.
  intros H. eapply eval_cache_mono. eapply exec_eval. exact H.
Qed.

(** A body [self.p1 op self.p2] over two cached properties. *)
Lemma computes_binop p1 ps1 body1 p2 ps2 body2 op :
  lookup_member p1 = Some (cached_property ps1 body1) ->
  lookup_member p2 = Some (cached_property ps2 body2) ->
  computes lib g MassFunction (pbinop op (self p1) (self p2)) [p1; p2] (apply2 op).
Proof.
  intros H1 H2 fuel st v st'. unfold pbinop. rewrite exec_bind.
  destruct (exec fuel (self p1) st) as [[[a|e] s1]|] eqn:E1; try discriminate.
  rewrite exec_bind.
  destruct (exec fuel (self p2) s1) as [[[b|e] s2]|] eqn:E2; try discriminate.
  rewrite exec_lift. intros [= Hv <-].
  exists [a; b]. split; [|exact Hv].
  constructor; [|constructor; [|constructor]].
  - eapply eval_mono_exec; [exact E2|].
    eapply get_cached; eauto.
  - eapply get_cached; eauto.
Qed.

Lemma hit_binop p1 ps1 body1 p2 ps2 body2 op fuel st vs :
  lookup_member p1 = Some (cached_property ps1 body1) ->
  lookup_member p2 = Some (cached_property ps2 body2) ->
  Forall2 (fun p w => cache st !! p = Some w) [p1; p2] vs ->
  exec fuel (pbinop op (self p1) (self p2)) st = Some (apply2 op vs, st).
Proof.
  intros H1 H2 Hvs.
  inversion Hvs as [|? a ? vs1 Ha Hvs1]; subst.
  inversion Hvs1 as [|? b ? vs2 Hb Hvs2]; subst.
  inversion Hvs2; subst.
  unfold pbinop. rewrite exec_bind, (exec_self_hit _ _ _ _ _ _ H1 Ha).
  rewrite exec_bind, (exec_self_hit _ _ _ _ _ _ H2 Hb).
  apply exec_lift.
Qed.

(** A body [x op self.p] with a constant first operand. *)
Lemma computes_const_binop x p ps body op :
  lookup_member p = Some (cached_property ps body) ->
  computes lib g MassFunction (pbinop op (Ret x) (self p)) [p] (apply1 (op x)).
Proof.
  intros H1 fuel st v st'. unfold pbinop. rewrite exec_bind, exec_Ret.
  rewrite exec_bind.
  destruct (exec fuel (self p) st) as [[[b|e] s2]|] eqn:E2; try discriminate.
  rewrite exec_lift. intros [= Hv <-].
  exists [b]. split; [|exact Hv].
  constructor; [|constructor].
  eapply get_cached; eauto.
Qed.

Lemma hit_const_binop x p ps body op fuel st vs :
  lookup_member p = Some (cached_property ps body) ->
  Forall2 (fun p w => cache st !! p = Some w) [p] vs ->
  exec fuel (pbinop op (Ret x) (self p)) st = Some (apply1 (op x) vs, st).
Proof.
  intros H1 Hvs.
  inversion Hvs as [|? b ? vs1 Hb Hvs1]; subst.
  inversion Hvs1; subst.
  unfold pbinop. rewrite exec_bind, exec_Ret.
  rewrite exec_bind, (exec_self_hit _ _ _ _ _ _ H1 Hb).
  apply exec_lift.
Qed.

(** The declared parents of [corr_gal] carry their dependencies to it. *)
Lemma depends_corr_gal p q :
  p ∈ ["corr_gal_1h"; "corr_gal_2h"] ->
  depends p q = true -> depends "corr_gal" q = true.
Proof.
  intros Hp. unfold depends.
  assert (E : leaves lib g (length (HaloModel.class_dict lib g)) "corr_gal"
              = (leaves lib g (length (HaloModel.class_dict lib g)) "corr_gal_1h"
                 ++ leaves lib g (length (HaloModel.class_dict lib g)) "corr_gal_2h")%list)
    by (vm_compute; reflexivity).
  rewrite E, existsb_app.
  apply elem_of_cons in Hp as [->|Hp]; [intros ->; reflexivity|].
  apply elem_of_cons in Hp as [->|Hp]; [intros ->; apply orb_true_r|].
  inversion Hp.
Qed.

(** [central_fraction] depends on exactly what [satellite_fraction]
    depends on. *)
Lemma depends_central_fraction q :
  depends "central_fraction" q = depends "satellite_fraction" q.
Proof.
  unfold depends.
  assert (E : leaves lib g (length (HaloModel.class_dict lib g)) "central_fraction"
              = leaves lib g (length (HaloModel.class_dict lib g)) "satellite_fraction")
    by (vm_compute; reflexivity).
  rewrite E. reflexivity.
Qed.

End Sums.

Section CombinedCorrelation.

Variable lib : Lib.
Variable g : globals.
Variable MassFunction : string -> option member.
Variable inherited_depends : string -> string -> bool.
Variable rank : string -> nat.

Local Abbreviation lookup_member := (lookup_member lib g MassFunction).
Local Abbreviation exec := (exec lib g MassFunction).
Local Abbreviation get := (get lib g MassFunction).
Local Abbreviation depends := (depends lib g MassFunction inherited_depends).
Local Abbreviation reachable := (reachable lib g MassFunction inherited_depends).
Local Abbreviation setattr := (setattr lib g MassFunction inherited_depends).

Local Open Scope prog_scope.

(** C1.  In every state an instance can reach, reading [corr_gal] has the
    outcome of reading [corr_gal_1h] and [corr_gal_2h] and adding them; a
    value read is exactly the elementwise sum [np_add] of the values of
    [corr_gal_1h] and [corr_gal_2h], which are cached next to it, whether
    [corr_gal] was cached before or is computed by this read. *)
Theorem corr_gal_is_sum_of_terms st fuel :
  acyclic lib g MassFunction rank ->
  reachable st ->
  (rank "corr_gal" < fuel)%nat ->
  exists r0 st1 st2,
    get fuel "corr_gal" st = Some (r0, st1) /\
    exec fuel (self "corr_gal_1h" [+] self "corr_gal_2h") st = Some (r0, st2) /\
    forall v, r0 = Ok v ->
      exists a b,
        cache st1 !! "corr_gal_1h" = Some a /\
        cache st1 !! "corr_gal_2h" = Some b /\
        np_add a b = Ok v.
Proof.
  intros Hacyclic Hreach Hfuel.
  assert (Hcg : lookup_member "corr_gal"
                = Some (cached_property ["corr_gal_1h"; "corr_gal_2h"]
                          HaloModel.corr_gal)) by reflexivity.
  assert (H1 : exists ps, lookup_member "corr_gal_1h"
                = Some (cached_property ps (HaloModel.corr_gal_1h lib g)))
    by (eexists; reflexivity).
  assert (H2 : exists ps, lookup_member "corr_gal_2h"
                = Some (cached_property ps (HaloModel.corr_gal_2h lib)))
    by (eexists; reflexivity).
  destruct H1 as [ps1 H1]. destruct H2 as [ps2 H2].
  pose proof (Hacyclic _ _ _ Hcg) as Hr. simpl in Hr.
  destruct Hr as [Hr1 Hr]. destruct (Hr VNone) as [Hr2 _].
  destruct (read_derived lib g MassFunction inherited_depends rank Hacyclic
              "corr_gal" ["corr_gal_1h"; "corr_gal_2h"] _
              HaloModel.corr_gal (apply2 np_add) Hcg) with (st := st) (fuel := fuel)
    as (r0 & st1 & st2 & Hget & Hbody & Hval); auto.
  - eapply computes_binop; eauto.
  - intros f s vs Hvs. eapply hit_binop; eauto.
  - intros p Hp.
    apply elem_of_cons in Hp as [->|Hp]; [exact Hr1|].
    apply elem_of_cons in Hp as [->|Hp]; [exact Hr2|]. inversion Hp.
  - apply depends_corr_gal.
  - exists r0, st1, st2. split; [exact Hget|]. split; [exact Hbody|].
    intros v Hv. destruct (Hval v Hv) as (vs & Hvs & HF).
    inversion Hvs as [|? a ? vs1 Ha Hvs1]; subst.
    inversion Hvs1 as [|? b ? vs2 Hb Hvs2]; subst.
    inversion Hvs2; subst. exists a, b. auto.
Qed.

(** C10.  In every state an instance can reach, reading [central_fraction]
    has the outcome of [1 - self.satellite_fraction]; a value read is
    exactly [1] minus the cached value of [satellite_fraction], so that two
    numbers read add up to one.  The only declared parent of
    [central_fraction] is [satellite_fraction]: it depends on a parameter
    exactly when [satellite_fraction] does, and an assignment drops both
    cached values or neither. *)
Theorem central_fraction_is_complement st fuel :
  acyclic lib g MassFunction rank ->
  reachable st ->
  (rank "central_fraction" < fuel)%nat ->
  (exists r0 st1 st2,
     get fuel "central_fraction" st = Some (r0, st1) /\
     exec fuel (num 1 [-] self "satellite_fraction") st = Some (r0, st2) /\
     forall v, r0 = Ok v ->
       exists s,
         cache st1 !! "satellite_fraction" = Some s /\
         np_sub (VNum 1) s = Ok v /\
         forall x, s = VNum x -> exists y, v = VNum y /\ y + x == 1) /\
  lookup_member "central_fraction"
    = Some (cached_property ["satellite_fraction"] (HaloModel.central_fraction)) /\
  (forall q, depends "central_fraction" q = depends "satellite_fraction" q) /\
  (forall n v,
     is_Some (cache st !! "central_fraction") ->
     is_Some (cache st !! "satellite_fraction") ->
     (cache (setattr n v st).2 !! "central_fraction" = None <->
      cache (setattr n v st).2 !! "satellite_fraction" = None)).
Proof.
  intros Hacyclic Hreach Hfuel.
  assert (Hcf : lookup_member "central_fraction"
                = Some (cached_property ["satellite_fraction"]
                          (HaloModel.central_fraction))) by reflexivity.
  assert (H1 : exists ps, lookup_member "satellite_fraction"
                = Some (cached_property ps (HaloModel.satellite_fraction lib)))
    by (eexists; reflexivity).
  destruct H1 as [ps1 H1].
  pose proof (Hacyclic _ _ _ Hcf) as Hr. simpl in Hr. destruct Hr as [Hr1 _].
  split; [|split; [exact Hcf|split; [apply depends_central_fraction|]]].
  - destruct (read_derived lib g MassFunction inherited_depends rank Hacyclic
                "central_fraction" ["satellite_fraction"] _
                (HaloModel.central_fraction) (apply1 (np_sub (VNum 1))) Hcf)
      with (st := st) (fuel := fuel)
      as (r0 & st1 & st2 & Hget & Hbody & Hval); auto.
    + apply (computes_const_binop lib g MassFunction (VNum 1) _ _ _ np_sub H1).
    + intros f s vs Hvs.
      apply (hit_const_binop lib g MassFunction (VNum 1) _ _ _ np_sub f s vs H1 Hvs).
    + intros p Hp. apply elem_of_cons in Hp as [->|Hp]; [exact Hr1|]. inversion Hp.
    + intros p q Hp. apply elem_of_cons in Hp as [->|Hp]; [|inversion Hp].
      rewrite depends_central_fraction. auto.
    + exists r0, st1, st2. split; [exact Hget|]. split; [exact Hbody|].
      intros v Hv. destruct (Hval v Hv) as (vs & Hvs & HF).
      inversion Hvs as [|? s ? vs1 Hs Hvs1]; subst.
      inversion Hvs1; subst. exists s. split; [exact Hs|]. split; [exact HF|].
      intros x ->. simpl in HF. injection HF as <-.
      eexists. split; [reflexivity|]. ring.
  - intros n v [c Hc] [s Hs].
    destruct (setattr_cache lib g MassFunction inherited_depends n v st) as [E|E];
      rewrite E.
    + rewrite Hc, Hs. split; discriminate.
    + rewrite !lookup_invalidate, depends_central_fraction, Hc, Hs.
      destruct (depends "satellite_fraction" n); split; auto; discriminate.
Qed.

End CombinedCorrelation.

(** * A worked configuration

    Simple stand-ins for the collaborators and for the inherited class, on
    which the definitions above can be evaluated. *)

Module Demo.

(** Piecewise-linear interpolation, standing in for the spline. *)
Fixpoint interp (x y : list Q) (t : Q) : Q :=
  match x, y with
  | x0 :: ((x1 :: x'') as x'), y0 :: ((y1 :: _) as y') =>
      match x'' with
      | [] => y0 + (t - x0) * ((y1 - y0) / (x1 - x0))
      | _ =>
          if Qle_bool t x1
          then y0 + (t - x0) * ((y1 - y0) / (x1 - x0))
          else interp x' y' t
      end
  | _, y0 :: _ => y0
  | _, _ => 0
  end.

Definition ones_like {A} (l : list A) : list Q := map (fun _ => 1) l.

Definition falloff (r : list Q) : list Q := map (fun x => 1 / (1 + x)) r.

Definition external_call (fn : string) (args : list value) (kwargs : list (string * value))
    : result value :=
  if String.eqb fn "get_model" then
    match args with
    | [VStr name; VStr _] => Ok (VObj name kwargs)
    | _ => Raise (ValueError "unknown model")
    end
  else if String.eqb fn "tools.power_to_corr_ogata" then
    match args with
    | [_; _; VArr r] => Ok (VArr (falloff r))
    | _ => Raise (TypeError "power_to_corr_ogata")
    end
  else if String.eqb fn "twohalo_wrapper" then
    match nth 9 args VNone with
    | VArr r => Ok (VArr (falloff r))
    | _ => Raise (TypeError "twohalo_wrapper")
    end
  else if String.eqb fn "fort.power_gal_1h_ss" then
    match assoc "u" kwargs with
    | Some (VMat rows) => Ok (VArr (ones_like rows))
    | _ => Raise (TypeError "power_gal_1h_ss")
    end
  else if String.eqb fn "fort.corr_gal_1h_cs" || String.eqb fn "fort.corr_gal_1h" then
    match assoc "r" kwargs with
    | Some (VArr r) => Ok (VArr (falloff r))
    | _ => Raise (TypeError "corr_gal_1h")
    end
  else Raise (ExternalError fn).

Definition method_call (obj : value) (m : string) (args : list value)
    (kwargs : list (string * value)) : result value :=
  match obj, args with
  | VObj _ _, [VArr M] =>
      if String.eqb m "ns" then Ok (VArr (map (fun _ => 1 # 2) M))
      else if String.eqb m "nc" then Ok (VArr (ones_like M))
      else if String.eqb m "ntot" then Ok (VArr (map (fun _ => 3 # 2) M))
      else if String.eqb m "cm" then Ok (VArr (map (fun _ => 5) M))
      else Raise (AttributeError m)
  | VObj _ init, [] =>
      if String.eqb m "bias" then
        match assoc "nu" init with
        | Some (VArr nu) => Ok (VArr (ones_like nu))
        | _ => Raise (TypeError "bias")
        end
      else Raise (AttributeError m)
  | VObj _ _, [VArr x; VArr M] =>
      if String.eqb m "u" || String.eqb m "rho" || String.eqb m "lam"
      then Ok (VMat (map (fun _ => ones_like M) x))
      else Raise (AttributeError m)
  | _, _ => Raise (AttributeError m)
  end.

(** The occupation model of the worked configuration supports masses
    from [10 ** 17.98] whatever its [M_min], so that a grid of step 0.01
    has two points and every evaluation can be followed by hand. *)
Definition object_attribute (obj : value) (a : string) : result value :=
  match obj with
  | VObj _ init =>
      if String.eqb a "mmin" then Ok (VNum (1798 # 100))
      else if String.eqb a "sharp_cut" then Ok (default (VBool true) (assoc "sharp" init))
      else if String.eqb a "_central" then Ok (VBool false)
      else if String.eqb a "has_lam" then Ok (VBool true)
      else Raise (AttributeError a)
  | _ => Raise (AttributeError a)
  end.

(** A minimiser that probes two points and stops without converging. *)
Definition stalling_minimizer (x0 tol : Q) (method : string) (maxiter : nat) : minimizer :=
  Evaluate x0 (fun y0 =>
  Evaluate (x0 + 1) (fun y1 =>
  Finished {| res_x := [if Qle_bool y0 y1 then x0 else x0 + 1];
              res_success := false;
              res_nit := maxiter |})).

Definition lib : Lib := {|
  np_log := fun x => x - 1;
  np_log10 := fun x => x - 1;
  np_exp := fun x => x + 1;
  pow10 := fun x => x + 1;
  simps := trapz_row;
  spline := fun x y k =>
    if Nat.ltb k (length x) && Nat.eqb (length x) (length y)
    then Ok (interp x y)
    else Raise (ValueError "the spline needs more than k points");
  minimize := stalling_minimizer;
  call := external_call;
  instantiate := fun c kwargs =>
    match c with
    | VClass name => Ok (VObj name kwargs)
    | _ => Raise (TypeError "object is not callable")
    end;
  call_method := method_call;
  attribute := object_attribute;
  issubclass_ := fun v _ => match v with VClass _ => true | _ => false end;
  str := fun v => match v with VStr s => s | VNone => "None" | _ => "<object>" end;
  type_of := fun v =>
    VClass (match v with
            | VStr _ => "str" | VNone => "NoneType" | VNum _ => "float"
            | VBool _ => "bool" | VDict _ => "dict" | _ => "object"
            end)
|}.


Local Open Scope prog_scope.

Definition accept (val : value) : result value := Ok val.

(** The inherited class: a few parameters and quantities on the grid. *)
Definition base_dict : list (string * member) :=
  [ ("dlog10m", parameter accept);
    ("z", parameter accept);
    ("growth_model", parameter accept);
    ("_hunit", class_attr (VNum 1));
    ("_growth", class_attr VNone);
    ("k", cached_property [] (Ret (VArr [1 # 10; 1; 10])));
    ("delta_c", cached_property [] (num (1686 # 1000)));
    ("delta_halo", cached_property [] (num 200));
    ("n", cached_property [] (num (96 # 100)));
    ("mean_density0", cached_property [] (num 1));
    ("mean_density", cached_property ["z"] (_ ← self "z"; num 1));
    ("power", cached_property ["k"; "z"]
       (k ← self "k"; lift (np_map (fun x => 1 / (1 + x)) k)));
    ("nonlinear_power", cached_property ["k"; "z"]
       (k ← self "k"; lift (np_map (fun x => 2 / (1 + x)) k)));
    ("dndm", cached_property ["M"; "z"]
       (m ← self "M"; lift (np_map (fun x => 1 / (x * x)) m)));
    ("nu", cached_property ["M"; "z"]
       (m ← self "M"; lift (np_map (fun x => x / 10) m))) ].

Definition MassFunction (n : string) : option member := assoc n base_dict.

Definition inherited_depends (l p : string) : bool :=
  match assoc l
          [ ("mean_density", ["z"]); ("power", ["z"]); ("nonlinear_power", ["z"]);
            ("dndm", ["z"; "dlog10m"; "hod_model"; "hod_params"]);
            ("nu", ["z"; "dlog10m"; "hod_model"; "hod_params"]) ] with
  | Some ps => existsb (String.eqb p) ps
  | None => false
  end.

(** A numbering along the reads of the bodies. *)
Definition rank (n : string) : nat :=
  default O (assoc n
    [ ("hod", 1); ("r", 1); ("k", 1); ("delta_c", 1); ("delta_halo", 1);
      ("n", 1); ("mean_density0", 1); ("mean_density", 1);
      ("M", 2); ("power", 2); ("nonlinear_power", 2);
      ("dndm", 3); ("nu", 3); ("n_sat", 3); ("n_cen", 3); ("n_tot", 3);
      ("matter_power", 3);
      ("bias", 4); ("cm", 4); ("n_gal", 4); ("mean_gal_den", 4); ("dm_corr", 4);
      ("concentration", 5); ("profile", 5); ("bias_effective", 5);
      ("mass_effective", 5); ("satellite_fraction", 5);
      ("central_fraction", 6); ("_power_gg_1h_ss", 6); ("_power_mm_1h", 6);
      ("_corr_mm_1h", 7); ("_corr_gg_1h_ss", 7); ("_corr_gg_1h_cs", 7);
      ("corr_gal_1h", 7); ("corr_gal_2h", 7);
      ("corr_gal", 8) ]%nat).

(** A new instance: [HaloModel(rmin=1, rmax=10, rnum=3,
    hod_params={"M_min": 16}, dlog10m=0.01)] with the defaults of [__init__]
    for the other arguments. *)
Definition new_instance : inst := {|
  params := list_to_map
    [ ("hod_params", VDict [("M_min", VNum 16)]);
      ("hod_model", VStr "Zehavi05");
      ("halo_profile", VStr "NFW");
      ("cm_relation", VStr "Duffy");
      ("bias_model", VStr "Tinker10");
      ("rmin", VNum 1); ("rmax", VNum 10); ("rnum", VNum 3);
      ("nonlinear", VBool true);
      ("halo_exclusion", VStr "None");
      ("scale_dependent_bias", VBool true);
      ("bias_params", VDict []);
      ("cm_params", VDict []);
      ("ng", VNone);
      ("dlog10m", VNum (1 # 100)); ("z", VNum 0);
      ("growth_model", VStr "GrowthFactor") ];
  cache := ∅;
  attrs := {[ "nthreads_2halo" := VNum 0 ]}
|}.

End Demo.

(** ** The worked configuration has no cycle *)

Lemma assoc_Forall {A} (P : string -> A -> Prop) (l : list (string * A)) :
  Forall (fun kv => P kv.1 kv.2) l ->
  forall n a, assoc n l = Some a -> P n a.
Proof.
  induction 1 as [|[k b] l' Hk _ IH]; intros n a; simpl; [discriminate|].
  destruct (String.eqb n k) eqn:E.
  - apply String.eqb_eq in E. intros [= <-]. subst. exact Hk.
  - apply IH.
Qed.

Ltac head_of p :=
  lazymatch p with
  | ?f _ => head_of f
  | _ => p
  end.

Ltac rank_lt := apply Nat.ltb_lt; vm_compute; reflexivity.

Ltac reads_step :=
  lazymatch goal with
  | |- reads_below _ _ (pbind _ _) => apply reads_below_bind; [|intros ?]
  | |- reads_below _ _ (lift _) => apply reads_below_lift
  | |- reads_below _ _ (self _) => apply reads_below_self; rank_lt
  | |- reads_below _ _ (Ret _) => exact I
  | |- reads_below _ _ (Throw _) => exact I
  | |- reads_below _ _ (GetAttr _ _) => split; [rank_lt | intros ?]
  | |- reads_below _ _ (if ?b then _ else _) => destruct b
  | |- reads_below _ _ (match ?v with _ => _ end) => destruct v
  | |- reads_below _ _ ?p => let h := head_of p in unfold h
  end.

Ltac reads := repeat reads_step.

Definition member_reads_below (rank : string -> nat) (n : string) (m : member) : Prop :=
  match m with
  | cached_property _ body => reads_below rank (rank n) body
  | _ => True
  end.

Lemma demo_class_reads g :
  Forall (fun kv => member_reads_below Demo.rank kv.1 kv.2)
         (HaloModel.class_dict Demo.lib g).
Proof.
  unfold HaloModel.class_dict.
  repeat (apply Forall_cons; split;
            [cbv beta iota delta [member_reads_below fst snd]|]);
    try apply Forall_nil; try exact I.
  all: reads.
Qed.

Lemma demo_base_reads :
  Forall (fun kv => member_reads_below Demo.rank kv.1 kv.2) Demo.base_dict.
Proof.
  unfold Demo.base_dict.
  repeat (apply Forall_cons; split;
            [cbv beta iota delta [member_reads_below fst snd]|]);
    try apply Forall_nil; try exact I.
  all: reads.
Qed.

Lemma demo_acyclic g : acyclic Demo.lib g Demo.MassFunction Demo.rank.
Proof.
  intros n ps body. unfold lookup_member.
  destruct (assoc n (HaloModel.class_dict Demo.lib g)) as [m|] eqn:E.
  - intros [= ->].
    apply (assoc_Forall (member_reads_below Demo.rank) _ (demo_class_reads g) n _ E).
  - intros H.
    apply (assoc_Forall (member_reads_below Demo.rank) _ demo_base_reads n _ H).
Qed.

(** * The halo-exclusion parameter *)

(** What the setter accepts and what it stores. *)
Lemma halo_exclusion_Ok (lib : Lib) v w :
  HaloModel.halo_exclusion lib v = Ok w <->
  (v = VNone /\ w = VStr "None") \/
  (exists s, v = VStr s /\ In s HaloModel.available /\ w = VStr s).
Proof.
  unfold HaloModel.halo_exclusion, HaloModel.available.
  destruct v as [|b|x|s|xs|rows|items|cls|cls init]; simpl.
  all: try (split; [discriminate | intros [[? _]|(s' & ? & _)]; discriminate]).
  - split; [intros [= <-]; auto |].
    intros [[_ ->]|(s' & ? & _)]; [reflexivity | discriminate].
  - destruct (String.eqb s "None") eqn:E1; simpl.
    { apply String.eqb_eq in E1. subst. split.
      - intros [= <-]. right. exists "None". simpl. tauto.
      - intros [[? _]|(s' & [= <-] & _ & ->)]; [discriminate | reflexivity]. }
    destruct (String.eqb s "sphere") eqn:E2; simpl.
    { apply String.eqb_eq in E2. subst. split.
      - intros [= <-]. right. exists "sphere". simpl. tauto.
      - intros [[? _]|(s' & [= <-] & _ & ->)]; [discriminate | reflexivity]. }
    destruct (String.eqb s "ellipsoid") eqn:E3; simpl.
    { apply String.eqb_eq in E3. subst. split.
      - intros [= <-]. right. exists "ellipsoid". simpl. tauto.
      - intros [[? _]|(s' & [= <-] & _ & ->)]; [discriminate | reflexivity]. }
    destruct (String.eqb s "ng_matched") eqn:E4; simpl.
    { apply String.eqb_eq in E4. subst. split.
      - intros [= <-]. right. exists "ng_matched". simpl. tauto.
      - intros [[? _]|(s' & [= <-] & _ & ->)]; [discriminate | reflexivity]. }
    destruct (String.eqb s "schneider") eqn:E5; simpl.
    { apply String.eqb_eq in E5. subst. split.
      - intros [= <-]. right. exists "schneider". simpl. tauto.
      - intros [[? _]|(s' & [= <-] & _ & ->)]; [discriminate | reflexivity]. }
    split; [discriminate|].
    intros [[? _]|(s' & [= <-] & Hin & _)]; [discriminate|].
    apply String.eqb_neq in E1, E2, E3, E4, E5.
    simpl in Hin. intuition congruence.
Qed.

Lemma value_eqb_VStr old s : value_eqb old (VStr s) = true -> old = VStr s.
Proof.
  destruct old; simpl; try discriminate.
  intros H. apply String.eqb_eq in H. congruence.
Qed.

Section HaloExclusion.

Variable lib : Lib.
Variable g : globals.
Variable MassFunction : string -> option member.
Variable inherited_depends : string -> string -> bool.

Local Abbreviation lookup_member := (lookup_member lib g MassFunction).
Local Abbreviation exec := (exec lib g MassFunction).
Local Abbreviation get := (get lib g MassFunction).
Local Abbreviation leaf_depends := (leaf_depends lib g MassFunction inherited_depends).
Local Abbreviation depends := (depends lib g MassFunction inherited_depends).
Local Abbreviation setattr := (setattr lib g MassFunction inherited_depends).

Hypothesis Hinherited : forall l, inherited_depends l "halo_exclusion" = false.

Lemma leaf_independent l :
  String.eqb l "halo_exclusion" = false -> leaf_depends l "halo_exclusion" = false.
Proof.
  intros E. unfold leaf_depends.
  destruct (assoc l (HaloModel.class_dict lib g)) as [[ps body|validate|v]|]; auto.
  destruct (MassFunction l) as [[ps body|validate|v]|]; auto.
Qed.

Lemma independent n :
  forallb (fun l => negb (String.eqb l "halo_exclusion"))
          (leaves lib g (length (HaloModel.class_dict lib g)) n) = true ->
  depends n "halo_exclusion" = false.
Proof.
  unfold depends.
  induction (leaves lib g (length (HaloModel.class_dict lib g)) n) as [|l ls IH];
    simpl; [reflexivity|].
  intros H. apply andb_true_iff in H as [Hl Hls].
  rewrite leaf_independent, IH; auto.
  apply negb_true_iff. exact Hl.
Qed.

Lemma dependent n :
  existsb (String.eqb "halo_exclusion")
          (leaves lib g (length (HaloModel.class_dict lib g)) n) = true ->
  depends n "halo_exclusion" = true.
Proof.
  unfold depends. intros H. apply existsb_exists in H as (l & Hl & E).
  apply String.eqb_eq in E. subst l.
  apply existsb_exists. exists "halo_exclusion". split; [exact Hl|].
  reflexivity.
Qed.

(** The first read of a property that is not cached: the body runs and
    its value is stored. *)
Definition recompute (fuel : nat) (n : string) (body : prog value) (st : inst)
    : option (result value * inst) :=
  match exec fuel body st with
  | None => None
  | Some (Raise e, st') => Some (Raise e, st')
  | Some (Ok v, st') => Some (Ok v, store n v st')
  end.

Lemma get_miss fuel n ps body st :
  lookup_member n = Some (cached_property ps body) ->
  cache st !! n = None ->
  get (S fuel) n st = recompute fuel n body st.
Proof.
  intros Hm Hc. unfold get, self, recompute. rewrite exec_GetAttr, Hm, Hc.
  destruct (exec fuel body st) as [[[v|e] st']|]; auto.
Qed.

(** C3.  Assigning a new, accepted label to [halo_exclusion] stores it and
    leaves the cached values of [corr_gal_1h], [bias], [concentration] and
    [profile] as they were, present or absent; it drops the cached values
    of [corr_gal_2h] and [corr_gal], so that the next read of either runs
    its body again on the new state. *)
Theorem halo_exclusion_invalidates_two_halo st v w :
  HaloModel.halo_exclusion lib v = Ok w ->
  params st !! "halo_exclusion" <> Some w ->
  let st' := (setattr "halo_exclusion" v st).2 in
  (setattr "halo_exclusion" v st).1 = Ok tt /\
  params st' !! "halo_exclusion" = Some w /\
  cache st' !! "corr_gal_1h" = cache st !! "corr_gal_1h" /\
  cache st' !! "bias" = cache st !! "bias" /\
  cache st' !! "concentration" = cache st !! "concentration" /\
  cache st' !! "profile" = cache st !! "profile" /\
  cache st' !! "corr_gal_2h" = None /\
  cache st' !! "corr_gal" = None /\
  (forall fuel,
     get (S fuel) "corr_gal_2h" st'
     = recompute fuel "corr_gal_2h" (HaloModel.corr_gal_2h lib) st') /\
  (forall fuel,
     get (S fuel) "corr_gal" st'
     = recompute fuel "corr_gal" HaloModel.corr_gal st').
Proof.
  intros Hv Hnew.
  assert (E : setattr "halo_exclusion" v st
              = (Ok tt, {| params := <["halo_exclusion":=w]> (params st);
                           cache := invalidate lib g MassFunction inherited_depends
                                      "halo_exclusion" (cache st);
                           attrs := attrs st |})).
  { unfold setattr.
    assert (Hm : lookup_member "halo_exclusion"
                 = Some (parameter (HaloModel.halo_exclusion lib))) by reflexivity.
    rewrite Hm, Hv.
    destruct (params st !! "halo_exclusion") as [old|] eqn:Hold; [|reflexivity].
    destruct (value_eqb old w) eqn:Heq; [|reflexivity].
    exfalso. apply Hnew. f_equal.
    apply halo_exclusion_Ok in Hv as [[_ ->]|(s & _ & _ & ->)];
      apply value_eqb_VStr; exact Heq. }
  rewrite E. simpl.
  assert (H2h : cache (with_cache (invalidate lib g MassFunction inherited_depends
                  "halo_exclusion" (cache st)) st) !! "corr_gal_2h" = None).
  { simpl. rewrite lookup_invalidate, dependent; [reflexivity|].
    vm_compute. reflexivity. }
  assert (Hcg : cache (with_cache (invalidate lib g MassFunction inherited_depends
                  "halo_exclusion" (cache st)) st) !! "corr_gal" = None).
  { simpl. rewrite lookup_invalidate, dependent; [reflexivity|].
    vm_compute. reflexivity. }
  simpl in H2h, Hcg.
  repeat split.
  - apply lookup_insert_eq.
  - rewrite lookup_invalidate, independent; [reflexivity|]. vm_compute. reflexivity.
  - rewrite lookup_invalidate, independent; [reflexivity|]. vm_compute. reflexivity.
  - rewrite lookup_invalidate, independent; [reflexivity|]. vm_compute. reflexivity.
  - rewrite lookup_invalidate, independent; [reflexivity|]. vm_compute. reflexivity.
  - exact H2h.
  - exact Hcg.
  - intros fuel. eapply get_miss; [reflexivity | exact H2h].
  - intros fuel. eapply get_miss; [reflexivity | exact Hcg].
Qed.

End HaloExclusion.

Section Validation.

Variable lib : Lib.
Variable g : globals.
Variable MassFunction : string -> option member.
Variable inherited_depends : string -> string -> bool.

Local Abbreviation lookup_member := (lookup_member lib g MassFunction).
Local Abbreviation setattr := (setattr lib g MassFunction inherited_depends).

(** C4, as the code has it.  The setter of [halo_exclusion] turns [None]
    into the string "None"; it accepts exactly the strings "None",
    "sphere", "ellipsoid", "ng_matched" and "schneider" and stores them
    unchanged; every other value is rejected by the assignment itself with
    a [ValueError] that names the value and its type, and the instance
    stays as it was. *)
Theorem halo_exclusion_assignment st v :
  match HaloModel.halo_exclusion lib v with
  | Ok w =>
      ((v = VNone /\ w = VStr "None") \/
       (exists s, v = VStr s /\
                  In s ["None"; "sphere"; "ellipsoid"; "ng_matched"; "schneider"] /\
                  w = VStr s)) /\
      (setattr "halo_exclusion" v st).1 = Ok tt /\
      params (setattr "halo_exclusion" v st).2 !! "halo_exclusion" = Some w
  | Raise e =>
      v <> VNone /\
      (forall s, In s ["None"; "sphere"; "ellipsoid"; "ng_matched"; "schneider"] ->
                 v <> VStr s) /\
      e = ValueError ("halo_exclusion not acceptable: " +:+ str lib v
                        +:+ " " +:+ str lib (type_of lib v)) /\
      setattr "halo_exclusion" v st = (Raise e, st)
  end.
Proof.
  assert (Hm : lookup_member "halo_exclusion"
               = Some (parameter (HaloModel.halo_exclusion lib))) by reflexivity.
  destruct (HaloModel.halo_exclusion lib v) as [w|e] eqn:Hv.
  - pose proof (proj1 (halo_exclusion_Ok lib v w) Hv) as Hw.
    split; [exact Hw|].
    unfold setattr. rewrite Hm, Hv.
    destruct (params st !! "halo_exclusion") as [old|] eqn:Hold; simpl.
    + destruct (value_eqb old w) eqn:Heq; simpl.
      * split; [reflexivity|]. rewrite Hold. f_equal.
        destruct Hw as [[_ ->]|(s & _ & _ & ->)]; apply value_eqb_VStr; exact Heq.
      * split; [reflexivity | apply lookup_insert_eq].
    + split; [reflexivity | apply lookup_insert_eq].
  - assert (Hnot : forall w, HaloModel.halo_exclusion lib v <> Ok w)
      by (intros w; rewrite Hv; discriminate).
    split; [|split; [|split]].
    + intros ->. apply (Hnot (VStr "None")). reflexivity.
    + intros s Hs ->. apply (Hnot (VStr s)).
      apply halo_exclusion_Ok. right. exists s. auto.
    + revert Hv. unfold HaloModel.halo_exclusion.
      destruct v; simpl; try discriminate; try (intros [= <-]; reflexivity).
      destruct (negb _); [intros [= <-]; reflexivity | discriminate].
    + unfold setattr. rewrite Hm, Hv. reflexivity.
Qed.

End Validation.

(** The labels as the specification lists them. *)
Definition spec_labels : list string :=
  ["none"; "sphere"; "ellipsoid"; "density-matched"; "schneider"].

(** C4 as stated fails: the label "density-matched" of the specification
    is rejected by the setter (the code spells it "ng_matched"). *)
Lemma halo_exclusion_spec_labels_counterexample :
  ~ (forall s, In s spec_labels ->
               is_ok (HaloModel.halo_exclusion Demo.lib (VStr s)) = true).
Proof.
  intros H. specialize (H "density-matched").
  assert (Hin : In "density-matched" spec_labels) by (simpl; tauto).
  specialize (H Hin). vm_compute in H. discriminate.
Qed.

Section ReferenceKernel.

Variable lib : Lib.
Variable g : globals.
Variable MassFunction : string -> option member.

Local Abbreviation lookup_member := (lookup_member lib g MassFunction).
Local Abbreviation exec := (exec lib g MassFunction).
Local Abbreviation get := (get lib g MassFunction).

(** C9.  With the accelerated kernels switched off and a profile that has
    an exact self-convolution, the body of [corr_gal_1h] never returns a
    value; when the statements before line 467 succeed it raises
    [NameError] for the name [h]; and a read of the property that is not
    served from the cache never returns a value either. *)
Theorem corr_gal_1h_reference_kernel_raises fuel st s1 :
  USEFORT g = false ->
  exec fuel (HaloModel.has_lam lib) st = Some (Ok true, s1) ->
  (forall r0 st',
     exec fuel (HaloModel.corr_gal_1h lib g) st = Some (r0, st') ->
     exists e, r0 = Raise e) /\
  (forall rho s2 lam s3 x s4,
     exec fuel (HaloModel.profile_of lib "rho" "r") s1 = Some (Ok rho, s2) ->
     exec fuel (HaloModel.profile_of lib "lam" "r") s2 = Some (Ok lam, s3) ->
     exec fuel (HaloModel.corr_gal_1h_lines_461_466 lib lam) s3 = Some (Ok x, s4) ->
     exec fuel (HaloModel.corr_gal_1h lib g) st = Some (Raise (NameError "h"), s4)) /\
  (cache st !! "corr_gal_1h" = None ->
   forall r0 st',
     get (S fuel) "corr_gal_1h" st = Some (r0, st') ->
     exists e, r0 = Raise e).
Proof.
  intros Hoff Hlam.
  assert (Hbody : forall r0 st',
    exec fuel (HaloModel.corr_gal_1h lib g) st = Some (r0, st') ->
    exists e, r0 = Raise e).
  { intros r0 st'. unfold HaloModel.corr_gal_1h.
    rewrite exec_bind, Hlam, exec_bind.
    destruct (exec fuel (HaloModel.profile_of lib "rho" "r") s1)
      as [[[rho|e] s2]|]; [|intros [= <- _]; eauto|discriminate].
    rewrite exec_bind.
    destruct (exec fuel (HaloModel.profile_of lib "lam" "r") s2)
      as [[[lam|e] s3]|]; [|intros [= <- _]; eauto|discriminate].
    rewrite exec_bind, Hoff, exec_bind.
    destruct (exec fuel (HaloModel.corr_gal_1h_lines_461_466 lib lam) s3)
      as [[[x|e] s4]|]; [|intros [= <- _]; eauto|discriminate].
    rewrite exec_Throw. intros [= <- _]. eauto. }
  split; [exact Hbody|]. split.
  - intros rho s2 lam s3 x s4 Hrho Hl Hpre. unfold HaloModel.corr_gal_1h.
    rewrite exec_bind, Hlam, exec_bind, Hrho, exec_bind, Hl.
    rewrite exec_bind, Hoff, exec_bind, Hpre, exec_Throw. reflexivity.
  - intros Hc r0 st'.
    assert (Hm : exists ps, lookup_member "corr_gal_1h"
                   = Some (cached_property ps (HaloModel.corr_gal_1h lib g)))
      by (eexists; reflexivity).
    destruct Hm as [ps Hm].
    rewrite (get_miss lib g MassFunction fuel _ _ _ _ Hm Hc). unfold recompute.
    destruct (exec fuel (HaloModel.corr_gal_1h lib g) st) as [[[v|e] s]|] eqn:E;
      [|intros [= <- _]; eauto|discriminate].
    destruct (Hbody _ _ eq_refl) as [e He]. discriminate.
Qed.

End ReferenceKernel.

(** * The theorems on the worked configuration *)

(** The new instance after [corr_gal] and [central_fraction] were read. *)
Definition warm_instance : inst :=
  match exec Demo.lib module_globals Demo.MassFunction 9
          (pbind (self "corr_gal") (fun _ => self "central_fraction"))
          Demo.new_instance with
  | Some (_, st) => st
  | None => Demo.new_instance
  end.

Lemma warm_instance_run :
  exists r0,
    exec Demo.lib module_globals Demo.MassFunction 9
      (pbind (self "corr_gal") (fun _ => self "central_fraction"))
      Demo.new_instance = Some (r0, warm_instance).
Proof.
  unfold warm_instance.
  destruct (exec Demo.lib module_globals Demo.MassFunction 9
              (pbind (self "corr_gal") (fun _ => self "central_fraction"))
              Demo.new_instance) as [[r0 st]|] eqn:E.
  - exists r0. reflexivity.
  - exfalso. vm_compute in E. discriminate.
Qed.

Lemma warm_instance_reachable :
  reachable Demo.lib module_globals Demo.MassFunction Demo.inherited_depends
    warm_instance.
Proof.
  destruct warm_instance_run as [r0 H].
  eapply reachable_eval with (st := Demo.new_instance);
    [apply reachable_new; reflexivity|].
  eapply exec_eval. exact H.
Qed.

Example warm_instance_caches :
  is_Some (cache warm_instance !! "corr_gal_1h") /\
  is_Some (cache warm_instance !! "corr_gal_2h") /\
  is_Some (cache warm_instance !! "corr_gal") /\
  exists x, cache warm_instance !! "central_fraction" = Some (VNum x) /\ x == 2 # 3.
Proof.
  vm_compute. repeat split; eauto.
Qed.

Lemma demo_inherited_independent :
  forall l, Demo.inherited_depends l "halo_exclusion" = false.
Proof.
  intros l. unfold Demo.inherited_depends. simpl.
  repeat match goal with
         | |- context [String.eqb l ?s] => destruct (String.eqb l s)
         end; reflexivity.
Qed.

Lemma corr_gal_is_sum_of_terms_witness :
  acyclic Demo.lib module_globals Demo.MassFunction Demo.rank /\
  reachable Demo.lib module_globals Demo.MassFunction Demo.inherited_depends
    Demo.new_instance /\
  (Demo.rank "corr_gal" < 9)%nat /\
  exists r0 st1 st2,
    get Demo.lib module_globals Demo.MassFunction 9 "corr_gal" Demo.new_instance
      = Some (r0, st1) /\
    exec Demo.lib module_globals Demo.MassFunction 9
      (self "corr_gal_1h" [+] self "corr_gal_2h")%prog Demo.new_instance
      = Some (r0, st2) /\
    forall v, r0 = Ok v ->
      exists a b,
        cache st1 !! "corr_gal_1h" = Some a /\
        cache st1 !! "corr_gal_2h" = Some b /\
        np_add a b = Ok v.
Proof.
  assert (H1 : acyclic Demo.lib module_globals Demo.MassFunction Demo.rank)
    by apply demo_acyclic.
  assert (H2 : reachable Demo.lib module_globals Demo.MassFunction
                 Demo.inherited_depends Demo.new_instance)
    by (apply reachable_new; reflexivity).
  assert (H3 : (Demo.rank "corr_gal" < 9)%nat) by (vm_compute; lia).
  split; [exact H1|]. split; [exact H2|]. split; [exact H3|].
  exact (corr_gal_is_sum_of_terms Demo.lib module_globals Demo.MassFunction
           Demo.inherited_depends Demo.rank Demo.new_instance 9 H1 H2 H3).
Defined.

Lemma central_fraction_is_complement_witness :
  acyclic Demo.lib module_globals Demo.MassFunction Demo.rank /\
  reachable Demo.lib module_globals Demo.MassFunction Demo.inherited_depends
    warm_instance /\
  (Demo.rank "central_fraction" < 9)%nat /\
  exists r0 st1,
    get Demo.lib module_globals Demo.MassFunction 9 "central_fraction" warm_instance
      = Some (r0, st1) /\
    forall v, r0 = Ok v ->
      exists s,
        cache st1 !! "satellite_fraction" = Some s /\
        np_sub (VNum 1) s = Ok v.
Proof.
  assert (H1 : acyclic Demo.lib module_globals Demo.MassFunction Demo.rank)
    by apply demo_acyclic.
  assert (H2 : reachable Demo.lib module_globals Demo.MassFunction
                 Demo.inherited_depends warm_instance)
    by apply warm_instance_reachable.
  assert (H3 : (Demo.rank "central_fraction" < 9)%nat) by (vm_compute; lia).
  split; [exact H1|]. split; [exact H2|]. split; [exact H3|].
  destruct (central_fraction_is_complement Demo.lib module_globals Demo.MassFunction
              Demo.inherited_depends Demo.rank warm_instance 9 H1 H2 H3)
    as [(r0 & st1 & st2 & Hget & _ & Hval) _].
  exists r0, st1. split; [exact Hget|].
  intros v Hv. destruct (Hval v Hv) as (s & Hs & Hsub & _). eauto.
Defined.

Lemma halo_exclusion_invalidates_two_halo_witness :
  (forall l, Demo.inherited_depends l "halo_exclusion" = false) /\
  HaloModel.halo_exclusion Demo.lib (VStr "sphere") = Ok (VStr "sphere") /\
  params warm_instance !! "halo_exclusion" <> Some (VStr "sphere") /\
  let st' := (setattr Demo.lib module_globals Demo.MassFunction Demo.inherited_depends
                "halo_exclusion" (VStr "sphere") warm_instance).2 in
  cache st' !! "corr_gal_1h" = cache warm_instance !! "corr_gal_1h" /\
  cache st' !! "corr_gal_2h" = None /\
  cache st' !! "corr_gal" = None.
Proof.
  assert (H1 : HaloModel.halo_exclusion Demo.lib (VStr "sphere") = Ok (VStr "sphere"))
    by reflexivity.
  assert (H2 : params warm_instance !! "halo_exclusion" <> Some (VStr "sphere"))
    by (vm_compute; discriminate).
  split; [exact demo_inherited_independent|]. split; [exact H1|]. split; [exact H2|].
  destruct (halo_exclusion_invalidates_two_halo Demo.lib module_globals
              Demo.MassFunction Demo.inherited_depends demo_inherited_independent
              warm_instance (VStr "sphere") (VStr "sphere") H1 H2)
    as (_ & _ & K1 & _ & _ & _ & K2 & K3 & _).
  split; [exact K1|]. split; [exact K2 | exact K3].
Defined.

Lemma corr_gal_1h_reference_kernel_raises_witness :
  exists s1,
    exec Demo.lib {| USEFORT := false |} Demo.MassFunction 9
      (HaloModel.has_lam Demo.lib) Demo.new_instance = Some (Ok true, s1) /\
    forall r0 st',
      exec Demo.lib {| USEFORT := false |} Demo.MassFunction 9
        (HaloModel.corr_gal_1h Demo.lib {| USEFORT := false |}) Demo.new_instance
        = Some (r0, st') ->
      exists e, r0 = Raise e.
Proof.
  assert (H : exists s1,
    exec Demo.lib {| USEFORT := false |} Demo.MassFunction 9
      (HaloModel.has_lam Demo.lib) Demo.new_instance = Some (Ok true, s1))
    by (eexists; vm_compute; reflexivity).
  destruct H as [s1 H]. exists s1. split; [exact H|].
  exact (proj1 (corr_gal_1h_reference_kernel_raises Demo.lib {| USEFORT := false |}
                  Demo.MassFunction 9 Demo.new_instance s1 eq_refl H)).
Defined.

Example corr_gal_1h_reference_kernel_demo :
  option_map fst (get Demo.lib {| USEFORT := false |} Demo.MassFunction 9
                    "corr_gal_1h" Demo.new_instance)
  = Some (Raise (NameError "h")).
Proof. vm_compute. reflexivity. Qed.

(** * The minimum-mass solver: the numeric branches *)

Lemma Qltb_lt a b : Qltb a b = true <-> a < b.
Proof.
  unfold Qltb. rewrite negb_true_iff. split.
  - intros H. apply Qnot_le_lt. intros Hle.
    apply Qle_bool_iff in Hle. congruence.
  - intros H. destruct (Qle_bool b a) eqn:E; [|reflexivity].
    apply Qle_bool_iff in E. apply Qlt_not_le in H. contradiction.
Qed.

Lemma Qltb_ge a b : Qltb a b = false <-> b <= a.
Proof.
  unfold Qltb. rewrite negb_false_iff. apply Qle_bool_iff.
Qed.

Lemma Qhalf_nonneg t : 0 <= t -> 0 <= t / 2.
Proof.
  intros H. unfold Qdiv. apply Qmult_le_0_compat; [exact H|].
  unfold Qle. simpl. lia.
Qed.

Lemma cumtrapz_from_length dx : forall y acc,
  length (cumtrapz_from acc y dx) = (length y - 1)%nat.
Proof.
  induction y as [|a y IH]; intros acc; [reflexivity|].
  destruct y as [|b y']; [reflexivity|].
  change (cumtrapz_from acc (a :: b :: y') dx)
    with ((acc + dx * (a + b) / 2) :: cumtrapz_from (acc + dx * (a + b) / 2) (b :: y') dx).
  cbn [length]. rewrite IH. cbn [length]. lia.
Qed.

(** With a non-negative integrand and step, the running integral grows:
    every entry lies between the start and the last entry. *)
Lemma cumtrapz_from_bounds dx :
  0 <= dx ->
  forall y acc, Forall (fun v => 0 <= v) y ->
  forall z, In z (cumtrapz_from acc y dx) ->
    acc <= z /\
    exists top, last (cumtrapz_from acc y dx) = Some top /\ z <= top.
Proof.
  intros Hdx. induction y as [|a y IH]; intros acc Hy z Hz; [destruct Hz|].
  destruct y as [|b y']; [destruct Hz|].
  change (cumtrapz_from acc (a :: b :: y') dx)
    with ((acc + dx * (a + b) / 2) :: cumtrapz_from (acc + dx * (a + b) / 2) (b :: y') dx)
    in *.
  inversion Hy as [|? ? Ha Hy']; subst. inversion Hy' as [|? ? Hb _]; subst.
  cbv beta in Ha, Hb.
  assert (Hstep : acc <= acc + dx * (a + b) / 2).
  { assert (0 <= dx * (a + b) / 2)
      by (apply Qhalf_nonneg, Qmult_le_0_compat; lra).
    lra. }
  destruct (cumtrapz_from (acc + dx * (a + b) / 2) (b :: y') dx) as [|w rest] eqn:E.
  - destruct Hz as [<-|[]]. split; [exact Hstep|].
    exists (acc + dx * (a + b) / 2). split; [reflexivity | lra].
  - rewrite last_cons.
    destruct Hz as [<-|Hz].
    + destruct (IH (acc + dx * (a + b) / 2) Hy' w) as (Hw & top & Htop & Hle).
      { rewrite E. left. reflexivity. }
      split; [exact Hstep|]. rewrite E in Htop. rewrite Htop.
      exists top. split; [reflexivity | lra].
    + destruct (IH (acc + dx * (a + b) / 2) Hy' z) as (Hw & top & Htop & Hle).
      { rewrite E. exact Hz. }
      split; [lra|]. rewrite E in Htop. rewrite Htop.
      exists top. split; [reflexivity | exact Hle].
Qed.

Lemma find_index_Some {A} (cond : A -> bool) (l : list A) ind :
  find_index cond l = Some ind <->
  (exists x, l !! ind = Some x /\ cond x = true) /\
  (forall j x, (j < ind)%nat -> l !! j = Some x -> cond x = false).
Proof.
  revert ind. induction l as [|a l IH]; intros ind; simpl.
  - split; [discriminate|]. intros [(x & Hx & _) _]. discriminate.
  - destruct (cond a) eqn:Ha.
    + split.
      * intros [= <-]. split; [exists a; auto|]. intros j x Hj. lia.
      * intros [(x & Hx & Hc) Hmin]. destruct ind as [|ind]; [reflexivity|].
        specialize (Hmin O a ltac:(lia) eq_refl). congruence.
    + destruct (find_index cond l) as [i|] eqn:E; simpl.
      * split.
        -- intros [= <-]. destruct (proj1 (IH i) eq_refl) as [Hex Hmin].
           split; [exact Hex|]. intros [|j] x Hj Hx; simpl in Hx.
           ++ congruence.
           ++ apply (Hmin j x); [lia | exact Hx].
        -- intros [(x & Hx & Hc) Hmin]. destruct ind as [|ind].
           ++ simpl in Hx. congruence.
           ++ f_equal. symmetry.
              assert (Some i = Some ind); [|congruence].
              apply IH. split; [exists x; auto|].
              intros j y Hj Hy. apply (Hmin (S j) y); [lia | exact Hy].
      * split; [discriminate|].
        intros [(x & Hx & Hc) Hmin]. destruct ind as [|ind].
        -- simpl in Hx. congruence.
        -- exfalso. assert (None = Some ind); [|discriminate].
           apply IH. split; [exists x; auto|].
           intros j y Hj Hy. apply (Hmin (S j) y); [lia | exact Hy].
Qed.

Lemma find_index_None {A} (cond : A -> bool) (l : list A) :
  find_index cond l = None <-> forall x, In x l -> cond x = false.
Proof.
  induction l as [|a l IH]; simpl.
  - split; [intros _ x [] | reflexivity].
  - destruct (cond a) eqn:Ha.
    + split; [discriminate|]. intros H. specialize (H a (or_introl eq_refl)). congruence.
    + destruct (find_index cond l); simpl.
      * split; [discriminate|]. intros H.
        assert (Some n = None); [|discriminate].
        apply IH. intros x Hx. apply H. right. exact Hx.
      * split; [|reflexivity]. intros _ x [<-|Hx]; [exact Ha|].
        apply (proj1 IH eq_refl x Hx).
Qed.

(** [l[lo:hi]] holds the entries of [l] at the indices from [lo] up to,
    but not including, [hi]. *)
Lemma slice_lookup {A} (lo hi : nat) (l : list A) i :
  slice lo hi l !! i = if decide (i < hi - lo)%nat then l !! (lo + i)%nat else None.
Proof.
  unfold slice. destruct (decide (i < hi - lo)%nat) as [H|H].
  - rewrite lookup_take_lt by exact H. apply lookup_drop.
  - apply lookup_take_ge. lia.
Qed.

Lemma slice_length {A} (lo hi : nat) (l : list A) :
  length (slice lo hi l) = Nat.min (hi - lo) (length l - lo).
Proof. unfold slice. rewrite length_take, length_drop. reflexivity. Qed.

Section SharpCutoff.

Variable lib : Lib.

(** The feasibility test of the sharp-cutoff branch: a target above every
    entry of the cumulative integral raises, and the exception carries the
    last entry, which is the largest when the integrand and the step are
    not negative. *)
Lemma sharp_cut_infeasible M integrand ng dx :
  grid_step (np_log lib) (VArr M) = Ok dx ->
  0 <= dx ->
  Forall (fun v => 0 <= v) integrand ->
  (2 <= length integrand)%nat ->
  (forall y, In y (cumtrapz (rev integrand) dx) -> y < ng) ->
  exists top,
    sharp_cut_m_min lib M integrand ng
      = Raise (NGException "Maximum mean galaxy density exceeded: " top) /\
    In top (cumtrapz (rev integrand) dx) /\
    forall y, In y (cumtrapz (rev integrand) dx) -> y <= top.
Proof.
  intros Hdx Hpos Hy Hlen Hng. unfold sharp_cut_m_min. rewrite Hdx. simpl rbind.
  assert (Hrev : Forall (fun v => 0 <= v) (rev integrand)) by (apply Forall_rev; exact Hy).
  pose proof (cumtrapz_from_length dx (rev integrand) 0) as Hl.
  rewrite length_rev in Hl. fold (cumtrapz (rev integrand) dx) in Hl.
  destruct (cumtrapz (rev integrand) dx) as [|z zs] eqn:E; [simpl in Hl; lia|].
  destruct (cumtrapz_from_bounds dx Hpos (rev integrand) 0 Hrev z) as (_ & top & Htop & _).
  { fold (cumtrapz (rev integrand) dx). rewrite E. left. reflexivity. }
  fold (cumtrapz (rev integrand) dx) in Htop. rewrite E in Htop. rewrite Htop.
  assert (Hin : In top (z :: zs)).
  { apply last_Some in Htop as [l' Hl']. rewrite Hl'. apply in_app_iff.
    right. left. reflexivity. }
  rewrite (proj2 (Qltb_lt top ng) (Hng top Hin)).
  exists top. split; [reflexivity|]. split; [exact Hin|].
  intros y Hin'.
  destruct (cumtrapz_from_bounds dx Hpos (rev integrand) 0 Hrev y) as (_ & top' & Htop' & Hle).
  { fold (cumtrapz (rev integrand) dx). rewrite E. exact Hin'. }
  fold (cumtrapz (rev integrand) dx) in Htop'. rewrite E in Htop'.
  congruence.
Qed.

End SharpCutoff.

Section Solving.

Variable lib : Lib.
Variable g : globals.
Variable MassFunction : string -> option member.
Variable inherited_depends : string -> string -> bool.

Local Abbreviation update := (update lib g MassFunction inherited_depends).
Local Abbreviation _find_m_min := (_find_m_min lib g MassFunction inherited_depends).
Local Abbreviation solver_setup := (solver_setup lib g MassFunction).
Local Abbreviation smooth_m_min := (smooth_m_min lib g MassFunction).

(** The solver after its preparation: one of the two branches. *)
Lemma find_m_min_after_setup fuel l ng x h s h1 :
  solver_setup (update fuel) fuel l h = Some (Ok s, h1) ->
  as_num ng = Ok x ->
  _find_m_min (S fuel) l ng h =
  if sharp_cut s
  then Some (sharp_cut_m_min lib (grid s) (integrand s) x, h1)
  else smooth_m_min (update fuel) fuel s x h1.
Proof.
  intros Hs Hng. simpl. unfold find_m_min_with.
  unfold obind at 1. unfold update in Hs. rewrite Hs.
  unfold obind at 1. rewrite Hng. simpl.
  destruct (sharp_cut s); [|reflexivity].
  destruct (sharp_cut_m_min lib (grid s) (integrand s) x); reflexivity.
Qed.

(** C2.  Once the solver has prepared its working copy: with a sharp
    cutoff, a non-negative integrand on a grid of non-negative step, and a
    target [ng] above every entry of the cumulative integral, or without a
    sharp cutoff and a target above the full-range integral, [_find_m_min]
    raises [NGException] and returns no mass.  The exception carries the
    largest entry of the cumulative integral, respectively the full-range
    integral. *)
Theorem find_m_min_infeasible fuel l (ng : Q) h s h1 dx :
  solver_setup (update fuel) fuel l h = Some (Ok s, h1) ->
  grid_step (np_log lib) (VArr (grid s)) = Ok dx ->
  (if sharp_cut s
   then 0 <= dx /\
        Forall (fun v => 0 <= v) (integrand s) /\
        (2 <= length (integrand s))%nat /\
        forall y, In y (cumtrapz (rev (integrand s)) dx) -> y < ng
   else simps lib (integrand s) dx < ng) ->
  exists top,
    _find_m_min (S fuel) l (VNum ng) h
      = Some (Raise (NGException "Maximum mean galaxy density exceeded: " top), h1) /\
    if sharp_cut s
    then In top (cumtrapz (rev (integrand s)) dx) /\
         forall y, In y (cumtrapz (rev (integrand s)) dx) -> y <= top
    else top = simps lib (integrand s) dx.
Proof.
  intros Hs Hdx Hcond.
  rewrite (find_m_min_after_setup fuel l (VNum ng) ng h s h1 Hs eq_refl).
  destruct (sharp_cut s).
  - destruct Hcond as (Hpos & Hy & Hlen & Hng).
    destruct (sharp_cut_infeasible lib (grid s) (integrand s) ng dx Hdx Hpos Hy Hlen Hng)
      as (top & Htop & Hin & Hmax).
    exists top. rewrite Htop. auto.
  - exists (simps lib (integrand s) dx). split; [|reflexivity].
    unfold smooth_m_min.
    unfold obind at 1. unfold smooth_feasible. rewrite Hdx. simpl rbind.
    rewrite (proj2 (Qltb_lt _ _) Hcond). reflexivity.
Qed.


(** C5, as the code has it.  Once the solver has prepared its working copy
    of an occupation model with a sharp cutoff, and some entry of the
    cumulative integral exceeds the target while the last entry is not
    below it: [ind] is the first index whose entry exceeds [ng]; the window
    holds the entries at the indices from [ind - 4] (or 0) up to, but not
    including, [min(ind + 4, len(M))], that is up to four points before
    [ind], then [ind] and up to three points after it; and the result is
    the degree-3 spline of [log(mass)] against [log(integral)] on that
    window, evaluated at [log(ng)] and divided by [log(10)]. *)
Theorem find_m_min_sharp_cut_window fuel l (ng : Q) h s h1 dx top :
  solver_setup (update fuel) fuel l h = Some (Ok s, h1) ->
  sharp_cut s = true ->
  grid_step (np_log lib) (VArr (grid s)) = Ok dx ->
  last (cumtrapz (rev (integrand s)) dx) = Some top ->
  ng <= top ->
  (exists y, In y (cumtrapz (rev (integrand s)) dx) /\ ng < y) ->
  let integral := cumtrapz (rev (integrand s)) dx in
  exists ind v,
    integral !! ind = Some v /\ ng < v /\
    (forall j y, (j < ind)%nat -> integral !! j = Some y -> y <= ng) /\
    let lo := (ind - 4)%nat in
    let hi := Nat.min (ind + 4) (length (grid s)) in
    _find_m_min (S fuel) l (VNum ng) h
      = Some (rbind (spline lib (map (np_log lib) (slice lo hi integral))
                       (map (np_log lib) (slice lo hi (tail (rev (grid s))))) 3)
                (fun spline_int => Ok (spline_int (np_log lib ng) / np_log lib 10)),
              h1) /\
    (forall i, slice lo hi integral !! i
               = if decide (i < hi - lo)%nat then integral !! (lo + i)%nat else None) /\
    (forall i, slice lo hi (tail (rev (grid s))) !! i
               = if decide (i < hi - lo)%nat
                 then rev (grid s) !! S (lo + i)%nat else None).
Proof.
  intros Hs Hsharp Hdx Htop Hfeasible (y & Hy & Hgt) integral.
  destruct (find_index (fun x => Qltb ng x) integral) as [ind|] eqn:Hind.
  - apply find_index_Some in Hind as [(v & Hv & Hc) Hmin].
    exists ind, v. split; [exact Hv|]. split; [apply Qltb_lt; exact Hc|].
    split.
    { intros j z Hj Hz. apply Qltb_ge. eapply Hmin; eauto. }
    intros lo hi. split; [|split].
    + rewrite (find_m_min_after_setup fuel l (VNum ng) ng h s h1 Hs eq_refl), Hsharp.
      f_equal. f_equal. unfold sharp_cut_m_min. rewrite Hdx. simpl rbind.
      rewrite Htop.
      rewrite (proj2 (Qltb_ge top ng) Hfeasible).
      assert (Hfind : find_index (fun x => Qltb ng x) integral = Some ind).
      { apply find_index_Some. split; [exists v; auto | exact Hmin]. }
      unfold integral in Hfind. rewrite Hfind. unfold window. rewrite Nat.max_0_r. reflexivity.
    + intros i. apply slice_lookup.
    + intros i. rewrite slice_lookup. destruct (decide (i < hi - lo)%nat); [|reflexivity].
      destruct (rev (grid s)); reflexivity.
  - exfalso. pose proof (proj1 (find_index_None _ _) Hind y Hy) as Hn.
    apply Qltb_ge in Hn. apply Qlt_not_le in Hgt. contradiction.
Qed.

End Solving.

(** The window as the specification words it: up to four points on each
    side of the index. *)
Definition symmetric_window (ind len_M : nat) : nat * nat :=
  (Nat.max (ind - 4) 0, Nat.min (ind + 4 + 1) len_M).

(** The sharp-cutoff branch with the window of the specification in place
    of the window of the code. *)
Definition sharp_cut_m_min_as_specified (lib : Lib) (M integrand : list Q) (ng : Q)
    : result Q :=
  rbind (grid_step (np_log lib) (VArr M)) (fun dx =>
  let integral := cumtrapz (rev integrand) dx in
  match last integral with
  | None => Raise IndexError
  | Some top =>
      if Qltb top ng
      then Raise (NGException "Maximum mean galaxy density exceeded: " top)
      else
        match find_index (fun x => Qltb ng x) integral with
        | None => Raise IndexError
        | Some ind =>
            let (lo, hi) := symmetric_window ind (length M) in
            let m := slice lo hi (tail (rev M)) in
            let integral := slice lo hi integral in
            rbind (spline lib (map (np_log lib) integral) (map (np_log lib) m) 3)
                  (fun spline_int => Ok (spline_int (np_log lib ng) / np_log lib 10))
        end
  end).

Definition with_spline (f : list Q -> list Q -> nat -> result (Q -> Q)) (lib : Lib)
    : Lib := {|
  np_log := np_log lib;
  np_log10 := np_log10 lib;
  np_exp := np_exp lib;
  pow10 := pow10 lib;
  simps := simps lib;
  spline := f;
  minimize := minimize lib;
  call := call lib;
  instantiate := instantiate lib;
  call_method := call_method lib;
  attribute := attribute lib;
  issubclass_ := issubclass_ lib;
  str := str lib;
  type_of := type_of lib
|}.

(** A spline that answers with the number of points it was fitted on. *)
Definition knot_count (x y : list Q) (k : nat) : result (Q -> Q) :=
  Ok (fun _ => inject_Z (Z.of_nat (length x))).

Definition twelve_masses : list Q := map inject_Z [1; 2; 3; 4; 5; 6; 7; 8; 9; 10; 11; 12]%Z.

Definition twelve_ones : list Q := map (fun _ => 1) twelve_masses.

(** On twelve masses with a unit integrand the cumulative integral is
    [1, 2, ..., 11]; for [ng = 5.5] the first index above the target is 5,
    and the spline is fitted on the 8 points at the indices 1 to 8. *)
Example sharp_cut_window_demo :
  Forall2 Qeq (cumtrapz (rev twelve_ones) 1)
    (map inject_Z [1; 2; 3; 4; 5; 6; 7; 8; 9; 10; 11]%Z) /\
  find_index (fun x => Qltb (11 # 2) x) (cumtrapz (rev twelve_ones) 1) = Some 5%nat /\
  window 5 12 = (1, 9)%nat /\
  symmetric_window 5 12 = (1, 10)%nat /\
  (exists q,
     sharp_cut_m_min (with_spline knot_count Demo.lib) twelve_masses twelve_ones (11 # 2)
       = Ok q /\ q == 8 # 9) /\
  (exists q,
     sharp_cut_m_min_as_specified (with_spline knot_count Demo.lib)
       twelve_masses twelve_ones (11 # 2) = Ok q /\ q == 9 # 9).
Proof.
  split; [|split; [|split; [|split; [|split]]]].
  - vm_compute. repeat constructor.
  - vm_compute. reflexivity.
  - reflexivity.
  - reflexivity.
  - eexists. split; [vm_compute; reflexivity | reflexivity].
  - eexists. split; [vm_compute; reflexivity | reflexivity].
Qed.

(** C5 as stated fails: on this input the code fits the spline on 8
    points, the symmetric window of the specification has 9. *)
Lemma sharp_cut_window_counterexample :
  exists q1 q2,
    sharp_cut_m_min (with_spline knot_count Demo.lib) twelve_masses twelve_ones (11 # 2)
      = Ok q1 /\
    sharp_cut_m_min_as_specified (with_spline knot_count Demo.lib)
      twelve_masses twelve_ones (11 # 2) = Ok q2 /\
    q1 == 8 # 9 /\ q2 == 1 /\ ~ q1 == q2.
Proof.
  eexists. eexists.
  split; [vm_compute; reflexivity|]. split; [vm_compute; reflexivity|].
  split; [reflexivity|]. split; [reflexivity|].
  intros H. vm_compute in H. discriminate.
Qed.

(** * The solver and the store *)

(** [respects R m]: every run of [m] relates the store before to the store
    after by [R]. *)
Definition respects {A} (R : gmap loc inst -> gmap loc inst -> Prop) (m : Op A) : Prop :=
  forall h r0 h', m h = Some (r0, h') -> R h h'.

Section Respects.

Variable R : gmap loc inst -> gmap loc inst -> Prop.
Hypothesis R_refl : forall h, R h h.
Hypothesis R_trans : forall h1 h2 h3, R h1 h2 -> R h2 h3 -> R h1 h3.

Lemma respects_oret A (a : A) : respects R (oret a).
Proof. intros h r0 h' [= _ <-]. apply R_refl. Qed.

Lemma respects_oraise A e : respects R (@oraise A e).
Proof. intros h r0 h' [= _ <-]. apply R_refl. Qed.

Lemma respects_olift A (r1 : result A) : respects R (olift r1).
Proof. destruct r1; [apply respects_oret | apply respects_oraise]. Qed.

Lemma respects_obind A B (m : Op A) (k : A -> Op B) :
  respects R m -> (forall a, respects R (k a)) -> respects R (obind m k).
Proof.
  intros Hm Hk h r0 h'. unfold obind.
  destruct (m h) as [[[a|e] h1]|] eqn:E; [| |discriminate].
  - intros H. eapply R_trans; [eapply Hm; eauto | eapply Hk; eauto].
  - intros [= _ <-]. eapply Hm; eauto.
Qed.

Lemma respects_drive (objective : Q -> Op Q) (m : minimizer) :
  (forall x, respects R (objective x)) -> respects R (drive objective m).
Proof.
  intros Hobj. induction m as [x k IH|res]; simpl.
  - apply respects_obind; auto.
  - apply respects_oret.
Qed.

End Respects.

(** [extends st st']: the same parameters and plain attributes, and every
    cached value of [st] still cached in [st']; nothing changed at all when
    [power] and [hod] were cached in [st]. *)
Definition extends (st st' : inst) : Prop :=
  params st' = params st /\
  attrs st' = attrs st /\
  (forall n v, cache st !! n = Some v -> cache st' !! n = Some v) /\
  (is_Some (cache st !! "power") -> is_Some (cache st !! "hod") -> st' = st).

(** Every object but the one at [c] is as it was. *)
Definition untouched_except (c : loc) (h h' : gmap loc inst) : Prop :=
  forall l st, l <> c -> h !! l = Some st -> h' !! l = Some st.

(** The object at [l] is extended, and every other object is as it was;
    new objects may have appeared. *)
Definition grown (l : loc) (h h' : gmap loc inst) : Prop :=
  untouched_except l h h' /\
  (forall st, h !! l = Some st -> exists st', h' !! l = Some st' /\ extends st st').

Lemma extends_refl st : extends st st.
Proof. unfold extends. auto. Qed.

Lemma extends_trans st1 st2 st3 : extends st1 st2 -> extends st2 st3 -> extends st1 st3.
Proof.
  intros (P1 & A1 & C1 & Q1) (P2 & A2 & C2 & Q2). unfold extends.
  split; [congruence|]. split; [congruence|]. split; [auto|].
  intros Hp Hh. assert (st2 = st1) by auto. subst st2. auto.
Qed.

Lemma untouched_except_refl c h : untouched_except c h h.
Proof. intros l st _ H. exact H. Qed.

Lemma untouched_except_trans c h1 h2 h3 :
  untouched_except c h1 h2 -> untouched_except c h2 h3 -> untouched_except c h1 h3.
Proof. intros H1 H2 l st Hl H. apply H2; auto. Qed.

Lemma grown_refl l h : grown l h h.
Proof.
  split; [apply untouched_except_refl|].
  intros st H. exists st. split; [exact H | apply extends_refl].
Qed.

Lemma grown_trans l h1 h2 h3 : grown l h1 h2 -> grown l h2 h3 -> grown l h1 h3.
Proof.
  intros [U1 G1] [U2 G2]. split.
  - eapply untouched_except_trans; eauto.
  - intros st H. destruct (G1 st H) as (st' & H' & E1).
    destruct (G2 st' H') as (st'' & H'' & E2).
    exists st''. split; [exact H'' | eapply extends_trans; eauto].
Qed.

(** Every object of [h] is still there after [h] has grown. *)
Lemma grown_lookup l h h' c : grown l h h' -> h' !! c = None -> h !! c = None.
Proof.
  intros [U G] Hc. destruct (h !! c) as [st|] eqn:E; [|reflexivity].
  destruct (decide (c = l)) as [->|Hne].
  - destruct (G st E) as (st' & H' & _). congruence.
  - rewrite (U c st Hne E) in Hc. discriminate.
Qed.

(** What then happens to an object that was not in [h] keeps [h] grown. *)
Lemma grown_then_untouched l c h h1 h2 :
  grown l h h1 -> h !! c = None -> untouched_except c h1 h2 -> grown l h h2.
Proof.
  intros [U G] Hc U2. split.
  - intros l' st Hl H. apply U2; [congruence | apply U; auto].
  - intros st H. destruct (G st H) as (st' & H' & E).
    exists st'. split; [|exact E]. apply U2; [congruence | exact H'].
Qed.

Lemma obind_inv A B (m : Op A) (k : A -> Op B) h r0 h' :
  obind m k h = Some (r0, h') ->
  (exists a h1, m h = Some (Ok a, h1) /\ k a h1 = Some (r0, h')) \/
  (exists e, m h = Some (Raise e, h') /\ r0 = Raise e).
Proof.
  unfold obind. destruct (m h) as [[[a|e] h1]|]; [| |discriminate].
  - intros H. left. eauto.
  - intros [= <- <-]. right. eauto.
Qed.

Lemma olift_inv A (r1 : result A) h r0 h' :
  olift r1 h = Some (r0, h') -> r0 = r1 /\ h' = h.
Proof. destruct r1; intros [= <- <-]; auto. Qed.

Section Frame.

Variable lib : Lib.
Variable g : globals.
Variable MassFunction : string -> option member.
Variable inherited_depends : string -> string -> bool.

Local Abbreviation exec := (exec lib g MassFunction).
Local Abbreviation at_ := (at_ lib g MassFunction).
Local Abbreviation assign := (assign lib g MassFunction inherited_depends).
Local Abbreviation super_update := (super_update lib g MassFunction inherited_depends).
Local Abbreviation update_with := (update_with lib g MassFunction inherited_depends).
Local Abbreviation update := (update lib g MassFunction inherited_depends).
Local Abbreviation density_integrand := (density_integrand lib g MassFunction).
Local Abbreviation model := (model lib g MassFunction).
Local Abbreviation solver_setup := (solver_setup lib g MassFunction).
Local Abbreviation smooth_m_min := (smooth_m_min lib g MassFunction).
Local Abbreviation find_m_min_with :=
  (find_m_min_with lib g MassFunction inherited_depends).
Local Abbreviation _find_m_min := (_find_m_min lib g MassFunction inherited_depends).

Lemma at_untouched A fuel c (p : prog A) : respects (untouched_except c) (at_ fuel c p).
Proof.
  intros h r0 h'. unfold at_.
  destruct (h !! c) as [st|]; [|intros [= _ <-]; apply untouched_except_refl].
  destruct (exec fuel p st) as [[r1 st']|]; [|discriminate].
  intros [= _ <-] l st0 Hl H. rewrite lookup_insert_ne; auto.
Qed.

Lemma assign_untouched c n v : respects (untouched_except c) (assign c n v).
Proof.
  intros h r0 h'. unfold assign.
  destruct (h !! c) as [st|]; [|intros [= _ <-]; apply untouched_except_refl].
  destruct (setattr lib g MassFunction inherited_depends n v st) as [r1 st'].
  intros [= _ <-] l st0 Hl H. rewrite lookup_insert_ne; auto.
Qed.

Lemma super_update_untouched c kwargs :
  respects (untouched_except c) (super_update c kwargs).
Proof.
  intros h r0 h'. unfold super_update.
  destruct (h !! c) as [st|]; [|intros [= _ <-]; apply untouched_except_refl].
  destruct (base_update lib g MassFunction inherited_depends kwargs st) as [r1 st'].
  intros [= _ <-] l st0 Hl H. rewrite lookup_insert_ne; auto.
Qed.

(** A copy is a new object; every object stays as it was. *)
Lemma deepcopy_fresh l h r0 h' :
  deepcopy l h = Some (r0, h') ->
  (forall l' st, h !! l' = Some st -> h' !! l' = Some st) /\
  (forall c, r0 = Ok c -> h !! c = None /\ h' !! c = h !! l).
Proof.
  unfold deepcopy. destruct (h !! l) as [st|] eqn:E.
  - intros [= <- <-].
    assert (Hf : h !! fresh (dom h) = None)
      by (apply not_elem_of_dom, is_fresh).
    split.
    + intros l' st' H. rewrite lookup_insert_ne; [exact H|].
      intros <-. congruence.
    + intros c [= <-]. split; [exact Hf | apply lookup_insert_eq].
  - intros [= <- <-]. split; [auto | discriminate].
Qed.

(** A read that the cache serves changes nothing. *)
Lemma exec_self_quiet fuel n st r0 st' :
  is_Some (cache st !! n) ->
  exec fuel (self n) st = Some (r0, st') -> st' = st.
Proof.
  intros [v Hv]. unfold self. rewrite exec_GetAttr.
  destruct (lookup_member lib g MassFunction n) as [[ps body|validate|w]|].
  - rewrite Hv, exec_Ret. intros [= _ <-]. reflexivity.
  - destruct (params st !! n); [rewrite exec_Ret|]; intros [= _ <-]; reflexivity.
  - rewrite exec_Ret. intros [= _ <-]. reflexivity.
  - destruct (attrs st !! n); [rewrite exec_Ret|]; intros [= _ <-]; reflexivity.
Qed.

(** The two reads the solver makes on the caller: [self.power] and
    [self.hod]. *)
Lemma at_self_grown fuel l n :
  n = "power" \/ n = "hod" -> respects (grown l) (at_ fuel l (self n)).
Proof.
  intros Hn h r0 h'. unfold at_.
  destruct (h !! l) as [st|] eqn:E; [|intros [= _ <-]; apply grown_refl].
  destruct (exec fuel (self n) st) as [[r1 st']|] eqn:Hx; [|discriminate].
  intros [= _ <-]. split.
  - intros l' st0 Hl H. rewrite lookup_insert_ne; auto.
  - intros st0 H0. rewrite E in H0. injection H0 as <-.
    exists st'. split; [apply lookup_insert_eq|].
    pose proof (exec_eval _ _ _ _ _ _ _ _ _ Hx) as Hev.
    destruct (eval_params _ _ _ _ _ _ _ _ Hev) as [Hp Ha].
    split; [exact Hp|]. split; [exact Ha|]. split.
    + eapply eval_cache_mono. exact Hev.
    + intros Hpower Hhod. eapply exec_self_quiet; [|exact Hx].
      destruct Hn as [->| ->]; assumption.
Qed.

Ltac respects_untouched :=
  repeat first
    [ apply respects_obind; [apply untouched_except_trans | | intros ?]
    | apply respects_oret; apply untouched_except_refl
    | apply respects_olift; apply untouched_except_refl
    | apply at_untouched
    | apply assign_untouched
    | apply super_update_untouched ].

Lemma density_integrand_untouched fuel c :
  respects (untouched_except c) (density_integrand fuel c).
Proof. unfold density_integrand. respects_untouched. Qed.

Lemma update_with_untouched find fuel c kwargs :
  (forall ng, respects (untouched_except c) (find c ng)) ->
  respects (untouched_except c) (update_with find fuel c kwargs).
Proof.
  intros Hfind. unfold update_with.
  apply respects_obind; [apply untouched_except_trans | | intros kw].
  - destruct (assoc "ng" kwargs) as [v|]; [respects_untouched|].
    destruct (assoc "hod_params" kwargs) as [hp|]; [|respects_untouched].
    apply respects_obind; [apply untouched_except_trans | | intros b].
    + respects_untouched.
    + destruct b; respects_untouched.
  - respects_untouched.
    destruct (negb (is_none a0)); [|respects_untouched].
    apply respects_obind; [apply untouched_except_trans | | intros mmin].
    + apply Hfind.
    + respects_untouched.
Qed.

Lemma model_untouched update0 fuel c ng mmin :
  (forall kwargs, respects (untouched_except c) (update0 c kwargs)) ->
  respects (untouched_except c) (model update0 fuel c ng mmin).
Proof.
  intros Hupd. unfold model.
  apply respects_obind; [apply untouched_except_trans | apply Hupd | intros _].
  apply respects_obind; [apply untouched_except_trans | apply density_integrand_untouched | intros mi].
  respects_untouched.
Qed.

Lemma smooth_m_min_untouched update0 fuel s ng :
  (forall kwargs, respects (untouched_except (clone s)) (update0 (clone s) kwargs)) ->
  respects (untouched_except (clone s)) (smooth_m_min update0 fuel s ng).
Proof.
  intros Hupd. unfold smooth_m_min.
  apply respects_obind; [apply untouched_except_trans | | intros _].
  { apply respects_olift. apply untouched_except_refl. }
  apply respects_obind; [apply untouched_except_trans | | intros res].
  - apply respects_drive;
      [apply untouched_except_refl | apply untouched_except_trans |].
    intros x. apply model_untouched. exact Hupd.
  - apply respects_olift. apply untouched_except_refl.
Qed.


(** [preserves Inv Q m]: a run of [m] from a store with [Inv] ends in a
    store with [Inv], and a value it returns has [Q]. *)
Definition preserves {A} (Inv : gmap loc inst -> Prop) (Q : A -> Prop) (m : Op A) : Prop :=
  forall h r0 h', Inv h -> m h = Some (r0, h') -> Inv h' /\ forall a, r0 = Ok a -> Q a.

Lemma preserves_obind A B Inv (Q' : A -> Prop) (Q : B -> Prop) (m : Op A) (k : A -> Op B) :
  preserves Inv Q' m -> (forall a, Q' a -> preserves Inv Q (k a)) ->
  preserves Inv Q (obind m k).
Proof.
  intros Hm Hk h r0 h' Hinv H.
  apply obind_inv in H as [(a & h1 & H1 & H2)|(e & H1 & ->)].
  - destruct (Hm _ _ _ Hinv H1) as [Hinv1 HQ].
    eapply Hk; eauto.
  - destruct (Hm _ _ _ Hinv H1) as [Hinv1 _]. split; [exact Hinv1 | discriminate].
Qed.

Lemma preserves_oret A Inv (Q : A -> Prop) a : Q a -> preserves Inv Q (oret a).
Proof. intros HQ h r0 h' Hinv [= <- <-]. split; [exact Hinv|]. intros b [= <-]. exact HQ. Qed.

Lemma preserves_olift A Inv (r1 : result A) : preserves Inv (fun _ => True) (olift r1).
Proof. intros h r0 h' Hinv H. apply olift_inv in H as [_ ->]. auto. Qed.

Lemma preserves_weaken A Inv (Q : A -> Prop) (m : Op A) :
  preserves Inv Q m -> preserves Inv (fun _ => True) m.
Proof. intros Hm h r0 h' Hinv H. destruct (Hm _ _ _ Hinv H). auto. Qed.

Section Caller.

Variables (l : loc) (h0 : gmap loc inst).

(** What is done to an object that the caller's store did not hold. *)
Lemma preserves_untouched A c (m : Op A) :
  h0 !! c = None -> respects (untouched_except c) m ->
  preserves (grown l h0) (fun _ => True) m.
Proof.
  intros Hc Hm h r0 h' Hinv H. split; [|auto].
  eapply grown_then_untouched; eauto.
Qed.

Lemma preserves_grown A (m : Op A) :
  respects (grown l) m -> preserves (grown l h0) (fun _ => True) m.
Proof.
  intros Hm h r0 h' Hinv H. split; [|auto].
  eapply grown_trans; eauto.
Qed.

Lemma preserves_deepcopy :
  preserves (grown l h0) (fun c => h0 !! c = None) (deepcopy l).
Proof.
  intros h r0 h' Hinv H. destruct (deepcopy_fresh _ _ _ _ H) as [Hkeep Hnew].
  split.
  - destruct Hinv as [U G]. split.
    + intros l' st Hl H'. apply Hkeep. apply U; auto.
    + intros st H'. destruct (G st H') as (st' & Hst' & E).
      exists st'. split; [apply Hkeep; exact Hst' | exact E].
  - intros c Hc. destruct (Hnew c Hc) as [Hfresh _].
    eapply grown_lookup; eauto.
Qed.

Lemma grown_untouched c h h' : grown c h h' -> untouched_except c h h'.
Proof. intros [U _]. exact U. Qed.

(** The preparation works on a copy that the caller's store did not
    hold. *)
Lemma solver_setup_preserves update0 fuel :
  (forall c kwargs, respects (untouched_except c) (update0 c kwargs)) ->
  preserves (grown l h0) (fun s => h0 !! clone s = None) (solver_setup update0 fuel l).
Proof.
  intros Hupd. unfold solver_setup.
  eapply preserves_obind;
    [apply preserves_grown, at_self_grown; auto | intros _ _].
  eapply preserves_obind; [apply preserves_deepcopy | intros c Hc].
  eapply preserves_obind;
    [apply preserves_untouched with (c := c); [exact Hc | apply Hupd] | intros _ _].
  eapply preserves_obind;
    [apply preserves_untouched with (c := c);
       [exact Hc | apply density_integrand_untouched] | intros mi _].
  eapply preserves_obind;
    [apply preserves_grown, at_self_grown; auto | intros hod _].
  eapply preserves_obind; [apply preserves_olift | intros sharp _].
  apply preserves_oret. exact Hc.
Qed.

Lemma update_with_respects find fuel :
  (forall c ng', respects (grown c) (find c ng')) ->
  forall c kwargs, respects (untouched_except c) (update_with find fuel c kwargs).
Proof.
  intros Hfind c kwargs. apply update_with_untouched.
  intros ng' h r0 h' H. apply grown_untouched. eapply Hfind; eauto.
Qed.

(** The body of the solver extends the caller and touches no other
    object of the caller's store, whatever solver its nested updates call,
    if that solver does the same. *)
Lemma find_m_min_with_preserves find fuel ng :
  (forall c ng', respects (grown c) (find c ng')) ->
  preserves (grown l h0) (fun _ => True) (find_m_min_with find fuel l ng).
Proof.
  intros Hfind.
  pose proof (update_with_respects find fuel Hfind) as Hupd.
  unfold find_m_min_with.
  apply preserves_obind with (Q' := fun s => h0 !! clone s = None).
  - apply solver_setup_preserves. exact Hupd.
  - intros s Hs.
    eapply preserves_obind; [apply preserves_olift | intros x _].
    destruct (sharp_cut s).
    + apply preserves_olift.
    + apply preserves_untouched with (c := clone s); [exact Hs|].
      apply smooth_m_min_untouched. intros kwargs. apply Hupd.
Qed.

End Caller.

Lemma find_m_min_grown fuel : forall l ng, respects (grown l) (_find_m_min fuel l ng).
Proof.
  induction fuel as [|fuel IH]; intros l ng h r0 h' H; [discriminate|].
  simpl in H.
  destruct (find_m_min_with_preserves l h (_find_m_min fuel) fuel ng IH h r0 h'
              (grown_refl l h) H) as [Hg _].
  exact Hg.
Qed.

(** C6, as the code has it.  A call of [_find_m_min] on the object at [l]
    leaves every other object of the store as it was and works on a copy
    at a location that the store did not hold before.  The caller keeps its parameters,
    its plain attributes and every value it had cached; its cache can only
    gain values, through the reads [self.power] and [self.hod] that the
    solver makes on the caller itself, and when both were cached before the
    call the caller is exactly as it was. *)
Theorem find_m_min_leaves_caller fuel l ng h st r0 h' :
  h !! l = Some st ->
  _find_m_min fuel l ng h = Some (r0, h') ->
  (exists st',
     h' !! l = Some st' /\
     params st' = params st /\
     attrs st' = attrs st /\
     (forall n v, cache st !! n = Some v -> cache st' !! n = Some v) /\
     (is_Some (cache st !! "power") -> is_Some (cache st !! "hod") -> st' = st)) /\
  (forall l' st0, l' <> l -> h !! l' = Some st0 -> h' !! l' = Some st0) /\
  (forall fuel' s h1,
     solver_setup (update fuel') fuel' l h = Some (Ok s, h1) ->
     h !! clone s = None /\ clone s <> l).
Proof.
  intros Hl H. destruct (find_m_min_grown fuel l ng h r0 h' H) as [U G].
  split; [|split; [exact U|]].
  - destruct (G st Hl) as (st' & Hst' & HP & HA & HC & HQ).
    exists st'. auto.
  - intros fuel' s h1 Hs.
    assert (Hupd : forall c kwargs,
              respects (untouched_except c) (update fuel' c kwargs)).
    { apply update_with_respects. intros c ng'. apply find_m_min_grown. }
    destruct (solver_setup_preserves l h (update fuel') fuel' Hupd h (Ok s) h1
                (grown_refl l h) Hs) as [_ Hc].
    specialize (Hc s eq_refl). split; [exact Hc|].
    intros E. rewrite E in Hc. congruence.
Qed.

End Frame.

Section SmoothBranch.

Variable lib : Lib.
Variable g : globals.
Variable MassFunction : string -> option member.
Variable inherited_depends : string -> string -> bool.

Local Abbreviation update := (update lib g MassFunction inherited_depends).
Local Abbreviation _find_m_min := (_find_m_min lib g MassFunction inherited_depends).
Local Abbreviation solver_setup := (solver_setup lib g MassFunction).
Local Abbreviation model := (model lib g MassFunction).

(** C8, as the code has it.  In the smooth branch, once the target is
    feasible and the minimiser has ended with a result [res], the solver
    returns [res.x[0]], the last estimate of the minimiser, whether
    [res.success] is true or false: no exception is raised for a
    minimisation that stopped at its iteration cap. *)
Theorem find_m_min_smooth_returns_estimate fuel l (ng : Q) h s h1 res h2 x xs :
  solver_setup (update fuel) fuel l h = Some (Ok s, h1) ->
  sharp_cut s = false ->
  smooth_feasible lib (grid s) (integrand s) ng = Ok tt ->
  drive (model (update fuel) fuel (clone s) ng)
        (minimize lib 12 (1 # 1000) "Nelder-Mead" 200) h1 = Some (Ok res, h2) ->
  res_x res = x :: xs ->
  _find_m_min (S fuel) l (VNum ng) h = Some (Ok x, h2).
Proof.
  intros Hs Hsmooth Hfeasible Hdrive Hx.
  rewrite (find_m_min_after_setup lib g MassFunction inherited_depends
             fuel l (VNum ng) ng h s h1 Hs eq_refl), Hsmooth.
  unfold smooth_m_min. unfold obind at 1. rewrite Hfeasible. simpl.
  unfold obind. rewrite Hdrive. unfold first_x. rewrite Hx. reflexivity.
Qed.

End SmoothBranch.

(** ** The solver on the worked configuration *)

Definition demo_store : gmap loc inst := {[ 0%nat := Demo.new_instance ]}.

(** The new instance with an occupation model without a sharp cutoff. *)
Definition smooth_instance : inst :=
  with_params (<["hod_params" := VDict [("sharp", VBool false)]]>
                 (params Demo.new_instance)) Demo.new_instance.

Definition smooth_store : gmap loc inst := {[ 0%nat := smooth_instance ]}.

Definition demo_find_m_min :=
  _find_m_min Demo.lib module_globals Demo.MassFunction Demo.inherited_depends.

Definition demo_setup :=
  solver_setup Demo.lib module_globals Demo.MassFunction
    (update Demo.lib module_globals Demo.MassFunction Demo.inherited_depends 11) 11.

(** C8 as stated fails: the minimiser of the worked configuration always
    ends unconverged at the iteration cap, and the solver returns its
    estimate as the minimum mass. *)
Lemma find_m_min_unconverged_counterexample :
  (forall x0 tol method maxiter,
     exists probe1 probe2 estimate,
       minimize Demo.lib x0 tol method maxiter
       = Evaluate probe1 (fun y0 =>
         Evaluate probe2 (fun y1 =>
         Finished {| res_x := [estimate y0 y1];
                     res_success := false;
                     res_nit := maxiter |}))) /\
  exists h', demo_find_m_min 12 0%nat (VNum (1 # 100000)) smooth_store
             = Some (Ok 12, h').
Proof.
  split.
  - intros x0 tol method maxiter.
    exists x0, (x0 + 1), (fun y0 y1 => if Qle_bool y0 y1 then x0 else x0 + 1).
    reflexivity.
  - eexists. vm_compute. reflexivity.
Qed.

(** C6 as stated fails: on a new instance the call leaves the caller
    with [power] and [hod] cached, which were not cached before. *)
Lemma find_m_min_fills_cache_counterexample :
  cache Demo.new_instance !! "power" = None /\
  cache Demo.new_instance !! "hod" = None /\
  exists r0 h' st',
    demo_find_m_min 12 0%nat (VNum (1 # 100000)) demo_store = Some (r0, h') /\
    h' !! 0%nat = Some st' /\
    is_Some (cache st' !! "power") /\
    is_Some (cache st' !! "hod") /\
    st' <> Demo.new_instance.
Proof.
  split; [reflexivity|]. split; [reflexivity|].
  destruct (demo_find_m_min 12 0%nat (VNum (1 # 100000)) demo_store)
    as [[r0 h']|] eqn:E; [|vm_compute in E; discriminate].
  destruct (h' !! 0%nat) as [st'|] eqn:E0.
  - exists r0, h', st'. split; [reflexivity|]. split; [exact E0|].
    assert (Hp : is_Some (cache st' !! "power")).
    { assert (H : match demo_find_m_min 12 0%nat (VNum (1 # 100000)) demo_store with
                  | Some (_, h1) =>
                      match h1 !! 0%nat with
                      | Some st1 => match cache st1 !! "power" with
                                    | Some _ => true | None => false end
                      | None => false
                      end
                  | None => false
                  end = true) by (vm_compute; reflexivity).
      rewrite E, E0 in H. destruct (cache st' !! "power"); [eauto | discriminate]. }
    assert (Hh : is_Some (cache st' !! "hod")).
    { assert (H : match demo_find_m_min 12 0%nat (VNum (1 # 100000)) demo_store with
                  | Some (_, h1) =>
                      match h1 !! 0%nat with
                      | Some st1 => match cache st1 !! "hod" with
                                    | Some _ => true | None => false end
                      | None => false
                      end
                  | None => false
                  end = true) by (vm_compute; reflexivity).
      rewrite E, E0 in H. destruct (cache st' !! "hod"); [eauto | discriminate]. }
    split; [exact Hp|]. split; [exact Hh|].
    intros ->. destruct Hp as [v Hv]. discriminate.
  - exfalso.
    assert (H : match demo_find_m_min 12 0%nat (VNum (1 # 100000)) demo_store with
                | Some (_, h1) => match h1 !! 0%nat with Some _ => true | None => false end
                | None => false
                end = true) by (vm_compute; reflexivity).
    rewrite E, E0 in H. discriminate.
Qed.

Lemma find_m_min_leaves_caller_witness :
  demo_store !! 0%nat = Some Demo.new_instance /\
  exists r0 h',
    demo_find_m_min 12 0%nat (VNum (1 # 100000)) demo_store = Some (r0, h') /\
    (exists st',
       h' !! 0%nat = Some st' /\
       params st' = params Demo.new_instance /\
       attrs st' = attrs Demo.new_instance) /\
    (forall l' st0, l' <> 0%nat -> demo_store !! l' = Some st0 -> h' !! l' = Some st0).
Proof.
  assert (H0 : demo_store !! 0%nat = Some Demo.new_instance) by reflexivity.
  split; [exact H0|].
  destruct (demo_find_m_min 12 0%nat (VNum (1 # 100000)) demo_store)
    as [[r0 h']|] eqn:E; [|vm_compute in E; discriminate].
  exists r0, h'. split; [reflexivity|].
  destruct (find_m_min_leaves_caller Demo.lib module_globals Demo.MassFunction
              Demo.inherited_depends 12 0%nat (VNum (1 # 100000)) demo_store
              Demo.new_instance r0 h' H0 E)
    as ((st' & Hst' & HP & HA & _) & HU & _).
  split; [exists st'; auto | exact HU].
Defined.

Lemma find_m_min_infeasible_witness :
  exists s h1 dx top,
    demo_setup 0%nat demo_store = Some (Ok s, h1) /\
    grid_step (np_log Demo.lib) (VArr (grid s)) = Ok dx /\
    sharp_cut s = true /\
    0 <= dx /\
    Forall (fun v => 0 <= v) (integrand s) /\
    (2 <= length (integrand s))%nat /\
    (forall y, In y (cumtrapz (rev (integrand s)) dx) -> y < 1) /\
    demo_find_m_min 12 0%nat (VNum 1) demo_store
      = Some (Raise (NGException "Maximum mean galaxy density exceeded: " top), h1) /\
    In top (cumtrapz (rev (integrand s)) dx).
Proof.
  assert (H : exists s h1 dx,
    demo_setup 0%nat demo_store = Some (Ok s, h1) /\
    grid_step (np_log Demo.lib) (VArr (grid s)) = Ok dx /\
    sharp_cut s = true /\
    0 <= dx /\
    Forall (fun v => 0 <= v) (integrand s) /\
    (2 <= length (integrand s))%nat /\
    (forall y, In y (cumtrapz (rev (integrand s)) dx) -> y < 1)).
  { eexists. eexists. eexists.
    split; [vm_compute; reflexivity|].
    split; [vm_compute; reflexivity|].
    split; [reflexivity|].
    split; [vm_compute; discriminate|].
    split.
    { apply Forall_forall. intros v Hv. apply list_elem_of_In in Hv.
      simpl in Hv. destruct Hv as [<-|[<-|[]]]; vm_compute; discriminate. }
    split; [simpl; lia|].
    intros y Hy. vm_compute in Hy. destruct Hy as [<-|[]]. vm_compute. reflexivity. }
  destruct H as (s & h1 & dx & Hs & Hdx & Hsharp & Hpos & Hnn & Hlen & Hng).
  destruct (find_m_min_infeasible Demo.lib module_globals Demo.MassFunction
              Demo.inherited_depends 11 0%nat 1 demo_store s h1 dx Hs Hdx)
    as (top & Hraise & Htop).
  { rewrite Hsharp. auto. }
  rewrite Hsharp in Htop. destruct Htop as [Hin _].
  exists s, h1, dx, top. auto 10.
Defined.

(** The library with another reading of the attributes of its objects. *)
Definition with_attribute (f : value -> string -> result value) (lib : Lib) : Lib := {|
  np_log := np_log lib;
  np_log10 := np_log10 lib;
  np_exp := np_exp lib;
  pow10 := pow10 lib;
  simps := simps lib;
  spline := spline lib;
  minimize := minimize lib;
  call := call lib;
  instantiate := instantiate lib;
  call_method := call_method lib;
  attribute := f;
  issubclass_ := issubclass_ lib;
  str := str lib;
  type_of := type_of lib
|}.

(** The worked configuration with an occupation model that supports masses
    from [10 ** 17.9], whatever its [M_min]: the working grid of step 0.01
    has the ten points [10 ** 17.90, ..., 10 ** 17.99], enough for the
    window and the spline of the sharp-cutoff branch. *)
Definition ten_point_attribute (obj : value) (a : string) : result value :=
  match obj with
  | VObj _ _ =>
      if String.eqb a "mmin" then Ok (VNum (179 # 10)) else Demo.object_attribute obj a
  | _ => Demo.object_attribute obj a
  end.

Definition ten_point_lib : Lib := with_attribute ten_point_attribute Demo.lib.

Definition ten_point_find_m_min :=
  _find_m_min ten_point_lib module_globals Demo.MassFunction Demo.inherited_depends.

Definition ten_point_setup :=
  solver_setup ten_point_lib module_globals Demo.MassFunction
    (update ten_point_lib module_globals Demo.MassFunction Demo.inherited_depends 11) 11.

(** On the grid of ten points with the target [ng = 0.00023]: the first
    entry of the cumulative integral above the target has index 5, the
    window holds the 8 entries at the indices 1 to 8, and the solver
    returns the value of the spline. *)
Lemma find_m_min_sharp_cut_window_witness :
  exists s h1 dx top q,
    ten_point_setup 0%nat demo_store = Some (Ok s, h1) /\
    sharp_cut s = true /\
    grid_step (np_log ten_point_lib) (VArr (grid s)) = Ok dx /\
    last (cumtrapz (rev (integrand s)) dx) = Some top /\
    (23 # 100000) <= top /\
    (exists y, In y (cumtrapz (rev (integrand s)) dx) /\ (23 # 100000) < y) /\
    length (grid s) = 10%nat /\
    find_index (fun x => Qltb (23 # 100000) x) (cumtrapz (rev (integrand s)) dx)
      = Some 5%nat /\
    length (slice 1 9 (cumtrapz (rev (integrand s)) dx)) = 8%nat /\
    length (slice 1 9 (tail (rev (grid s)))) = 8%nat /\
    ten_point_find_m_min 12 0%nat (VNum (23 # 100000)) demo_store = Some (Ok q, h1).
Proof.
  assert (H : exists s h1 dx top,
    ten_point_setup 0%nat demo_store = Some (Ok s, h1) /\
    sharp_cut s = true /\
    grid_step (np_log ten_point_lib) (VArr (grid s)) = Ok dx /\
    last (cumtrapz (rev (integrand s)) dx) = Some top /\
    (23 # 100000) <= top /\
    (exists y, In y (cumtrapz (rev (integrand s)) dx) /\ (23 # 100000) < y) /\
    length (grid s) = 10%nat /\
    find_index (fun x => Qltb (23 # 100000) x) (cumtrapz (rev (integrand s)) dx)
      = Some 5%nat /\
    length (slice 1 9 (cumtrapz (rev (integrand s)) dx)) = 8%nat /\
    length (slice 1 9 (tail (rev (grid s)))) = 8%nat).
  { eexists. eexists. eexists. eexists.
    split; [vm_compute; reflexivity|].
    split; [reflexivity|].
    split; [vm_compute; reflexivity|].
    split; [vm_compute; reflexivity|].
    split; [vm_compute; discriminate|].
    split.
    { eexists. split; [vm_compute; do 5 right; left; reflexivity | vm_compute; reflexivity]. }
    split; [reflexivity|].
    split; [vm_compute; reflexivity|].
    split; [reflexivity|]. reflexivity. }
  destruct H as (s & h1 & dx & top & Hs & Hsharp & Hdx & Htop & Hle & Hex & Hlen & Hind
                 & Hw1 & Hw2).
  assert (Hok : match ten_point_find_m_min 12 0%nat (VNum (23 # 100000)) demo_store with
                | Some (Ok _, _) => true
                | _ => false
                end = true) by (vm_compute; reflexivity).
  destruct (find_m_min_sharp_cut_window ten_point_lib module_globals Demo.MassFunction
              Demo.inherited_depends 11 0%nat (23 # 100000) demo_store s h1 dx top
              Hs Hsharp Hdx Htop Hle Hex)
    as (ind & v & _ & _ & _ & Hres & _).
  unfold ten_point_find_m_min in *. rewrite Hres in Hok.
  destruct (rbind _ _) as [q|e] in Hres, Hok; [|discriminate Hok].
  exists s, h1, dx, top, q. auto 12.
Defined.

Lemma find_m_min_smooth_returns_estimate_witness :
  exists s h1 res h2 x xs,
    solver_setup Demo.lib module_globals Demo.MassFunction
      (update Demo.lib module_globals Demo.MassFunction Demo.inherited_depends 11) 11
      0%nat smooth_store = Some (Ok s, h1) /\
    sharp_cut s = false /\
    smooth_feasible Demo.lib (grid s) (integrand s) (1 # 100000) = Ok tt /\
    drive (model Demo.lib module_globals Demo.MassFunction
             (update Demo.lib module_globals Demo.MassFunction Demo.inherited_depends 11)
             11 (clone s) (1 # 100000))
          (minimize Demo.lib 12 (1 # 1000) "Nelder-Mead" 200) h1 = Some (Ok res, h2) /\
    res_x res = x :: xs /\
    res_success res = false /\
    demo_find_m_min 12 0%nat (VNum (1 # 100000)) smooth_store = Some (Ok x, h2).
Proof.
  assert (H : exists s h1 res h2 x xs,
    solver_setup Demo.lib module_globals Demo.MassFunction
      (update Demo.lib module_globals Demo.MassFunction Demo.inherited_depends 11) 11
      0%nat smooth_store = Some (Ok s, h1) /\
    sharp_cut s = false /\
    smooth_feasible Demo.lib (grid s) (integrand s) (1 # 100000) = Ok tt /\
    drive (model Demo.lib module_globals Demo.MassFunction
             (update Demo.lib module_globals Demo.MassFunction Demo.inherited_depends 11)
             11 (clone s) (1 # 100000))
          (minimize Demo.lib 12 (1 # 1000) "Nelder-Mead" 200) h1 = Some (Ok res, h2) /\
    res_x res = x :: xs /\
    res_success res = false).
  { eexists. eexists. eexists. eexists. eexists. eexists.
    split; [vm_compute; reflexivity|].
    split; [reflexivity|].
    split; [vm_compute; reflexivity|].
    split; [vm_compute; reflexivity|].
    split; reflexivity. }
  destruct H as (s & h1 & res & h2 & x & xs & Hs & Hsm & Hf & Hd & Hx & Hfail).
  exists s, h1, res, h2, x, xs.
  split; [exact Hs|]. split; [exact Hsm|]. split; [exact Hf|]. split; [exact Hd|].
  split; [exact Hx|]. split; [exact Hfail|].
  exact (find_m_min_smooth_returns_estimate Demo.lib module_globals Demo.MassFunction
           Demo.inherited_depends 11 0%nat (1 # 100000) smooth_store s h1 res h2 x xs
           Hs Hsm Hf Hd Hx).
Defined.

(** * The one-halo terms and their mass bound *)

(** [4*np.pi * radius**3 * density * delta_halo/3] *)
Definition virial_mass_of (density delta_halo radius : Q) : Q :=
  4 * np_pi * Qpower_positive radius 3 * density * delta_halo / 3.

(** [dndm * 2 * n_cen * n_sat * rho * M], one row per separation. *)
Definition cs_integrand (dndm n_cen n_sat M : list Q) (rho : list (list Q))
    : list (list Q) :=
  map (fun row =>
         zip_with Qmult
           (zip_with Qmult
              (zip_with Qmult (zip_with Qmult (map (fun x => x * 2) dndm) n_cen) n_sat)
              row)
           M)
      rho.

Lemma zip_rows_same op (l1 l2 : list Q) :
  length l1 = length l2 -> zip_rows op l1 l2 = Ok (zip_with op l1 l2).
Proof. intros H. unfold zip_rows. rewrite H, Nat.eqb_refl. reflexivity. Qed.

Lemma collect_map_Ok {A B} (f : A -> result B) (f' : A -> B) (l : list A) :
  Forall (fun x => f x = Ok (f' x)) l -> collect (map f l) = Ok (map f' l).
Proof.
  induction 1 as [|x l Hx _ IH]; [reflexivity|].
  simpl. rewrite Hx, IH. reflexivity.
Qed.

Lemma np_mul_arr_arr l1 l2 :
  length l1 = length l2 -> np_mul (VArr l1) (VArr l2) = Ok (VArr (zip_with Qmult l1 l2)).
Proof. intros H. unfold np_mul. simpl. rewrite zip_rows_same by exact H. reflexivity. Qed.

Lemma np_mul_arr_mat l m :
  Forall (fun row => length row = length l) m ->
  np_mul (VArr l) (VMat m) = Ok (VMat (map (fun row => zip_with Qmult l row) m)).
Proof.
  intros H. unfold np_mul. simpl.
  rewrite (collect_map_Ok _ (fun row => zip_with Qmult l row)); [reflexivity|].
  eapply Forall_impl; [exact H|]. intros row Hrow. apply zip_rows_same. auto.
Qed.

Lemma np_mul_mat_arr m l :
  Forall (fun row => length row = length l) m ->
  np_mul (VMat m) (VArr l) = Ok (VMat (map (fun row => zip_with Qmult row l) m)).
Proof.
  intros H. unfold np_mul. simpl.
  rewrite (collect_map_Ok _ (fun row => zip_with Qmult row l)); [reflexivity|].
  eapply Forall_impl; [exact H|]. intros row Hrow. apply zip_rows_same. auto.
Qed.

(** The mask entry by entry. *)
Lemma mask_rows_lookup cond M bound integrand masked :
  mask_rows cond M bound integrand = Ok masked ->
  forall j i b m x,
    bound !! j = Some b -> M !! i = Some m ->
    integrand !! j ≫= (fun row => row !! i) = Some x ->
    masked !! j ≫= (fun row => row !! i) = Some (if cond m b then 0 else x).
Proof.
  unfold mask_rows. destruct (_ && _); [|discriminate].
  intros [= <-] j i b m x Hb Hm Hx.
  rewrite lookup_zip_with, Hb. simpl.
  destruct (integrand !! j) as [row|]; [|discriminate]. simpl in *.
  rewrite lookup_zip_with, Hm. simpl. rewrite Hx. reflexivity.
Qed.

Lemma mask_rows_shape cond M bound integrand :
  length integrand = length bound ->
  Forall (fun row => length row = length M) integrand ->
  mask_rows cond M bound integrand
  = Ok (zip_with (fun b row => zip_with (fun m x => if cond m b then 0 else x) M row)
          bound integrand).
Proof.
  intros Hl Hrows. unfold mask_rows. rewrite Hl, Nat.eqb_refl. simpl.
  assert (E : forallb (fun row => Nat.eqb (length row) (length M)) integrand = true).
  { apply forallb_forall. intros row Hin. apply Nat.eqb_eq.
    rewrite Forall_forall in Hrows. apply Hrows. apply list_elem_of_In. exact Hin. }
  rewrite E. reflexivity.
Qed.

Section CentralSatellite.

Variable lib : Lib.
Variable g : globals.
Variable MassFunction : string -> option member.

Local Abbreviation exec := (exec lib g MassFunction).

Local Open Scope prog_scope.

(** [holds fuel st n v]: on [st] the attribute [n] reads as [v], and the
    read leaves [st] as it is (a parameter, or a cached value). *)
Definition holds (fuel : nat) (st : inst) (n : string) (v : value) : Prop :=
  exec fuel (self n) st = Some (Ok v, st).

Definition is_cached_property (n : string) : bool :=
  match lookup_member lib g MassFunction n with
  | Some (cached_property _ _) => true
  | _ => false
  end.

Definition is_parameter (n : string) : bool :=
  match lookup_member lib g MassFunction n with
  | Some (parameter _) => true
  | _ => false
  end.

Lemma holds_cached fuel st n v :
  is_cached_property n = true ->
  cache st !! n = Some v ->
  holds fuel st n v.
Proof.
  unfold is_cached_property, holds, self. intros Hm Hc. rewrite exec_GetAttr.
  destruct (lookup_member lib g MassFunction n) as [[ps body|f|w]|]; try discriminate.
  rewrite Hc. apply exec_Ret.
Qed.

Lemma holds_parameter fuel st n v :
  is_parameter n = true ->
  params st !! n = Some v ->
  holds fuel st n v.
Proof.
  unfold is_parameter, holds, self. intros Hm Hc. rewrite exec_GetAttr.
  destruct (lookup_member lib g MassFunction n) as [[ps body|f|w]|]; try discriminate.
  rewrite Hc. apply exec_Ret.
Qed.

Lemma exec_bind_Ok fuel A B (p : prog A) (f : A -> prog B) st a st' :
  exec fuel p st = Some (Ok a, st') ->
  exec fuel (pbind p f) st = exec fuel (f a) st'.
Proof. intros H. rewrite exec_bind, H. reflexivity. Qed.

Lemma exec_pbinop fuel op (p q : prog value) st a b :
  exec fuel p st = Some (Ok a, st) ->
  exec fuel q st = Some (Ok b, st) ->
  exec fuel (pbinop op p q) st = Some (op a b, st).
Proof.
  intros Hp Hq. unfold pbinop.
  rewrite (exec_bind_Ok _ _ _ _ _ _ _ _ Hp), (exec_bind_Ok _ _ _ _ _ _ _ _ Hq).
  apply exec_lift.
Qed.

Lemma exec_pow fuel (p : prog value) n st a :
  exec fuel p st = Some (Ok a, st) ->
  exec fuel (p [^] n) st = Some (np_pow a n, st).
Proof. intros Hp. rewrite (exec_bind_Ok _ _ _ _ _ _ _ _ Hp). apply exec_lift. Qed.

Lemma exec_profile_of fuel st f x prof xv mv :
  holds fuel st "profile" prof -> holds fuel st x xv -> holds fuel st "M" mv ->
  exec fuel (HaloModel.profile_of lib f x) st
  = Some (call_method lib prof f [xv; mv] [("norm", VStr "m")], st).
Proof.
  intros Hp Hx Hm. unfold HaloModel.profile_of.
  rewrite (exec_bind_Ok _ _ _ _ _ _ _ _ Hp), (exec_bind_Ok _ _ _ _ _ _ _ _ Hx),
    (exec_bind_Ok _ _ _ _ _ _ _ _ Hm).
  apply exec_lift.
Qed.

(** The mass bound over an array of radii. *)
Lemma exec_virial_mass fuel st rs density rho_mean delta_halo :
  holds fuel st density (VNum rho_mean) ->
  holds fuel st "delta_halo" (VNum delta_halo) ->
  exec fuel (HaloModel.virial_mass (VArr rs) density) st
  = Some (Ok (VArr (map (virial_mass_of rho_mean delta_halo) rs)), st).
Proof.
  intros Hd Hh. unfold HaloModel.virial_mass.
  assert (E1 : exec fuel (num (4 * np_pi) [*] Ret (VArr rs) [^] 3) st
               = Some (Ok (VArr (map (Qmult (4 * np_pi))
                                   (map (fun x => Qpower_positive x 3) rs))), st)).
  { rewrite (exec_pbinop fuel np_mul _ _ st (VNum (4 * np_pi))
               (VArr (map (fun x => Qpower_positive x 3) rs))); [reflexivity | | ].
    - apply exec_Ret.
    - rewrite (exec_pow fuel _ 3 st (VArr rs)); [reflexivity | apply exec_Ret]. }
  rewrite (exec_pbinop fuel np_div _ (num 3) st _ (VNum 3)
             (exec_pbinop fuel np_mul _ _ st _ _
                (exec_pbinop fuel np_mul _ _ st _ _ E1 Hd) Hh)
             (exec_Ret _ _ _ _ _ _ _)).
  simpl. rewrite !map_map. reflexivity.
Qed.

(** The integrand of the central-satellite term before the mask. *)
Lemma exec_cs_integrand fuel st dn nc ns Ms rho :
  holds fuel st "dndm" (VArr dn) -> holds fuel st "n_cen" (VArr nc) ->
  holds fuel st "n_sat" (VArr ns) -> holds fuel st "M" (VArr Ms) ->
  length dn = length Ms -> length nc = length Ms -> length ns = length Ms ->
  Forall (fun row => length row = length Ms) rho ->
  exec fuel (self "dndm" [*] num 2 [*] self "n_cen" [*] self "n_sat"
               [*] Ret (VMat rho) [*] self "M") st
  = Some (Ok (VMat (cs_integrand dn nc ns Ms rho)), st).
Proof.
  intros Hdn Hnc Hns HM Ldn Lnc Lns Hrho.
  set (base := zip_with Qmult (zip_with Qmult (map (fun x => x * 2) dn) nc) ns).
  assert (Lbase : length base = length Ms).
  { unfold base. rewrite !length_zip_with, length_map. lia. }
  assert (E1 : exec fuel (self "dndm" [*] num 2 [*] self "n_cen" [*] self "n_sat") st
               = Some (Ok (VArr base), st)).
  { rewrite (exec_pbinop fuel np_mul _ _ st
               (VArr (zip_with Qmult (map (fun x => x * 2) dn) nc)) (VArr ns)).
    - rewrite np_mul_arr_arr; [reflexivity|].
      rewrite length_zip_with, length_map. lia.
    - rewrite (exec_pbinop fuel np_mul _ _ st (VArr (map (fun x => x * 2) dn)) (VArr nc)).
      + rewrite np_mul_arr_arr; [reflexivity|]. rewrite length_map. lia.
      + rewrite (exec_pbinop fuel np_mul _ _ st (VArr dn) (VNum 2));
          [reflexivity | exact Hdn | apply exec_Ret].
      + exact Hnc.
    - exact Hns. }
  rewrite (exec_pbinop fuel np_mul _ _ st
             (VMat (map (fun row => zip_with Qmult base row) rho)) (VArr Ms)).
  - rewrite np_mul_mat_arr.
    + unfold cs_integrand. rewrite map_map. reflexivity.
    + apply Forall_map. eapply Forall_impl; [exact Hrho|].
      intros row Hrow. simpl in *. rewrite length_zip_with. lia.
  - rewrite (exec_pbinop fuel np_mul _ _ st (VArr base) (VMat rho) E1 (exec_Ret _ _ _ _ _ _ _)).
    rewrite np_mul_arr_mat; [reflexivity|].
    eapply Forall_impl; [exact Hrho|]. intros row Hrow. simpl in *. lia.
  - exact HM.
Qed.

Lemma cs_integrand_shape dn nc ns Ms rho :
  length dn = length Ms -> length nc = length Ms -> length ns = length Ms ->
  Forall (fun row => length row = length Ms) rho ->
  length (cs_integrand dn nc ns Ms rho) = length rho /\
  Forall (fun row => length row = length Ms) (cs_integrand dn nc ns Ms rho).
Proof.
  intros Ldn Lnc Lns Hrho. unfold cs_integrand. split; [apply length_map|].
  apply Forall_map. eapply Forall_impl; [exact Hrho|].
  intros row Hrow. simpl in *. rewrite !length_zip_with, length_map. lia.
Qed.


Lemma cs_integrand_lookup dn nc ns Ms rho j i a b c row e m :
  dn !! i = Some a -> nc !! i = Some b -> ns !! i = Some c ->
  rho !! j = Some row -> row !! i = Some e -> Ms !! i = Some m ->
  cs_integrand dn nc ns Ms rho !! j ≫= (fun row => row !! i)
  = Some (a * 2 * b * c * e * m).
Proof.
  intros Ha Hb Hc Hrow He Hm. unfold cs_integrand.
  rewrite list_lookup_fmap, Hrow. simpl.
  rewrite !lookup_zip_with, list_lookup_fmap, Ha, Hb, Hc, He, Hm. reflexivity.
Qed.

(** C7, as the code has it.  With the accelerated kernels switched off,
    [_corr_gg_1h_cs] integrates, for every separation [r] of the grid, the
    integrand [dn/dM * 2 * n_cen * n_sat * rho(r, M) * M] with the entries
    for the masses below [4 pi r^3 mean_density delta_halo / 3] set to
    zero: the bound is the mass whose virial radius is the separation [r]
    itself. *)
Theorem corr_gg_1h_cs_masks_below_virial_mass
    fuel st prof rs Ms dn nc ns rho rho_mean delta_halo dlog10m nbar :
  USEFORT g = false ->
  holds fuel st "profile" prof ->
  holds fuel st "r" (VArr rs) ->
  holds fuel st "M" (VArr Ms) ->
  holds fuel st "dndm" (VArr dn) ->
  holds fuel st "n_cen" (VArr nc) ->
  holds fuel st "n_sat" (VArr ns) ->
  holds fuel st "mean_density" (VNum rho_mean) ->
  holds fuel st "delta_halo" (VNum delta_halo) ->
  holds fuel st "dlog10m" (VNum dlog10m) ->
  holds fuel st "mean_gal_den" (VNum nbar) ->
  call_method lib prof "rho" [VArr rs; VArr Ms] [("norm", VStr "m")] = Ok (VMat rho) ->
  length dn = length Ms -> length nc = length Ms -> length ns = length Ms ->
  length rho = length rs ->
  Forall (fun row => length row = length Ms) rho ->
  exists masked,
    exec fuel (HaloModel._corr_gg_1h_cs lib g) st
    = Some (Ok (VArr (map (fun x => x / Qpower_positive nbar 2)
                        (map (fun row => trapz_row row (dlog10m * np_log lib 10))
                             masked))), st) /\
    length masked = length rs /\
    forall j i r m a b c row e,
      rs !! j = Some r -> Ms !! i = Some m ->
      dn !! i = Some a -> nc !! i = Some b -> ns !! i = Some c ->
      rho !! j = Some row -> row !! i = Some e ->
      masked !! j ≫= (fun row => row !! i)
      = Some (if Qltb m (virial_mass_of rho_mean delta_halo r)
              then 0 else a * 2 * b * c * e * m).
Proof.
  intros Hoff Hprof Hr HM Hdn Hnc Hns Hdens Hdh Hdl Hnbar Hcall Ldn Lnc Lns Lrho Hrows.
  set (bound := map (virial_mass_of rho_mean delta_halo) rs).
  set (full := cs_integrand dn nc ns Ms rho).
  destruct (cs_integrand_shape dn nc ns Ms rho Ldn Lnc Lns Hrows) as [Lfull Hfull].
  fold full in Lfull, Hfull.
  assert (Hmask : mask_rows Qltb Ms bound full
                  = Ok (zip_with (fun b row =>
                                    zip_with (fun m x => if Qltb m b then 0 else x) Ms row)
                          bound full)).
  { apply mask_rows_shape; [|exact Hfull]. unfold bound. rewrite length_map. lia. }
  set (masked := zip_with (fun b row =>
                             zip_with (fun m x => if Qltb m b then 0 else x) Ms row)
                   bound full) in *.
  exists masked. split; [|split].
  - unfold HaloModel._corr_gg_1h_cs.
    rewrite (exec_bind_Ok fuel _ _ _ _ st (VMat rho) st).
    2:{ rewrite (exec_profile_of fuel st "rho" "r" prof (VArr rs) (VArr Ms) Hprof Hr HM).
        rewrite Hcall. reflexivity. }
    rewrite Hoff.
    rewrite (exec_bind_Ok fuel _ _ _ _ st
               (VArr (map (fun row => trapz_row row (dlog10m * np_log lib 10)) masked)) st).
    2:{ rewrite (exec_bind_Ok fuel _ _ _ _ st _ st Hr).
        rewrite (exec_bind_Ok fuel _ _ _ _ st _ st
                   (exec_virial_mass fuel st rs "mean_density" rho_mean delta_halo
                      Hdens Hdh)).
        rewrite (exec_bind_Ok fuel _ _ _ _ st _ st
                   (exec_cs_integrand fuel st dn nc ns Ms rho Hdn Hnc Hns HM
                      Ldn Lnc Lns Hrows)).
        fold bound. fold full.
        rewrite (exec_bind_Ok fuel _ _ _ _ st (VMat masked) st).
        2:{ unfold HaloModel.mask_below.
            rewrite (exec_bind_Ok fuel _ _ _ _ st _ st HM).
            simpl rbind. rewrite Hmask. apply exec_Ret. }
        rewrite (exec_bind_Ok fuel _ _ _ _ st _ st Hdl).
        rewrite exec_bind, exec_lift. simpl as_num.
        unfold HaloModel.trapz. apply exec_lift. }
    rewrite (exec_pbinop fuel np_div _ _ st
               (VArr (map (fun row => trapz_row row (dlog10m * np_log lib 10)) masked))
               (VNum (Qpower_positive nbar 2))).
    + reflexivity.
    + apply exec_Ret.
    + rewrite (exec_pow fuel _ 2 st (VNum nbar) Hnbar). reflexivity.
  - unfold masked. rewrite length_zip_with. unfold bound. rewrite length_map. lia.
  - intros j i r m a b c row e Hj Hi Ha Hb Hc Hrow He.
    eapply (mask_rows_lookup Qltb Ms bound full masked Hmask j i
              (virial_mass_of rho_mean delta_halo r) m).
    + unfold bound. rewrite list_lookup_fmap, Hj. reflexivity.
    + exact Hi.
    + eapply cs_integrand_lookup; eauto.
Qed.

End CentralSatellite.

(** The term as the specification words it: the same integral, the bound
    taken at half the separation. *)
Section AsSpecified.

Variable lib : Lib.

Local Open Scope prog_scope.

Definition _corr_gg_1h_cs_as_specified : prog value :=
  rho ← HaloModel.profile_of lib "rho" "r";
  r ← self "r" [/] num 2;
  mmin ← HaloModel.virial_mass r "mean_density";
  integ ← self "dndm" [*] num 2 [*] self "n_cen" [*] self "n_sat"
            [*] Ret rho [*] self "M";
  integ ← HaloModel.mask_below mmin integ;
  d ← self "dlog10m";
  step ← lift (as_num d);
  c ← HaloModel.trapz integ (step * np_log lib 10);
  Ret c [/] self "mean_gal_den" [^] 2.

End AsSpecified.

(** ** The reference branch on a worked instance *)

(** The module with the accelerated kernels switched off. *)
Definition reference_globals : globals := {| USEFORT := false |}.

(** The worked instance at the single separation [r = 0.3]: its masses are
    18.98 and 18.99, the mean density is 1 and the overdensity 200, so the
    bound at [r] is about 22.6 and the bound at [r / 2] about 2.8. *)
Definition close_pair_instance : inst :=
  with_params (<["rmin" := VArr [3 # 10]]> (params Demo.new_instance)) Demo.new_instance.

(** The same instance after one evaluation of the term. *)
Definition close_pair_warm : inst :=
  match exec Demo.lib reference_globals Demo.MassFunction 9
          (HaloModel._corr_gg_1h_cs Demo.lib reference_globals)
          close_pair_instance with
  | Some (_, st) => st
  | None => close_pair_instance
  end.

(** C7 as stated fails: at [r = 0.3] both masses lie above the bound at
    half the separation and their integrand entries are positive, yet the
    code masks them (they lie below the bound at [r]) and returns 0, where
    the term masked at [r / 2] is not 0. *)
Lemma corr_gg_1h_cs_half_separation_counterexample :
  exists Ms x y,
    cache close_pair_warm !! "r" = Some (VArr [3 # 10]) /\
    cache close_pair_warm !! "M" = Some (VArr Ms) /\
    cache close_pair_warm !! "mean_density" = Some (VNum 1) /\
    cache close_pair_warm !! "delta_halo" = Some (VNum 200) /\
    Forall (fun m => Qltb m (virial_mass_of 1 200 ((3 # 10) / 2)) = false
                     /\ Qltb m (virial_mass_of 1 200 (3 # 10)) = true) Ms /\
    option_map fst
      (exec Demo.lib reference_globals Demo.MassFunction 9
         (HaloModel._corr_gg_1h_cs Demo.lib reference_globals) close_pair_instance)
      = Some (Ok (VArr [x])) /\
    option_map fst
      (exec Demo.lib reference_globals Demo.MassFunction 9
         (_corr_gg_1h_cs_as_specified Demo.lib) close_pair_instance)
      = Some (Ok (VArr [y])) /\
    x == 0 /\ 0 < y.
Proof.
  eexists. eexists. eexists.
  do 4 (split; [vm_compute; reflexivity|]).
  split; [repeat constructor|].
  split; [vm_compute; reflexivity|].
  split; [vm_compute; reflexivity|].
  split; reflexivity.
Qed.

Lemma corr_gg_1h_cs_masks_below_virial_mass_witness :
  exists prof rs Ms dn nc ns rho rho_mean delta_halo dlog10m nbar,
    (USEFORT reference_globals = false /\
     holds Demo.lib reference_globals Demo.MassFunction 9 close_pair_warm "profile" prof /\
     holds Demo.lib reference_globals Demo.MassFunction 9 close_pair_warm "r" (VArr rs) /\
     holds Demo.lib reference_globals Demo.MassFunction 9 close_pair_warm "M" (VArr Ms) /\
     holds Demo.lib reference_globals Demo.MassFunction 9 close_pair_warm "dndm" (VArr dn) /\
     holds Demo.lib reference_globals Demo.MassFunction 9 close_pair_warm "n_cen" (VArr nc) /\
     holds Demo.lib reference_globals Demo.MassFunction 9 close_pair_warm "n_sat" (VArr ns) /\
     holds Demo.lib reference_globals Demo.MassFunction 9 close_pair_warm
       "mean_density" (VNum rho_mean) /\
     holds Demo.lib reference_globals Demo.MassFunction 9 close_pair_warm
       "delta_halo" (VNum delta_halo) /\
     holds Demo.lib reference_globals Demo.MassFunction 9 close_pair_warm
       "dlog10m" (VNum dlog10m) /\
     holds Demo.lib reference_globals Demo.MassFunction 9 close_pair_warm
       "mean_gal_den" (VNum nbar) /\
     call_method Demo.lib prof "rho" [VArr rs; VArr Ms] [("norm", VStr "m")]
       = Ok (VMat rho) /\
     length dn = length Ms /\ length nc = length Ms /\ length ns = length Ms /\
     length rho = length rs /\
     Forall (fun row => length row = length Ms) rho) /\
    exists masked,
      exec Demo.lib reference_globals Demo.MassFunction 9
        (HaloModel._corr_gg_1h_cs Demo.lib reference_globals) close_pair_warm
      = Some (Ok (VArr (map (fun x => x / Qpower_positive nbar 2)
                          (map (fun row => trapz_row row (dlog10m * np_log Demo.lib 10))
                               masked))), close_pair_warm) /\
      length masked = length rs /\
      forall j i r m a b c row e,
        rs !! j = Some r -> Ms !! i = Some m ->
        dn !! i = Some a -> nc !! i = Some b -> ns !! i = Some c ->
        rho !! j = Some row -> row !! i = Some e ->
        masked !! j ≫= (fun row => row !! i)
        = Some (if Qltb m (virial_mass_of rho_mean delta_halo r)
                then 0 else a * 2 * b * c * e * m).
Proof.
  assert (H : exists prof rs Ms dn nc ns rho rho_mean delta_halo dlog10m nbar,
    USEFORT reference_globals = false /\
    holds Demo.lib reference_globals Demo.MassFunction 9 close_pair_warm "profile" prof /\
    holds Demo.lib reference_globals Demo.MassFunction 9 close_pair_warm "r" (VArr rs) /\
    holds Demo.lib reference_globals Demo.MassFunction 9 close_pair_warm "M" (VArr Ms) /\
    holds Demo.lib reference_globals Demo.MassFunction 9 close_pair_warm "dndm" (VArr dn) /\
    holds Demo.lib reference_globals Demo.MassFunction 9 close_pair_warm "n_cen" (VArr nc) /\
    holds Demo.lib reference_globals Demo.MassFunction 9 close_pair_warm "n_sat" (VArr ns) /\
    holds Demo.lib reference_globals Demo.MassFunction 9 close_pair_warm
      "mean_density" (VNum rho_mean) /\
    holds Demo.lib reference_globals Demo.MassFunction 9 close_pair_warm
      "delta_halo" (VNum delta_halo) /\
    holds Demo.lib reference_globals Demo.MassFunction 9 close_pair_warm
      "dlog10m" (VNum dlog10m) /\
    holds Demo.lib reference_globals Demo.MassFunction 9 close_pair_warm
      "mean_gal_den" (VNum nbar) /\
    call_method Demo.lib prof "rho" [VArr rs; VArr Ms] [("norm", VStr "m")]
      = Ok (VMat rho) /\
    length dn = length Ms /\ length nc = length Ms /\ length ns = length Ms /\
    length rho = length rs /\
    Forall (fun row => length row = length Ms) rho).
  { do 11 eexists.
    split; [reflexivity|].
    do 6 (split; [eapply holds_cached; vm_compute; reflexivity|]).
    do 2 (split; [eapply holds_cached; vm_compute; reflexivity|]).
    split; [eapply holds_parameter; vm_compute; reflexivity|].
    split; [eapply holds_cached; vm_compute; reflexivity|].
    split; [vm_compute; reflexivity|].
    do 4 (split; [reflexivity|]).
    repeat constructor. }
  destruct H as (prof & rs & Ms & dn & nc & ns & rho & rho_mean & delta_halo & dlog10m
                 & nbar & H).
  exists prof, rs, Ms, dn, nc, ns, rho, rho_mean, delta_halo, dlog10m, nbar.
  split; [exact H|].
  destruct H as (Hoff & Hprof & Hr & HM & Hdn & Hnc & Hns & Hdens & Hdh & Hdl
                 & Hnbar & Hcall & Ldn & Lnc & Lns & Lrho & Hrows).
  exact (corr_gg_1h_cs_masks_below_virial_mass Demo.lib reference_globals
           Demo.MassFunction 9 close_pair_warm prof rs Ms dn nc ns rho rho_mean
           delta_halo dlog10m nbar Hoff Hprof Hr HM Hdn Hnc Hns Hdens Hdh Hdl Hnbar
           Hcall Ldn Lnc Lns Lrho Hrows).
Defined.

(** * The one-halo matter terms *)

(** [dndm * M ** 3 * w], one row per row of [w]. *)
Definition mm_integrand (dndm M : list Q) (w : list (list Q)) : list (list Q) :=
  map (fun row =>
         zip_with Qmult
           (zip_with Qmult dndm (map (fun x => Qpower_positive x 3) M)) row)
      w.

Lemma mm_integrand_shape dn Ms w :
  length dn = length Ms ->
  Forall (fun row => length row = length Ms) w ->
  length (mm_integrand dn Ms w) = length w /\
  Forall (fun row => length row = length Ms) (mm_integrand dn Ms w).
Proof.
  intros Ldn Hw. unfold mm_integrand. split; [apply length_map|].
  apply Forall_map. eapply Forall_impl; [exact Hw|].
  intros row Hrow. simpl in *. rewrite !length_zip_with, length_map. lia.
Qed.

Lemma mm_integrand_lookup dn Ms w j i a m row e :
  dn !! i = Some a -> Ms !! i = Some m -> w !! j = Some row -> row !! i = Some e ->
  mm_integrand dn Ms w !! j ≫= (fun row => row !! i)
  = Some (a * Qpower_positive m 3 * e).
Proof.
  intros Ha Hm Hrow He. unfold mm_integrand.
  rewrite list_lookup_fmap, Hrow. simpl.
  rewrite !lookup_zip_with, list_lookup_fmap, Ha, Hm, He. reflexivity.
Qed.

Section MatterTerms.

Variable lib : Lib.
Variable g : globals.
Variable MassFunction : string -> option member.

Local Abbreviation exec := (exec lib g MassFunction).
Local Abbreviation holds := (holds lib g MassFunction).

Local Open Scope prog_scope.

(** [self.dndm * self.M ** 3 * w] for a matrix [w]. *)
Lemma exec_mm_integrand fuel st dn Ms w :
  holds fuel st "dndm" (VArr dn) -> holds fuel st "M" (VArr Ms) ->
  length dn = length Ms ->
  Forall (fun row => length row = length Ms) w ->
  exec fuel (self "dndm" [*] self "M" [^] 3 [*] Ret (VMat w)) st
  = Some (Ok (VMat (mm_integrand dn Ms w)), st).
Proof.
  intros Hdn HM Ldn Hw.
  rewrite (exec_pbinop lib g MassFunction fuel np_mul _ _ st
             (VArr (zip_with Qmult dn (map (fun x => Qpower_positive x 3) Ms)))
             (VMat w)).
  - rewrite np_mul_arr_mat; [reflexivity|].
    eapply Forall_impl; [exact Hw|]. intros row Hrow. simpl in *.
    rewrite length_zip_with, length_map. lia.
  - rewrite (exec_pbinop lib g MassFunction fuel np_mul _ _ st (VArr dn)
               (VArr (map (fun x => Qpower_positive x 3) Ms))).
    + rewrite np_mul_arr_arr; [reflexivity|]. rewrite length_map. exact Ldn.
    + exact Hdn.
    + rewrite (exec_pow lib g MassFunction fuel _ 3 st (VArr Ms) HM). reflexivity.
  - apply exec_Ret.
Qed.

(** The mask, the integral over the masses and the normalisation that end
    both matter terms. *)
Lemma exec_mm_masked_integral fuel st Ms bound full rho_mean dlog10m :
  holds fuel st "M" (VArr Ms) ->
  holds fuel st "dlog10m" (VNum dlog10m) ->
  holds fuel st "mean_density" (VNum rho_mean) ->
  length full = length bound ->
  Forall (fun row => length row = length Ms) full ->
  exec fuel
    (integrand ← HaloModel.mask_below (VArr bound) (VMat full);
     d ← self "dlog10m";
     step ← lift (as_num d);
     t ← HaloModel.trapz integrand (np_log lib 10 * step);
     Ret t [/] self "mean_density" [^] 2) st
  = Some (Ok (VArr (map (fun x => x / Qpower_positive rho_mean 2)
                      (map (fun row => trapz_row row (np_log lib 10 * dlog10m))
                           (zip_with
                              (fun b row =>
                                 zip_with (fun m x => if Qltb m b then 0 else x) Ms row)
                              bound full)))), st).
Proof.
  intros HM Hdl Hdens Lfull Hrows.
  set (masked := zip_with (fun b row =>
                             zip_with (fun m x => if Qltb m b then 0 else x) Ms row)
                   bound full).
  rewrite (exec_bind_Ok lib g MassFunction fuel _ _ _ _ st (VMat masked) st).
  2:{ unfold HaloModel.mask_below.
      rewrite (exec_bind_Ok lib g MassFunction fuel _ _ _ _ st _ st HM).
      simpl rbind. rewrite (mask_rows_shape Qltb Ms bound full Lfull Hrows).
      apply exec_Ret. }
  rewrite (exec_bind_Ok lib g MassFunction fuel _ _ _ _ st _ st Hdl).
  rewrite exec_bind, exec_lift. simpl as_num. cbv beta iota.
  rewrite (exec_bind_Ok lib g MassFunction fuel _ _ _ _ st
             (VArr (map (fun row => trapz_row row (np_log lib 10 * dlog10m)) masked)) st).
  2:{ unfold HaloModel.trapz. apply exec_lift. }
  rewrite (exec_pbinop lib g MassFunction fuel np_div _ _ st
             (VArr (map (fun row => trapz_row row (np_log lib 10 * dlog10m)) masked))
             (VNum (Qpower_positive rho_mean 2))).
  - reflexivity.
  - apply exec_Ret.
  - rewrite (exec_pow lib g MassFunction fuel _ 2 st (VNum rho_mean) Hdens). reflexivity.
Qed.

(** X1.  With a profile that has an exact self-convolution, [_corr_mm_1h]
    integrates [dn/dM * M^3 * lam(r, M)] over the masses and divides by the
    square of the mean density; for every separation [r] the entries of the
    masses below [4 pi (r/2)^3 mean_density delta_halo / 3] are set to zero:
    here the bound is taken at half the separation. *)
Theorem corr_mm_1h_masks_below_half_separation
    fuel st prof flag rs Ms dn lam rho_mean delta_halo dlog10m :
  holds fuel st "profile" prof ->
  attribute lib prof "has_lam" = Ok flag ->
  truthy flag = Ok true ->
  holds fuel st "r" (VArr rs) ->
  holds fuel st "M" (VArr Ms) ->
  holds fuel st "dndm" (VArr dn) ->
  holds fuel st "mean_density" (VNum rho_mean) ->
  holds fuel st "delta_halo" (VNum delta_halo) ->
  holds fuel st "dlog10m" (VNum dlog10m) ->
  call_method lib prof "lam" [VArr rs; VArr Ms] [("norm", VStr "m")] = Ok (VMat lam) ->
  length dn = length Ms ->
  length lam = length rs ->
  Forall (fun row => length row = length Ms) lam ->
  exists masked,
    exec fuel (HaloModel._corr_mm_1h lib) st
    = Some (Ok (VArr (map (fun x => x / Qpower_positive rho_mean 2)
                        (map (fun row => trapz_row row (np_log lib 10 * dlog10m))
                             masked))), st) /\
    length masked = length rs /\
    forall j i r m a row e,
      rs !! j = Some r -> Ms !! i = Some m -> dn !! i = Some a ->
      lam !! j = Some row -> row !! i = Some e ->
      masked !! j ≫= (fun row => row !! i)
      = Some (if Qltb m (virial_mass_of rho_mean delta_halo (r / 2))
              then 0 else a * Qpower_positive m 3 * e).
Proof.
  intros Hprof Hflag Htrue Hr HM Hdn Hdens Hdh Hdl Hcall Ldn Llam Hrows.
  set (bound := map (virial_mass_of rho_mean delta_halo) (map (fun x => x / 2) rs)).
  set (full := mm_integrand dn Ms lam).
  destruct (mm_integrand_shape dn Ms lam Ldn Hrows) as [Lfull Hfull].
  fold full in Lfull, Hfull.
  assert (Lb : length full = length bound).
  { unfold bound. rewrite !length_map. lia. }
  exists (zip_with (fun b row => zip_with (fun m x => if Qltb m b then 0 else x) Ms row)
            bound full).
  split; [|split].
  - unfold HaloModel._corr_mm_1h.
    rewrite (exec_bind_Ok lib g MassFunction fuel _ _ _ _ st true st).
    2:{ unfold HaloModel.has_lam.
        rewrite (exec_bind_Ok lib g MassFunction fuel _ _ _ _ st _ st Hprof).
        rewrite exec_bind, exec_lift, Hflag. simpl. rewrite Htrue. apply exec_Ret. }
    rewrite (exec_bind_Ok lib g MassFunction fuel _ _ _ _ st (VMat lam) st).
    2:{ rewrite (exec_profile_of lib g MassFunction fuel st "lam" "r" prof
                   (VArr rs) (VArr Ms) Hprof Hr HM).
        rewrite Hcall. reflexivity. }
    rewrite (exec_bind_Ok lib g MassFunction fuel _ _ _ _ st _ st
               (exec_mm_integrand fuel st dn Ms lam Hdn HM Ldn Hrows)).
    rewrite (exec_bind_Ok lib g MassFunction fuel _ _ _ _ st
               (VArr (map (fun x => x / 2) rs)) st).
    2:{ rewrite (exec_pbinop lib g MassFunction fuel np_div _ _ st (VArr rs) (VNum 2));
          [reflexivity | exact Hr | apply exec_Ret]. }
    rewrite (exec_bind_Ok lib g MassFunction fuel _ _ _ _ st _ st
               (exec_virial_mass lib g MassFunction fuel st _ "mean_density"
                  rho_mean delta_halo Hdens Hdh)).
    fold bound. fold full.
    apply (exec_mm_masked_integral fuel st Ms bound full rho_mean dlog10m
             HM Hdl Hdens Lb Hfull).
  - rewrite length_zip_with. unfold bound. rewrite !length_map. lia.
  - intros j i r m a row e Hj Hi Ha Hrow He.
    eapply (mask_rows_lookup Qltb Ms bound full _
              (mask_rows_shape Qltb Ms bound full Lb Hfull) j i
              (virial_mass_of rho_mean delta_halo (r / 2)) m).
    + unfold bound. rewrite !list_lookup_fmap, Hj. reflexivity.
    + exact Hi.
    + eapply mm_integrand_lookup; eauto.
Qed.

(** X2.  [_power_mm_1h] integrates [dn/dM * M^3 * u(k, M)^2] over the masses
    and divides by the square of the mean density; for every wavenumber [k]
    the entries of the masses below [4 pi (pi/k)^3 mean_density delta_halo / 3]
    are set to zero. *)
Theorem power_mm_1h_masks_below_half_wavelength
    fuel st prof ks Ms dn u rho_mean delta_halo dlog10m :
  holds fuel st "profile" prof ->
  holds fuel st "k" (VArr ks) ->
  holds fuel st "M" (VArr Ms) ->
  holds fuel st "dndm" (VArr dn) ->
  holds fuel st "mean_density" (VNum rho_mean) ->
  holds fuel st "delta_halo" (VNum delta_halo) ->
  holds fuel st "dlog10m" (VNum dlog10m) ->
  call_method lib prof "u" [VArr ks; VArr Ms] [("norm", VStr "m")] = Ok (VMat u) ->
  length dn = length Ms ->
  length u = length ks ->
  Forall (fun row => length row = length Ms) u ->
  exists masked,
    exec fuel (HaloModel._power_mm_1h lib) st
    = Some (Ok (VArr (map (fun x => x / Qpower_positive rho_mean 2)
                        (map (fun row => trapz_row row (np_log lib 10 * dlog10m))
                             masked))), st) /\
    length masked = length ks /\
    forall j i k m a row e,
      ks !! j = Some k -> Ms !! i = Some m -> dn !! i = Some a ->
      u !! j = Some row -> row !! i = Some e ->
      masked !! j ≫= (fun row => row !! i)
      = Some (if Qltb m (virial_mass_of rho_mean delta_halo (np_pi / k))
              then 0 else a * Qpower_positive m 3 * Qpower_positive e 2).
Proof.
  intros Hprof Hk HM Hdn Hdens Hdh Hdl Hcall Ldn Lu Hrows.
  set (u2 := map (map (fun x => Qpower_positive x 2)) u).
  assert (Hrows2 : Forall (fun row => length row = length Ms) u2).
  { unfold u2. apply Forall_map. eapply Forall_impl; [exact Hrows|].
    intros row Hrow. simpl in *. rewrite length_map. exact Hrow. }
  set (bound := map (virial_mass_of rho_mean delta_halo) (map (Qdiv np_pi) ks)).
  set (full := mm_integrand dn Ms u2).
  destruct (mm_integrand_shape dn Ms u2 Ldn Hrows2) as [Lfull Hfull].
  fold full in Lfull, Hfull.
  assert (Lb : length full = length bound).
  { unfold bound, u2 in *. rewrite !length_map in *. lia. }
  exists (zip_with (fun b row => zip_with (fun m x => if Qltb m b then 0 else x) Ms row)
            bound full).
  split; [|split].
  - unfold HaloModel._power_mm_1h.
    rewrite (exec_bind_Ok lib g MassFunction fuel _ _ _ _ st (VMat u) st).
    2:{ rewrite (exec_profile_of lib g MassFunction fuel st "u" "k" prof
                   (VArr ks) (VArr Ms) Hprof Hk HM).
        rewrite Hcall. reflexivity. }
    rewrite (exec_bind_Ok lib g MassFunction fuel _ _ _ _ st (VMat full) st).
    2:{ rewrite (exec_pbinop lib g MassFunction fuel np_mul _ _ st
                   (VArr (zip_with Qmult dn (map (fun x => Qpower_positive x 3) Ms)))
                   (VMat u2)).
        - rewrite np_mul_arr_mat; [reflexivity|].
          eapply Forall_impl; [exact Hrows2|]. intros row Hrow. simpl in *.
          rewrite length_zip_with, length_map. lia.
        - rewrite (exec_pbinop lib g MassFunction fuel np_mul _ _ st (VArr dn)
                     (VArr (map (fun x => Qpower_positive x 3) Ms))).
          + rewrite np_mul_arr_arr; [reflexivity|]. rewrite length_map. exact Ldn.
          + exact Hdn.
          + rewrite (exec_pow lib g MassFunction fuel _ 3 st (VArr Ms) HM). reflexivity.
        - rewrite (exec_pow lib g MassFunction fuel _ 2 st (VMat u)); [reflexivity|].
          apply exec_Ret. }
    rewrite (exec_bind_Ok lib g MassFunction fuel _ _ _ _ st
               (VArr (map (Qdiv np_pi) ks)) st).
    2:{ rewrite (exec_pbinop lib g MassFunction fuel np_div _ _ st (VNum np_pi) (VArr ks));
          [reflexivity | apply exec_Ret | exact Hk]. }
    rewrite (exec_bind_Ok lib g MassFunction fuel _ _ _ _ st _ st
               (exec_virial_mass lib g MassFunction fuel st _ "mean_density"
                  rho_mean delta_halo Hdens Hdh)).
    fold bound.
    apply (exec_mm_masked_integral fuel st Ms bound full rho_mean dlog10m
             HM Hdl Hdens Lb Hfull).
  - rewrite length_zip_with. unfold bound, u2 in *. rewrite !length_map in *. lia.
  - intros j i k m a row e Hj Hi Ha Hrow He.
    eapply (mask_rows_lookup Qltb Ms bound full _
              (mask_rows_shape Qltb Ms bound full Lb Hfull) j i
              (virial_mass_of rho_mean delta_halo (np_pi / k)) m).
    + unfold bound. rewrite !list_lookup_fmap, Hj. reflexivity.
    + exact Hi.
    + eapply mm_integrand_lookup; eauto.
      * unfold u2. rewrite list_lookup_fmap, Hrow. reflexivity.
      * rewrite list_lookup_fmap, He. reflexivity.
Qed.

End MatterTerms.

(** The worked instance after one evaluation of both matter terms. *)
Definition matter_warm : inst :=
  match exec Demo.lib module_globals Demo.MassFunction 9
          (pbind (self "_corr_mm_1h") (fun _ => self "_power_mm_1h"))
          Demo.new_instance with
  | Some (_, st) => st
  | None => Demo.new_instance
  end.

Ltac holds_on_cache := eapply holds_cached; vm_compute; reflexivity.
Ltac holds_on_params := eapply holds_parameter; vm_compute; reflexivity.

Lemma corr_mm_1h_masks_below_half_separation_witness :
  exists prof flag rs Ms dn lam rho_mean delta_halo dlog10m,
    (holds Demo.lib module_globals Demo.MassFunction 9 matter_warm "profile" prof /\
     attribute Demo.lib prof "has_lam" = Ok flag /\
     truthy flag = Ok true /\
     holds Demo.lib module_globals Demo.MassFunction 9 matter_warm "r" (VArr rs) /\
     holds Demo.lib module_globals Demo.MassFunction 9 matter_warm "M" (VArr Ms) /\
     holds Demo.lib module_globals Demo.MassFunction 9 matter_warm "dndm" (VArr dn) /\
     holds Demo.lib module_globals Demo.MassFunction 9 matter_warm
       "mean_density" (VNum rho_mean) /\
     holds Demo.lib module_globals Demo.MassFunction 9 matter_warm
       "delta_halo" (VNum delta_halo) /\
     holds Demo.lib module_globals Demo.MassFunction 9 matter_warm
       "dlog10m" (VNum dlog10m) /\
     call_method Demo.lib prof "lam" [VArr rs; VArr Ms] [("norm", VStr "m")]
       = Ok (VMat lam) /\
     length dn = length Ms /\
     length lam = length rs /\
     Forall (fun row => length row = length Ms) lam) /\
    exists masked,
      exec Demo.lib module_globals Demo.MassFunction 9
        (HaloModel._corr_mm_1h Demo.lib) matter_warm
      = Some (Ok (VArr (map (fun x => x / Qpower_positive rho_mean 2)
                          (map (fun row => trapz_row row (np_log Demo.lib 10 * dlog10m))
                               masked))), matter_warm) /\
      length masked = length rs /\
      forall j i r m a row e,
        rs !! j = Some r -> Ms !! i = Some m -> dn !! i = Some a ->
        lam !! j = Some row -> row !! i = Some e ->
        masked !! j ≫= (fun row => row !! i)
        = Some (if Qltb m (virial_mass_of rho_mean delta_halo (r / 2))
                then 0 else a * Qpower_positive m 3 * e).
Proof.
  assert (H : exists prof flag rs Ms dn lam rho_mean delta_halo dlog10m,
    holds Demo.lib module_globals Demo.MassFunction 9 matter_warm "profile" prof /\
    attribute Demo.lib prof "has_lam" = Ok flag /\
    truthy flag = Ok true /\
    holds Demo.lib module_globals Demo.MassFunction 9 matter_warm "r" (VArr rs) /\
    holds Demo.lib module_globals Demo.MassFunction 9 matter_warm "M" (VArr Ms) /\
    holds Demo.lib module_globals Demo.MassFunction 9 matter_warm "dndm" (VArr dn) /\
    holds Demo.lib module_globals Demo.MassFunction 9 matter_warm
      "mean_density" (VNum rho_mean) /\
    holds Demo.lib module_globals Demo.MassFunction 9 matter_warm
      "delta_halo" (VNum delta_halo) /\
    holds Demo.lib module_globals Demo.MassFunction 9 matter_warm
      "dlog10m" (VNum dlog10m) /\
    call_method Demo.lib prof "lam" [VArr rs; VArr Ms] [("norm", VStr "m")]
      = Ok (VMat lam) /\
    length dn = length Ms /\
    length lam = length rs /\
    Forall (fun row => length row = length Ms) lam).
  { do 9 eexists.
    split; [holds_on_cache|].
    split; [vm_compute; reflexivity|].
    split; [reflexivity|].
    do 5 (split; [holds_on_cache|]).
    split; [holds_on_params|].
    split; [vm_compute; reflexivity|].
    do 2 (split; [reflexivity|]).
    repeat constructor. }
  destruct H as (prof & flag & rs & Ms & dn & lam & rho_mean & delta_halo & dlog10m & H).
  exists prof, flag, rs, Ms, dn, lam, rho_mean, delta_halo, dlog10m.
  split; [exact H|].
  destruct H as (Hprof & Hflag & Htrue & Hr & HM & Hdn & Hdens & Hdh & Hdl & Hcall
                 & Ldn & Llam & Hrows).
  exact (corr_mm_1h_masks_below_half_separation Demo.lib module_globals
           Demo.MassFunction 9 matter_warm prof flag rs Ms dn lam rho_mean delta_halo
           dlog10m Hprof Hflag Htrue Hr HM Hdn Hdens Hdh Hdl Hcall Ldn Llam Hrows).
Defined.

Lemma power_mm_1h_masks_below_half_wavelength_witness :
  exists prof ks Ms dn u rho_mean delta_halo dlog10m,
    (holds Demo.lib module_globals Demo.MassFunction 9 matter_warm "profile" prof /\
     holds Demo.lib module_globals Demo.MassFunction 9 matter_warm "k" (VArr ks) /\
     holds Demo.lib module_globals Demo.MassFunction 9 matter_warm "M" (VArr Ms) /\
     holds Demo.lib module_globals Demo.MassFunction 9 matter_warm "dndm" (VArr dn) /\
     holds Demo.lib module_globals Demo.MassFunction 9 matter_warm
       "mean_density" (VNum rho_mean) /\
     holds Demo.lib module_globals Demo.MassFunction 9 matter_warm
       "delta_halo" (VNum delta_halo) /\
     holds Demo.lib module_globals Demo.MassFunction 9 matter_warm
       "dlog10m" (VNum dlog10m) /\
     call_method Demo.lib prof "u" [VArr ks; VArr Ms] [("norm", VStr "m")]
       = Ok (VMat u) /\
     length dn = length Ms /\
     length u = length ks /\
     Forall (fun row => length row = length Ms) u) /\
    exists masked,
      exec Demo.lib module_globals Demo.MassFunction 9
        (HaloModel._power_mm_1h Demo.lib) matter_warm
      = Some (Ok (VArr (map (fun x => x / Qpower_positive rho_mean 2)
                          (map (fun row => trapz_row row (np_log Demo.lib 10 * dlog10m))
                               masked))), matter_warm) /\
      length masked = length ks /\
      forall j i k m a row e,
        ks !! j = Some k -> Ms !! i = Some m -> dn !! i = Some a ->
        u !! j = Some row -> row !! i = Some e ->
        masked !! j ≫= (fun row => row !! i)
        = Some (if Qltb m (virial_mass_of rho_mean delta_halo (np_pi / k))
                then 0 else a * Qpower_positive m 3 * Qpower_positive e 2).
Proof.
  assert (H : exists prof ks Ms dn u rho_mean delta_halo dlog10m,
    holds Demo.lib module_globals Demo.MassFunction 9 matter_warm "profile" prof /\
    holds Demo.lib module_globals Demo.MassFunction 9 matter_warm "k" (VArr ks) /\
    holds Demo.lib module_globals Demo.MassFunction 9 matter_warm "M" (VArr Ms) /\
    holds Demo.lib module_globals Demo.MassFunction 9 matter_warm "dndm" (VArr dn) /\
    holds Demo.lib module_globals Demo.MassFunction 9 matter_warm
      "mean_density" (VNum rho_mean) /\
    holds Demo.lib module_globals Demo.MassFunction 9 matter_warm
      "delta_halo" (VNum delta_halo) /\
    holds Demo.lib module_globals Demo.MassFunction 9 matter_warm
      "dlog10m" (VNum dlog10m) /\
    call_method Demo.lib prof "u" [VArr ks; VArr Ms] [("norm", VStr "m")]
      = Ok (VMat u) /\
    length dn = length Ms /\
    length u = length ks /\
    Forall (fun row => length row = length Ms) u).
  { do 8 eexists.
    do 6 (split; [holds_on_cache|]).
    split; [holds_on_params|].
    split; [vm_compute; reflexivity|].
    do 2 (split; [reflexivity|]).
    repeat constructor. }
  destruct H as (prof & ks & Ms & dn & u & rho_mean & delta_halo & dlog10m & H).
  exists prof, ks, Ms, dn, u, rho_mean, delta_halo, dlog10m.
  split; [exact H|].
  destruct H as (Hprof & Hk & HM & Hdn & Hdens & Hdh & Hdl & Hcall & Ldn & Lu & Hrows).
  exact (power_mm_1h_masks_below_half_wavelength Demo.lib module_globals
           Demo.MassFunction 9 matter_warm prof ks Ms dn u rho_mean delta_halo
           dlog10m Hprof Hk HM Hdn Hdens Hdh Hdl Hcall Ldn Lu Hrows).
Defined.

(** * The one-halo galaxy term for a profile without self-convolution *)

Section WithoutSelfConvolution.

Variable lib : Lib.
Variable g : globals.
Variable MassFunction : string -> option member.

Local Abbreviation exec := (exec lib g MassFunction).
Local Abbreviation get := (get lib g MassFunction).

Local Open Scope prog_scope.

(** Reading a name that neither class defines and the instance does not
    hold. *)
Lemma exec_self_undefined fuel n st :
  MassFunction n = None ->
  assoc n (HaloModel.class_dict lib g) = None ->
  attrs st !! n = None ->
  exec fuel (self n) st = Some (Raise (AttributeError n), st).
Proof.
  intros Hbase Hclass Hattr. unfold self. rewrite exec_GetAttr.
  unfold lookup_member. rewrite Hclass, Hbase, Hattr. reflexivity.
Qed.

(** X3.  When the profile has no exact self-convolution ([has_lam] is false),
    [corr_gal_1h] reads [self._corr_gal_1h_cs], a name that [HaloModel] does
    not define (its central-satellite term is called [_corr_gg_1h_cs]):
    unless the inherited class or the instance provides that name, the read
    raises [AttributeError]; the instance is left as the read of the
    profile left it, with nothing cached for [corr_gal_1h], and [corr_gal]
    raises the same error. *)
Theorem corr_gal_1h_without_lam_raises fuel st prof flag st1 :
  MassFunction "_corr_gal_1h_cs" = None ->
  attrs st !! "_corr_gal_1h_cs" = None ->
  exec fuel (self "profile") st = Some (Ok prof, st1) ->
  attribute lib prof "has_lam" = Ok flag ->
  truthy flag = Ok false ->
  cache st !! "corr_gal_1h" = None ->
  cache st !! "corr_gal" = None ->
  exec fuel (HaloModel.corr_gal_1h lib g) st
    = Some (Raise (AttributeError "_corr_gal_1h_cs"), st1) /\
  get (S fuel) "corr_gal_1h" st
    = Some (Raise (AttributeError "_corr_gal_1h_cs"), st1) /\
  get (S (S fuel)) "corr_gal" st
    = Some (Raise (AttributeError "_corr_gal_1h_cs"), st1).
Proof.
  intros Hbase Hattr Hprof Hflag Hfalse Hc1 Hc.
  pose proof (exec_eval lib g MassFunction _ _ _ _ _ _ Hprof) as Hev.
  destruct (eval_params lib g MassFunction _ _ _ _ _ Hev) as [_ Ha].
  assert (Hbody : exec fuel (HaloModel.corr_gal_1h lib g) st
                  = Some (Raise (AttributeError "_corr_gal_1h_cs"), st1)).
  { unfold HaloModel.corr_gal_1h.
    rewrite (exec_bind_Ok lib g MassFunction fuel _ _ _ _ st false st1).
    2:{ unfold HaloModel.has_lam.
        rewrite (exec_bind_Ok lib g MassFunction fuel _ _ _ _ st _ st1 Hprof).
        rewrite exec_bind, exec_lift, Hflag. simpl. rewrite Hfalse. apply exec_Ret. }
    unfold pbinop. rewrite exec_bind.
    rewrite (exec_self_undefined fuel "_corr_gal_1h_cs" st1 Hbase eq_refl);
      [reflexivity|].
    rewrite Ha. exact Hattr. }
  assert (Hget : get (S fuel) "corr_gal_1h" st
                 = Some (Raise (AttributeError "_corr_gal_1h_cs"), st1)).
  { unfold get, self. rewrite exec_GetAttr.
    assert (Hm : exists ps, lookup_member lib g MassFunction "corr_gal_1h"
                   = Some (cached_property ps (HaloModel.corr_gal_1h lib g)))
      by (eexists; reflexivity).
    destruct Hm as [ps ->]. rewrite Hc1, Hbody. reflexivity. }
  split; [exact Hbody|]. split; [exact Hget|].
  unfold get, self. rewrite exec_GetAttr.
  assert (Hm : lookup_member lib g MassFunction "corr_gal"
               = Some (cached_property ["corr_gal_1h"; "corr_gal_2h"] HaloModel.corr_gal))
    by reflexivity.
  rewrite Hm, Hc. unfold HaloModel.corr_gal at 1. unfold pbinop.
  rewrite exec_bind. fold (get (S fuel) "corr_gal_1h" st). rewrite Hget. reflexivity.
Qed.

End WithoutSelfConvolution.

(** The collaborators of the worked configuration with a profile that has
    no exact self-convolution. *)
Definition without_lam (lib : Lib) : Lib := {|
  np_log := np_log lib;
  np_log10 := np_log10 lib;
  np_exp := np_exp lib;
  pow10 := pow10 lib;
  simps := simps lib;
  spline := spline lib;
  minimize := minimize lib;
  call := call lib;
  instantiate := instantiate lib;
  call_method := call_method lib;
  attribute := fun obj a =>
    if String.eqb a "has_lam" then Ok (VBool false) else attribute lib obj a;
  issubclass_ := issubclass_ lib;
  str := str lib;
  type_of := type_of lib
|}.

Lemma corr_gal_1h_without_lam_raises_witness :
  exists prof st1,
    (Demo.MassFunction "_corr_gal_1h_cs" = None /\
     attrs Demo.new_instance !! "_corr_gal_1h_cs" = None /\
     exec (without_lam Demo.lib) module_globals Demo.MassFunction 9
       (self "profile") Demo.new_instance = Some (Ok prof, st1) /\
     attribute (without_lam Demo.lib) prof "has_lam" = Ok (VBool false) /\
     truthy (VBool false) = Ok false /\
     cache Demo.new_instance !! "corr_gal_1h" = None /\
     cache Demo.new_instance !! "corr_gal" = None) /\
    exec (without_lam Demo.lib) module_globals Demo.MassFunction 9
      (HaloModel.corr_gal_1h (without_lam Demo.lib) module_globals) Demo.new_instance
      = Some (Raise (AttributeError "_corr_gal_1h_cs"), st1) /\
    get (without_lam Demo.lib) module_globals Demo.MassFunction 10
      "corr_gal_1h" Demo.new_instance
      = Some (Raise (AttributeError "_corr_gal_1h_cs"), st1) /\
    get (without_lam Demo.lib) module_globals Demo.MassFunction 11
      "corr_gal" Demo.new_instance
      = Some (Raise (AttributeError "_corr_gal_1h_cs"), st1).
Proof.
  assert (Hok : match exec (without_lam Demo.lib) module_globals Demo.MassFunction 9
                        (self "profile") Demo.new_instance with
                | Some (Ok _, _) => true
                | _ => false
                end = true) by (vm_compute; reflexivity).
  destruct (exec (without_lam Demo.lib) module_globals Demo.MassFunction 9
              (self "profile") Demo.new_instance) as [[[prof|e] st1]|] eqn:E;
    try discriminate Hok.
  assert (Hflag : attribute (without_lam Demo.lib) prof "has_lam" = Ok (VBool false))
    by reflexivity.
  exists prof, st1.
  split; [repeat split; try reflexivity; exact Hflag|].
  exact (corr_gal_1h_without_lam_raises (without_lam Demo.lib) module_globals
           Demo.MassFunction 9 Demo.new_instance prof (VBool false) st1
           eq_refl eq_refl E Hflag eq_refl eq_refl eq_refl).
Defined.

(** * [update] and the solver *)

(** Two operations on the store with the same outcome on every store. *)
Definition same {A} (m m' : Op A) : Prop := forall h, m h = m' h.

Lemma same_refl {A} (m : Op A) : same m m.
Proof. intros h. reflexivity. Qed.

Lemma obind_same {A B} (m m' : Op A) (k k' : A -> Op B) :
  same m m' -> (forall a, same (k a) (k' a)) -> same (obind m k) (obind m' k').
Proof.
  intros Hm Hk h. unfold obind. rewrite (Hm h).
  destruct (m' h) as [[[a|e] h1]|]; [apply Hk | reflexivity | reflexivity].
Qed.

Lemma drive_same (f f' : Q -> Op Q) (m : minimizer) :
  (forall x, same (f x) (f' x)) -> same (drive f m) (drive f' m).
Proof.
  intros Hf. induction m as [x k IH|res]; simpl.
  - apply obind_same; [apply Hf | intros y; apply IH].
  - apply same_refl.
Qed.

Lemma assoc_None_cons {A} (m k : string) (v : A) rest :
  assoc m ((k, v) :: rest) = None -> m <> k /\ assoc m rest = None.
Proof.
  simpl. destruct (String.eqb m k) eqn:E; [discriminate|].
  intros H. split; [|exact H]. intros ->. rewrite String.eqb_refl in E. discriminate.
Qed.

Lemma value_eqb_VNone old : value_eqb old VNone = true -> old = VNone.
Proof. destruct old; simpl; try discriminate. reflexivity. Qed.

Section Parameters.

Variable lib : Lib.
Variable g : globals.
Variable MassFunction : string -> option member.
Variable inherited_depends : string -> string -> bool.

Local Abbreviation setattr := (setattr lib g MassFunction inherited_depends).
Local Abbreviation assign_all := (assign_all lib g MassFunction inherited_depends).
Local Abbreviation base_update := (base_update lib g MassFunction inherited_depends).

(** An assignment leaves the other parameters as they were. *)
Lemma setattr_params_ne n v st m :
  m <> n -> params (setattr n v st).2 !! m = params st !! m.
Proof.
  intros Hne. unfold setattr.
  destruct (lookup_member lib g MassFunction n) as [[ps body|validate|w]|]; simpl;
    try reflexivity.
  destruct (validate v) as [v'|e]; simpl; [|reflexivity].
  destruct (params st !! n) as [old|]; simpl.
  - destruct (value_eqb old v'); simpl; [reflexivity|].
    apply lookup_insert_ne. congruence.
  - apply lookup_insert_ne. congruence.
Qed.

Lemma assign_all_params_ne kwargs m : forall st,
  assoc m kwargs = None -> params (assign_all kwargs st).2 !! m = params st !! m.
Proof.
  induction kwargs as [|[k v] rest IH]; intros st Hm; simpl; [reflexivity|].
  apply assoc_None_cons in Hm as [Hne Hrest].
  pose proof (setattr_params_ne k v st m Hne) as Hs.
  destruct (setattr k v st) as [[u|e] st']; simpl in *.
  - rewrite IH; auto.
  - exact Hs.
Qed.

Lemma base_update_params_ne kwargs m st :
  assoc m kwargs = None -> params (base_update kwargs st).2 !! m = params st !! m.
Proof.
  intros Hm. unfold base_update.
  destruct (collect _); simpl; [|reflexivity].
  apply assign_all_params_ne. exact Hm.
Qed.

(** [self.ng = None] is always accepted and leaves [ng] unset. *)
Lemma setattr_ng_None st :
  (setattr "ng" VNone st).1 = Ok tt /\
  params (setattr "ng" VNone st).2 !! "ng" = Some VNone.
Proof.
  unfold setattr.
  assert (Hm : lookup_member lib g MassFunction "ng" = Some (parameter HaloModel.ng))
    by reflexivity.
  rewrite Hm. simpl.
  destruct (params st !! "ng") as [old|] eqn:E; simpl.
  - destruct (value_eqb old VNone) eqn:Eq; simpl.
    + split; [reflexivity|]. rewrite E. f_equal. apply value_eqb_VNone. exact Eq.
    + split; [reflexivity|]. apply lookup_insert_eq.
  - split; [reflexivity|]. apply lookup_insert_eq.
Qed.

(** A stored parameter reads as itself and the read changes nothing. *)
Lemma exec_self_ng fuel st v :
  params st !! "ng" = Some v ->
  exec lib g MassFunction fuel (self "ng") st = Some (Ok v, st).
Proof.
  intros Hv. unfold self. rewrite exec_GetAttr.
  assert (Hm : lookup_member lib g MassFunction "ng" = Some (parameter HaloModel.ng))
    by reflexivity.
  rewrite Hm, Hv. apply exec_Ret.
Qed.

Lemma exec_self_ng_inv fuel st r0 st' :
  exec lib g MassFunction fuel (self "ng") st = Some (r0, st') ->
  st' = st /\
  match r0 with
  | Ok v => params st !! "ng" = Some v
  | Raise _ => params st !! "ng" = None
  end.
Proof.
  unfold self. rewrite exec_GetAttr.
  assert (Hm : lookup_member lib g MassFunction "ng" = Some (parameter HaloModel.ng))
    by reflexivity.
  rewrite Hm. destruct (params st !! "ng") as [v|].
  - rewrite exec_Ret. intros [= <- <-]. auto.
  - intros [= <- <-]. auto.
Qed.

End Parameters.

Section UpdateAndSolver.

Variable lib : Lib.
Variable g : globals.
Variable MassFunction : string -> option member.
Variable inherited_depends : string -> string -> bool.

Local Abbreviation setattr := (setattr lib g MassFunction inherited_depends).
Local Abbreviation base_update := (base_update lib g MassFunction inherited_depends).
Local Abbreviation at_ := (at_ lib g MassFunction).
Local Abbreviation assign := (assign lib g MassFunction inherited_depends).
Local Abbreviation super_update := (super_update lib g MassFunction inherited_depends).
Local Abbreviation update_with := (update_with lib g MassFunction inherited_depends).
Local Abbreviation update := (update lib g MassFunction inherited_depends).
Local Abbreviation solver_setup := (solver_setup lib g MassFunction).
Local Abbreviation model := (model lib g MassFunction).
Local Abbreviation smooth_m_min := (smooth_m_min lib g MassFunction).
Local Abbreviation find_m_min_with :=
  (find_m_min_with lib g MassFunction inherited_depends).
Local Abbreviation _find_m_min := (_find_m_min lib g MassFunction inherited_depends).

(** An [update] that passes [hod_params] with a key ["M_min"], and no
    [ng], resets [ng] and hands the keywords to the inherited [update];
    the solver it was given is not called. *)
Lemma update_with_M_min find fuel l kwargs items :
  assoc "ng" kwargs = None ->
  assoc "hod_params" kwargs = Some (VDict items) ->
  has_key "M_min" items = true ->
  same (update_with find fuel l kwargs)
       (obind (assign l "ng" VNone) (fun _ => super_update l kwargs)).
Proof.
  intros Hng Hhp Hkey h. unfold update_with. rewrite Hng, Hhp.
  unfold contains. rewrite Hkey.
  unfold obind, olift, oret.
  destruct (assign l "ng" VNone h) as [[[u|e] h1]|] eqn:EA; try reflexivity.
  assert (H1 : exists st1, h1 !! l = Some st1 /\ params st1 !! "ng" = Some VNone).
  { unfold assign in EA. destruct (h !! l) as [st|]; [|discriminate].
    pose proof (setattr_ng_None lib g MassFunction inherited_depends st) as [_ Hp].
    destruct (setattr "ng" VNone st) as [r0 st'].
    injection EA as _ <-. exists st'. split; [apply lookup_insert_eq | exact Hp]. }
  destruct H1 as (st1 & Hl1 & Hp1).
  destruct (super_update l kwargs h1) as [[[u'|e] h2]|] eqn:ES; try reflexivity.
  assert (H2 : exists st2, h2 !! l = Some st2 /\ params st2 !! "ng" = Some VNone).
  { unfold super_update in ES. rewrite Hl1 in ES.
    pose proof (base_update_params_ne lib g MassFunction inherited_depends
                  kwargs "ng" st1 Hng) as Hp.
    destruct (base_update kwargs st1) as [r0 st'].
    injection ES as _ <-. exists st'. split; [apply lookup_insert_eq|].
    simpl in Hp. rewrite Hp. exact Hp1. }
  destruct H2 as (st2 & Hl2 & Hp2).
  unfold at_. rewrite Hl2.
  rewrite (exec_self_ng lib g MassFunction fuel st2 VNone Hp2).
  simpl. rewrite (insert_id h2 l st2 Hl2). destruct u'. reflexivity.
Qed.


(** After such an [update] has succeeded, [ng] is unset. *)
Lemma reset_then_super_update_ng l kwargs h u h' :
  assoc "ng" kwargs = None ->
  obind (assign l "ng" VNone) (fun _ => super_update l kwargs) h = Some (Ok u, h') ->
  exists st', h' !! l = Some st' /\ params st' !! "ng" = Some VNone.
Proof.
  intros Hng H.
  apply obind_inv in H as [(u1 & h1 & EA & ES)|(e & _ & He)]; [|discriminate].
  unfold assign in EA. destruct (h !! l) as [st|]; [|discriminate].
  pose proof (setattr_ng_None lib g MassFunction inherited_depends st) as [_ Hp].
  destruct (setattr "ng" VNone st) as [r0 st1]. injection EA as _ <-.
  unfold super_update in ES. rewrite lookup_insert_eq in ES.
  pose proof (base_update_params_ne lib g MassFunction inherited_depends
                kwargs "ng" st1 Hng) as Hp'.
  destruct (base_update kwargs st1) as [r1 st2]. injection ES as _ <-.
  exists st2. split; [apply lookup_insert_eq|]. simpl in *. congruence.
Qed.

(** X4.  An [update] that passes [hod_params] with a key ["M_min"], and no
    [ng], never runs the solver: it amounts to [self.ng = None] followed
    by the inherited [update], and when it succeeds it leaves [ng]
    unset. *)
Theorem update_passing_M_min_skips_solver fuel l kwargs items h :
  assoc "ng" kwargs = None ->
  assoc "hod_params" kwargs = Some (VDict items) ->
  has_key "M_min" items = true ->
  update fuel l kwargs h
    = obind (assign l "ng" VNone) (fun _ => super_update l kwargs) h /\
  forall u h', update fuel l kwargs h = Some (Ok u, h') ->
    exists st', h' !! l = Some st' /\ params st' !! "ng" = Some VNone.
Proof.
  intros Hng Hhp Hkey.
  pose proof (update_with_M_min (_find_m_min fuel) fuel l kwargs items Hng Hhp Hkey h)
    as E.
  split; [exact E|].
  intros u h' H. unfold update in H. rewrite E in H.
  eapply reset_then_super_update_ng; eauto.
Qed.

Lemma solver_setup_same find find' fuel l :
  same (solver_setup (update_with find fuel) fuel l)
       (solver_setup (update_with find' fuel) fuel l).
Proof.
  unfold solver_setup.
  apply obind_same; [apply same_refl | intros _].
  apply obind_same; [apply same_refl | intros c].
  apply obind_same; [|intros _; apply same_refl].
  intros h.
  rewrite (update_with_M_min find fuel c
             [("hod_params", VDict [("M_min", VNum 8)]); ("dlog10m", VNum (1 # 100))]
             [("M_min", VNum 8)] eq_refl eq_refl eq_refl h).
  rewrite (update_with_M_min find' fuel c
             [("hod_params", VDict [("M_min", VNum 8)]); ("dlog10m", VNum (1 # 100))]
             [("M_min", VNum 8)] eq_refl eq_refl eq_refl h).
  reflexivity.
Qed.

Lemma model_same find find' fuel c ng mmin :
  same (model (update_with find fuel) fuel c ng mmin)
       (model (update_with find' fuel) fuel c ng mmin).
Proof.
  unfold model.
  apply obind_same; [|intros _; apply same_refl].
  intros h.
  rewrite (update_with_M_min find fuel c [("hod_params", VDict [("M_min", VNum mmin)])]
             [("M_min", VNum mmin)] eq_refl eq_refl eq_refl h).
  rewrite (update_with_M_min find' fuel c [("hod_params", VDict [("M_min", VNum mmin)])]
             [("M_min", VNum mmin)] eq_refl eq_refl eq_refl h).
  reflexivity.
Qed.

(** X5.  [_find_m_min] never re-enters itself: the [update] of its working copy
    and every trial [update] of the smooth branch pass ["M_min"], so that
    the solver a nested [update] would call makes no difference to the
    outcome. *)
Theorem find_m_min_never_reenters find fuel l ng h :
  _find_m_min (S fuel) l ng h = find_m_min_with find fuel l ng h.
Proof.
  simpl. revert h. change (same (find_m_min_with (_find_m_min fuel) fuel l ng)
                                (find_m_min_with find fuel l ng)).
  unfold find_m_min_with.
  apply obind_same; [apply solver_setup_same | intros s].
  apply obind_same; [apply same_refl | intros x].
  destruct (sharp_cut s); [apply same_refl|].
  unfold smooth_m_min.
  apply obind_same; [apply same_refl | intros _].
  apply obind_same; [|intros res; apply same_refl].
  apply drive_same. intros mmin. apply model_same.
Qed.

Lemma value_eqb_M_min w x :
  value_eqb w (VDict [("M_min", VNum x)]) = true ->
  exists y, w = VDict [("M_min", VNum y)] /\ y == x.
Proof.
  destruct w as [| | | | | |items| |]; simpl; try discriminate.
  destruct items as [|[k v] rest]; [discriminate|].
  destruct (String.eqb k "M_min") eqn:Ek; [|discriminate].
  apply String.eqb_eq in Ek. subst k.
  destruct v as [| |y| | | | | |]; simpl; try discriminate.
  destruct (Qeq_bool y x) eqn:Eq; [|discriminate].
  destruct rest as [|[k' v'] rest']; [|discriminate].
  intros _. exists y. split; [reflexivity|]. apply Qeq_bool_iff. exact Eq.
Qed.

(** [self.hod_params = {"M_min": mmin}]: afterwards the stored dictionary
    binds ["M_min"] to the assigned mass.  The statements about
    [hod_params] below say what the dictionary binds under ["M_min"] and
    are silent on its other keys: they hold whether the assigned
    dictionary takes the place of the stored one or is merged into it. *)
Lemma setattr_M_min st mmin :
  (setattr "hod_params" (VDict [("M_min", VNum mmin)]) st).1 = Ok tt /\
  exists items y,
    params (setattr "hod_params" (VDict [("M_min", VNum mmin)]) st).2 !! "hod_params"
      = Some (VDict items) /\
    assoc "M_min" items = Some (VNum y) /\ y == mmin.
Proof.
  unfold setattr.
  assert (Hm : lookup_member lib g MassFunction "hod_params"
               = Some (parameter HaloModel.hod_params)) by reflexivity.
  rewrite Hm. simpl.
  destruct (params st !! "hod_params") as [old|] eqn:E; simpl.
  - destruct (value_eqb old (VDict [("M_min", VNum mmin)])) eqn:Eq; simpl.
    + split; [reflexivity|]. apply value_eqb_M_min in Eq as (y & -> & Hy).
      exists [("M_min", VNum y)], y. auto.
    + split; [reflexivity|]. exists [("M_min", VNum mmin)], mmin.
      split; [apply lookup_insert_eq | split; reflexivity].
  - split; [reflexivity|]. exists [("M_min", VNum mmin)], mmin.
    split; [apply lookup_insert_eq | split; reflexivity].
Qed.

(** X6.  When an [update] has succeeded and left a target density [ng] on the
    instance, the solver has been called on the instance that holds this
    target, after the inherited [update], it has returned a minimum mass,
    and [hod_params] binds ["M_min"] to that mass, whatever value
    ["M_min"] had before or the call passed. *)
Theorem update_with_target_sets_M_min fuel l kwargs h h' st' target :
  update fuel l kwargs h = Some (Ok tt, h') ->
  h' !! l = Some st' ->
  params st' !! "ng" = Some target ->
  target <> VNone ->
  exists h3 st3 h4 mmin items y,
    h3 !! l = Some st3 /\
    params st3 !! "ng" = Some target /\
    _find_m_min fuel l target h3 = Some (Ok mmin, h4) /\
    params st' !! "hod_params" = Some (VDict items) /\
    assoc "M_min" items = Some (VNum y) /\
    y == mmin.
Proof.
  intros H Hl Htarget Hset. unfold update, update_with in H.
  apply obind_inv in H as [(kw & h1 & _ & H)|(e & _ & He)]; [|discriminate].
  apply obind_inv in H as [(u & h2 & _ & H)|(e & _ & He)]; [|discriminate].
  apply obind_inv in H as [(ng0 & h3 & Hread & H)|(e & _ & He)]; [|discriminate].
  unfold at_ in Hread. destruct (h2 !! l) as [st2|] eqn:E2; [|discriminate].
  destruct (exec lib g MassFunction fuel (self "ng") st2) as [[r0 st2']|] eqn:Hx;
    [|discriminate].
  injection Hread as -> <-.
  apply exec_self_ng_inv in Hx as [-> Hng0].
  destruct (is_none ng0) eqn:Hnone; simpl in H.
  - injection H as <-. rewrite lookup_insert_eq in Hl. injection Hl as <-.
    destruct ng0; try discriminate. congruence.
  - apply obind_inv in H as [(mmin & h4 & Hfind & H)|(e & _ & He)]; [|discriminate].
    unfold assign in H. destruct (h4 !! l) as [st4|] eqn:E4; [|discriminate].
    pose proof (setattr_M_min st4 mmin) as [_ (items & y & Hy & Hitems & Hyq)].
    pose proof (setattr_params_ne lib g MassFunction inherited_depends
                  "hod_params" (VDict [("M_min", VNum mmin)]) st4 "ng"
                  ltac:(discriminate)) as Hkeep.
    destruct (setattr "hod_params" (VDict [("M_min", VNum mmin)]) st4) as [r1 st5].
    injection H as _ <-. rewrite lookup_insert_eq in Hl. injection Hl as <-.
    simpl in *.
    destruct (find_m_min_grown lib g MassFunction inherited_depends fuel l ng0
                _ _ _ Hfind) as [_ G].
    destruct (G st2 (lookup_insert_eq _ _ _)) as (st4' & E4' & HP & _).
    rewrite E4 in E4'. injection E4' as <-.
    assert (target = ng0) by congruence. subst ng0.
    exists (<[l:=st2]> h2), st2, h4, mmin, items, y.
    split; [apply lookup_insert_eq|]. auto 8.
Qed.

End UpdateAndSolver.

(** ** The two theorems on the worked configuration *)

Definition demo_update :=
  update Demo.lib module_globals Demo.MassFunction Demo.inherited_depends.

Lemma update_passing_M_min_skips_solver_witness :
  (assoc "ng" [("hod_params", VDict [("M_min", VNum 12)])] = None /\
   assoc "hod_params" [("hod_params", VDict [("M_min", VNum 12)])]
     = Some (VDict [("M_min", VNum 12)]) /\
   has_key "M_min" [("M_min", VNum 12)] = true) /\
  demo_update 11 0%nat [("hod_params", VDict [("M_min", VNum 12)])] demo_store
    = obind (assign Demo.lib module_globals Demo.MassFunction Demo.inherited_depends
               0%nat "ng" VNone)
        (fun _ => super_update Demo.lib module_globals Demo.MassFunction
                    Demo.inherited_depends 0%nat
                    [("hod_params", VDict [("M_min", VNum 12)])]) demo_store /\
  forall u h',
    demo_update 11 0%nat [("hod_params", VDict [("M_min", VNum 12)])] demo_store
      = Some (Ok u, h') ->
    exists st', h' !! 0%nat = Some st' /\ params st' !! "ng" = Some VNone.
Proof.
  split; [repeat split|].
  exact (update_passing_M_min_skips_solver Demo.lib module_globals Demo.MassFunction
           Demo.inherited_depends 11 0%nat
           [("hod_params", VDict [("M_min", VNum 12)])] [("M_min", VNum 12)]
           demo_store eq_refl eq_refl eq_refl).
Defined.

(** The worked configuration with the occupation model of ten grid points:
    an [update] that sets a target the solver can reach. *)
Definition ten_point_update :=
  update ten_point_lib module_globals Demo.MassFunction Demo.inherited_depends.

Definition target_kwargs : list (string * value) := [("ng", VNum (23 # 100000))].

Lemma update_with_target_sets_M_min_witness :
  exists h' st',
    (ten_point_update 12 0%nat target_kwargs demo_store = Some (Ok tt, h') /\
     h' !! 0%nat = Some st' /\
     params st' !! "ng" = Some (VNum (23 # 100000)) /\
     VNum (23 # 100000) <> VNone) /\
    exists h3 st3 h4 mmin items y,
      h3 !! 0%nat = Some st3 /\
      params st3 !! "ng" = Some (VNum (23 # 100000)) /\
      _find_m_min ten_point_lib module_globals Demo.MassFunction Demo.inherited_depends
        12 0%nat (VNum (23 # 100000)) h3 = Some (Ok mmin, h4) /\
      params st' !! "hod_params" = Some (VDict items) /\
      assoc "M_min" items = Some (VNum y) /\
      y == mmin.
Proof.
  assert (Hok : option_map fst (ten_point_update 12 0%nat target_kwargs demo_store)
                = Some (Ok tt)) by (vm_compute; reflexivity).
  assert (Hng : match ten_point_update 12 0%nat target_kwargs demo_store with
                | Some (_, h1) =>
                    match h1 !! 0%nat with
                    | Some st1 => params st1 !! "ng"
                    | None => None
                    end
                | None => None
                end = Some (VNum (23 # 100000))) by (vm_compute; reflexivity).
  destruct (ten_point_update 12 0%nat target_kwargs demo_store) as [[r0 h']|] eqn:E;
    [|discriminate Hok].
  simpl in Hok. injection Hok as ->.
  destruct (h' !! 0%nat) as [st'|] eqn:E0; [|discriminate Hng].
  exists h', st'.
  assert (Hset : VNum (23 # 100000) <> VNone) by discriminate.
  split; [auto|].
  exact (update_with_target_sets_M_min ten_point_lib module_globals
           Demo.MassFunction Demo.inherited_depends 12 0%nat target_kwargs
           demo_store h' st' (VNum (23 # 100000)) E E0 Hng Hset).
Defined.

(** * Edge cases of the sharp-cutoff branch *)

Section SharpCutoffEdges.

Variable lib : Lib.
Variable g : globals.
Variable MassFunction : string -> option member.
Variable inherited_depends : string -> string -> bool.

Local Abbreviation update := (update lib g MassFunction inherited_depends).
Local Abbreviation _find_m_min := (_find_m_min lib g MassFunction inherited_depends).
Local Abbreviation solver_setup := (solver_setup lib g MassFunction).

(** A target that no entry of the cumulative integral exceeds, and that
    the last entry reaches: the feasibility test passes and the search for
    the first entry above the target finds none. *)
Lemma sharp_cut_no_crossing M integrand ng dx top :
  grid_step (np_log lib) (VArr M) = Ok dx ->
  last (cumtrapz (rev integrand) dx) = Some top ->
  ng <= top ->
  (forall y, In y (cumtrapz (rev integrand) dx) -> y <= ng) ->
  sharp_cut_m_min lib M integrand ng = Raise IndexError.
Proof.
  intros Hdx Htop Hle Hall. unfold sharp_cut_m_min. rewrite Hdx. simpl rbind.
  rewrite Htop. rewrite (proj2 (Qltb_ge top ng) Hle).
  assert (Hnone : find_index (fun x => Qltb ng x) (cumtrapz (rev integrand) dx) = None).
  { apply find_index_None. intros x Hx. apply Qltb_ge. apply Hall. exact Hx. }
  rewrite Hnone. reflexivity.
Qed.

(** X7.  With a sharp cutoff, a target that equals the largest achievable
    density exactly is neither reported as exceeding it nor solved for:
    the test [integral[-1] < ng] fails, no entry of the cumulative
    integral is above the target, and [np.where(integral > ng)[0][0]]
    raises [IndexError]. *)
Theorem find_m_min_target_at_maximum_raises fuel l (ng : Q) h s h1 dx top :
  solver_setup (update fuel) fuel l h = Some (Ok s, h1) ->
  sharp_cut s = true ->
  grid_step (np_log lib) (VArr (grid s)) = Ok dx ->
  0 <= dx ->
  Forall (fun v => 0 <= v) (integrand s) ->
  last (cumtrapz (rev (integrand s)) dx) = Some top ->
  ng == top ->
  _find_m_min (S fuel) l (VNum ng) h = Some (Raise IndexError, h1).
Proof.
  intros Hs Hsharp Hdx Hpos Hy Htop Heq.
  rewrite (find_m_min_after_setup lib g MassFunction inherited_depends
             fuel l (VNum ng) ng h s h1 Hs eq_refl), Hsharp.
  f_equal. f_equal.
  apply (sharp_cut_no_crossing (grid s) (integrand s) ng dx top Hdx Htop).
  - rewrite Heq. apply Qle_refl.
  - intros y Hin.
    assert (Hrev : Forall (fun v => 0 <= v) (rev (integrand s)))
      by (apply Forall_rev; exact Hy).
    destruct (cumtrapz_from_bounds dx Hpos (rev (integrand s)) 0 Hrev y Hin)
      as (_ & top' & Htop' & Hle).
    fold (cumtrapz (rev (integrand s)) dx) in Htop'.
    rewrite Htop in Htop'. injection Htop' as <-. rewrite Heq. exact Hle.
Qed.

End SharpCutoffEdges.

(** X8.  On a grid of at least five masses the window around the first entry
    above the target holds between four and eight points, and as many
    masses as entries of the integral: the cubic spline always has the
    four points it needs, and never more than eight. *)
Theorem sharp_cut_window_size (M integrand : list Q) (ng dx : Q) ind :
  length integrand = length M ->
  (5 <= length M)%nat ->
  find_index (fun x => Qltb ng x) (cumtrapz (rev integrand) dx) = Some ind ->
  let integral := cumtrapz (rev integrand) dx in
  let lo := (window ind (length M)).1 in
  let hi := (window ind (length M)).2 in
  length (slice lo hi (tail (rev M))) = length (slice lo hi integral) /\
  (4 <= length (slice lo hi integral) <= 8)%nat /\
  (lo <= ind < hi)%nat.
Proof.
  intros Hlen Hfive Hind integral lo hi.
  assert (Hint : length integral = (length M - 1)%nat).
  { unfold integral, cumtrapz. rewrite cumtrapz_from_length, length_rev. lia. }
  assert (Hlt : (ind < length integral)%nat).
  { apply find_index_Some in Hind as [(x & Hx & _) _].
    apply lookup_lt_Some in Hx. exact Hx. }
  assert (Htail : length (tail (rev M)) = (length M - 1)%nat).
  { rewrite <- (length_rev M). destruct (rev M); simpl; lia. }
  unfold lo, hi, window. simpl fst. simpl snd.
  rewrite !slice_length, Htail, Hint. lia.
Qed.

(** ** The edge cases on worked inputs *)

Lemma sharp_cut_window_size_witness :
  (length twelve_ones = length twelve_masses /\
   (5 <= length twelve_masses)%nat /\
   find_index (fun x => Qltb (11 # 2) x) (cumtrapz (rev twelve_ones) 1) = Some 5%nat) /\
  let integral := cumtrapz (rev twelve_ones) 1 in
  let lo := (window 5 (length twelve_masses)).1 in
  let hi := (window 5 (length twelve_masses)).2 in
  length (slice lo hi (tail (rev twelve_masses))) = length (slice lo hi integral) /\
  (4 <= length (slice lo hi integral) <= 8)%nat /\
  (lo <= 5 < hi)%nat.
Proof.
  assert (H1 : length twelve_ones = length twelve_masses) by reflexivity.
  assert (H2 : (5 <= length twelve_masses)%nat) by (vm_compute; lia).
  assert (H3 : find_index (fun x => Qltb (11 # 2) x) (cumtrapz (rev twelve_ones) 1)
               = Some 5%nat) by (vm_compute; reflexivity).
  split; [auto|].
  exact (sharp_cut_window_size twelve_masses twelve_ones (11 # 2) 1 5%nat H1 H2 H3).
Defined.

Lemma find_m_min_target_at_maximum_raises_witness :
  exists s h1 dx top,
    (solver_setup Demo.lib module_globals Demo.MassFunction
       (update Demo.lib module_globals Demo.MassFunction Demo.inherited_depends 11) 11
       0%nat demo_store = Some (Ok s, h1) /\
     sharp_cut s = true /\
     grid_step (np_log Demo.lib) (VArr (grid s)) = Ok dx /\
     0 <= dx /\
     Forall (fun v => 0 <= v) (integrand s) /\
     last (cumtrapz (rev (integrand s)) dx) = Some top /\
     top == top) /\
    _find_m_min Demo.lib module_globals Demo.MassFunction Demo.inherited_depends
      12 0%nat (VNum top) demo_store = Some (Raise IndexError, h1).
Proof.
  assert (H : exists s h1 dx top,
    solver_setup Demo.lib module_globals Demo.MassFunction
      (update Demo.lib module_globals Demo.MassFunction Demo.inherited_depends 11) 11
      0%nat demo_store = Some (Ok s, h1) /\
    sharp_cut s = true /\
    grid_step (np_log Demo.lib) (VArr (grid s)) = Ok dx /\
    0 <= dx /\
    Forall (fun v => 0 <= v) (integrand s) /\
    last (cumtrapz (rev (integrand s)) dx) = Some top /\
    top == top).
  { eexists. eexists. eexists. eexists.
    split; [vm_compute; reflexivity|].
    split; [reflexivity|].
    split; [vm_compute; reflexivity|].
    split; [vm_compute; discriminate|].
    split; [repeat constructor; vm_compute; discriminate|].
    split; [vm_compute; reflexivity|].
    reflexivity. }
  destruct H as (s & h1 & dx & top & H).
  exists s, h1, dx, top. split; [exact H|].
  destruct H as (Hs & Hsharp & Hdx & Hpos & Hy & Htop & Heq).
  exact (find_m_min_target_at_maximum_raises Demo.lib module_globals Demo.MassFunction
           Demo.inherited_depends 11 0%nat top demo_store s h1 dx top
           Hs Hsharp Hdx Hpos Hy Htop Heq).
Defined.

(** * The galaxy fractions *)

Lemma Qmult_le_nonneg_l z x y : 0 <= z -> x <= y -> z * x <= z * y.
Proof.
  intros Hz Hxy. rewrite (Qmult_comm z x), (Qmult_comm z y).
  apply Qmult_le_compat_r; assumption.
Qed.

Lemma Qhalf_le a b : a <= b -> a / 2 <= b / 2.
Proof.
  intros H. unfold Qdiv. apply Qmult_le_compat_r; [exact H|].
  unfold Qle. simpl. lia.
Qed.

Lemma trapz_row_nonneg dx : 0 <= dx ->
  forall y, Forall (fun v => 0 <= v) y -> 0 <= trapz_row y dx.
Proof.
  intros Hdx. induction y as [|a y IH]; intros Hy; [apply Qle_refl|].
  destruct y as [|b y']; [apply Qle_refl|].
  change (trapz_row (a :: b :: y') dx) with (dx * (a + b) / 2 + trapz_row (b :: y') dx).
  inversion Hy as [|? ? Ha Hy']; subst. inversion Hy' as [|? ? Hb _]; subst.
  cbv beta in Ha, Hb. specialize (IH Hy').
  assert (0 <= dx * (a + b) / 2) by (apply Qhalf_nonneg, Qmult_le_0_compat; lra).
  lra.
Qed.

Lemma trapz_row_mono dx : 0 <= dx ->
  forall y z, Forall2 Qle y z -> trapz_row y dx <= trapz_row z dx.
Proof.
  intros Hdx. induction y as [|a y IH]; intros z Hyz.
  - inversion Hyz; subst. apply Qle_refl.
  - inversion Hyz as [|? c ? z' Hac Hyz']; subst.
    destruct y as [|b y'].
    + inversion Hyz'; subst. apply Qle_refl.
    + inversion Hyz' as [|? d ? z'' Hbd _]; subst.
      change (trapz_row (a :: b :: y') dx)
        with (dx * (a + b) / 2 + trapz_row (b :: y') dx).
      change (trapz_row (c :: d :: z'') dx)
        with (dx * (c + d) / 2 + trapz_row (d :: z'') dx).
      specialize (IH _ Hyz').
      assert (dx * (a + b) / 2 <= dx * (c + d) / 2)
        by (apply Qhalf_le, Qmult_le_nonneg_l; [exact Hdx | lra]).
      lra.
Qed.

(** [M * dndm * w] entry by entry. *)
Definition density_of (M dndm w : list Q) : list Q :=
  zip_with Qmult (zip_with Qmult M dndm) w.

Lemma density_of_nonneg : forall M dndm w,
  Forall (fun v => 0 <= v) M -> Forall (fun v => 0 <= v) dndm ->
  Forall (fun v => 0 <= v) w ->
  Forall (fun v => 0 <= v) (density_of M dndm w).
Proof.
  unfold density_of. induction M as [|m M IH]; intros dndm w HM Hd Hw; [constructor|].
  destruct dndm as [|d dndm]; [constructor|]. destruct w as [|x w]; [constructor|].
  inversion HM; inversion Hd; inversion Hw; subst. simpl. constructor.
  - cbv beta in *. apply Qmult_le_0_compat; [apply Qmult_le_0_compat|]; assumption.
  - apply IH; assumption.
Qed.

Lemma density_of_mono : forall M dndm w w',
  Forall (fun v => 0 <= v) M -> Forall (fun v => 0 <= v) dndm ->
  Forall2 Qle w w' ->
  Forall2 Qle (density_of M dndm w) (density_of M dndm w').
Proof.
  unfold density_of. induction M as [|m M IH]; intros dndm w w' HM Hd Hw; [constructor|].
  destruct dndm as [|d dndm]; [constructor|].
  inversion Hw as [|x x' ? ? Hx Hw']; subst; [constructor|].
  inversion HM; inversion Hd; subst. simpl. constructor.
  - cbv beta in *. apply Qmult_le_nonneg_l; [|exact Hx].
    apply Qmult_le_0_compat; assumption.
  - apply IH; assumption.
Qed.

Section Fractions.

Variable lib : Lib.
Variable g : globals.
Variable MassFunction : string -> option member.

Local Abbreviation exec := (exec lib g MassFunction).
Local Abbreviation holds := (holds lib g MassFunction).
Local Abbreviation lookup_member := (lookup_member lib g MassFunction).

Local Open Scope prog_scope.

Lemma holds_S fuel st n v : holds fuel st n v -> holds (S fuel) st n v.
Proof. apply exec_fuel_S. Qed.

(** The first read of a cached property runs its body and stores the
    value. *)
Lemma exec_self_miss fuel n ps body st v st' :
  lookup_member n = Some (cached_property ps body) ->
  cache st !! n = None ->
  exec fuel body st = Some (Ok v, st') ->
  exec (S fuel) (self n) st = Some (Ok v, store n v st').
Proof.
  intros Hm Hc Hb. unfold self. rewrite exec_GetAttr, Hm, Hc, Hb. apply exec_Ret.
Qed.

(** [self.M * self.dndm * self.<w>] *)
Lemma exec_density fuel st w Ms dn ws :
  holds fuel st "M" (VArr Ms) -> holds fuel st "dndm" (VArr dn) ->
  holds fuel st w (VArr ws) ->
  length dn = length Ms -> length ws = length Ms ->
  exec fuel (self "M" [*] self "dndm" [*] self w) st
  = Some (Ok (VArr (density_of Ms dn ws)), st).
Proof.
  intros HM Hdn Hw Ldn Lw.
  rewrite (exec_pbinop lib g MassFunction fuel np_mul _ _ st
             (VArr (zip_with Qmult Ms dn)) (VArr ws)).
  - rewrite np_mul_arr_arr; [reflexivity|]. rewrite length_zip_with. lia.
  - rewrite (exec_pbinop lib g MassFunction fuel np_mul _ _ st (VArr Ms) (VArr dn)
               HM Hdn).
    rewrite np_mul_arr_arr; [reflexivity | lia].
  - exact Hw.
Qed.

(** The integral [trapz(self.M * self.dndm * self.<w>, dx=log(M[1]/M[0]))]. *)
Lemma exec_density_integral fuel st w m0 m1 rest dn ws A (k : value -> prog A) :
  holds fuel st "M" (VArr (m0 :: m1 :: rest)) -> holds fuel st "dndm" (VArr dn) ->
  holds fuel st w (VArr ws) ->
  length dn = length (m0 :: m1 :: rest) -> length ws = length (m0 :: m1 :: rest) ->
  exec fuel (integrand ← self "M" [*] self "dndm" [*] self w;
             dx ← HaloModel.dlnM lib;
             s ← HaloModel.trapz integrand dx;
             k s) st
  = exec fuel (k (VNum (trapz_row (density_of (m0 :: m1 :: rest) dn ws)
                          (np_log lib (m1 / m0))))) st.
Proof.
  intros HM Hdn Hw Ldn Lw.
  rewrite (exec_bind_Ok lib g MassFunction fuel _ _ _ _ st _ st
             (exec_density fuel st w _ dn ws HM Hdn Hw Ldn Lw)).
  rewrite (exec_bind_Ok lib g MassFunction fuel _ _ _ _ st (np_log lib (m1 / m0)) st).
  2:{ unfold HaloModel.dlnM.
      rewrite (exec_bind_Ok lib g MassFunction fuel _ _ _ _ st _ st HM).
      apply exec_lift. }
  rewrite (exec_bind_Ok lib g MassFunction fuel _ _ _ _ st
             (VNum (trapz_row (density_of (m0 :: m1 :: rest) dn ws)
                      (np_log lib (m1 / m0)))) st).
  2:{ unfold HaloModel.trapz. apply exec_lift. }
  reflexivity.
Qed.

Lemma exec_density_integral_last fuel st w m0 m1 rest dn ws :
  holds fuel st "M" (VArr (m0 :: m1 :: rest)) -> holds fuel st "dndm" (VArr dn) ->
  holds fuel st w (VArr ws) ->
  length dn = length (m0 :: m1 :: rest) -> length ws = length (m0 :: m1 :: rest) ->
  exec fuel (integrand ← self "M" [*] self "dndm" [*] self w;
             dx ← HaloModel.dlnM lib;
             HaloModel.trapz integrand dx) st
  = Some (Ok (VNum (trapz_row (density_of (m0 :: m1 :: rest) dn ws)
                      (np_log lib (m1 / m0)))), st).
Proof.
  intros HM Hdn Hw Ldn Lw.
  rewrite (exec_bind_Ok lib g MassFunction fuel _ _ _ _ st _ st
             (exec_density fuel st w _ dn ws HM Hdn Hw Ldn Lw)).
  rewrite (exec_bind_Ok lib g MassFunction fuel _ _ _ _ st (np_log lib (m1 / m0)) st).
  2:{ unfold HaloModel.dlnM.
      rewrite (exec_bind_Ok lib g MassFunction fuel _ _ _ _ st _ st HM).
      apply exec_lift. }
  unfold HaloModel.trapz. apply exec_lift.
Qed.

(** X9.  Without a target density, on a grid of at least two masses, with
    non-negative masses, mass function and occupations, and no more
    satellites than galaxies in any halo: the first read of
    [satellite_fraction] computes [mean_gal_den] as the integral of
    [M * dndm * n_tot] and returns the integral of [M * dndm * n_sat]
    divided by it, a number between 0 and 1; [central_fraction] is then one
    minus that number, between 0 and 1 as well. *)
Theorem fractions_between_zero_and_one fuel st m0 m1 rest dn ns nt :
  holds fuel st "M" (VArr (m0 :: m1 :: rest)) ->
  holds fuel st "dndm" (VArr dn) ->
  holds fuel st "n_sat" (VArr ns) ->
  holds fuel st "n_tot" (VArr nt) ->
  holds fuel st "ng" VNone ->
  cache st !! "mean_gal_den" = None ->
  cache st !! "satellite_fraction" = None ->
  length dn = length (m0 :: m1 :: rest) ->
  length ns = length (m0 :: m1 :: rest) ->
  length nt = length (m0 :: m1 :: rest) ->
  0 <= np_log lib (m1 / m0) ->
  Forall (fun v => 0 <= v) (m0 :: m1 :: rest) ->
  Forall (fun v => 0 <= v) dn ->
  Forall (fun v => 0 <= v) ns ->
  Forall2 Qle ns nt ->
  0 < trapz_row (density_of (m0 :: m1 :: rest) dn nt) (np_log lib (m1 / m0)) ->
  let nbar := trapz_row (density_of (m0 :: m1 :: rest) dn nt) (np_log lib (m1 / m0)) in
  let fs := trapz_row (density_of (m0 :: m1 :: rest) dn ns) (np_log lib (m1 / m0))
            / nbar in
  exec (S fuel) (HaloModel.satellite_fraction lib) st
    = Some (Ok (VNum fs), store "mean_gal_den" (VNum nbar) st) /\
  exec (S (S fuel)) HaloModel.central_fraction st
    = Some (Ok (VNum (1 - fs)),
            store "satellite_fraction" (VNum fs) (store "mean_gal_den" (VNum nbar) st)) /\
  0 <= fs <= 1 /\
  0 <= 1 - fs <= 1.
Proof.
  intros HM Hdn Hns Hnt Hng Hc Hcs Ldn Lns Lnt Hdx PM Pdn Pns Hle Hpos nbar fs.
  assert (Hden : exec fuel (HaloModel.mean_gal_den lib) st = Some (Ok (VNum nbar), st)).
  { unfold HaloModel.mean_gal_den.
    rewrite (exec_bind_Ok lib g MassFunction fuel _ _ _ _ st _ st Hng).
    cbv beta iota delta [is_none negb].
    apply (exec_density_integral_last fuel st "n_tot" m0 m1 rest dn nt
             HM Hdn Hnt Ldn Lnt). }
  assert (Hsat : exec (S fuel) (HaloModel.satellite_fraction lib) st
                 = Some (Ok (VNum fs), store "mean_gal_den" (VNum nbar) st)).
  { unfold HaloModel.satellite_fraction.
    rewrite (exec_density_integral (S fuel) st "n_sat" m0 m1 rest dn ns _ _
               (holds_S _ _ _ _ HM) (holds_S _ _ _ _ Hdn) (holds_S _ _ _ _ Hns) Ldn Lns).
    unfold pbinop. rewrite exec_bind, exec_Ret.
    assert (Hm : exists ps, lookup_member "mean_gal_den"
                   = Some (cached_property ps (HaloModel.mean_gal_den lib)))
      by (eexists; reflexivity).
    destruct Hm as [ps Hm].
    rewrite (exec_bind_Ok lib g MassFunction (S fuel) _ _ _ _ st _ _
               (exec_self_miss fuel "mean_gal_den" ps _ st _ st Hm Hc Hden)).
    apply exec_lift. }
  assert (Hs0 : 0 <= trapz_row (density_of (m0 :: m1 :: rest) dn ns)
                       (np_log lib (m1 / m0))).
  { apply trapz_row_nonneg; [exact Hdx|]. apply density_of_nonneg; assumption. }
  assert (Hs1 : trapz_row (density_of (m0 :: m1 :: rest) dn ns) (np_log lib (m1 / m0))
                <= nbar).
  { apply trapz_row_mono; [exact Hdx|]. apply density_of_mono; assumption. }
  assert (Hfs : 0 <= fs <= 1).
  { unfold fs. split.
    - apply Qle_shift_div_l; [exact Hpos|]. rewrite Qmult_0_l. exact Hs0.
    - apply Qle_shift_div_r; [exact Hpos|]. rewrite Qmult_1_l. exact Hs1. }
  split; [exact Hsat|]. split; [|split; [exact Hfs | lra]].
  unfold HaloModel.central_fraction, pbinop. unfold num. rewrite exec_bind, exec_Ret.
  assert (Hm : exists ps, lookup_member "satellite_fraction"
                 = Some (cached_property ps (HaloModel.satellite_fraction lib)))
    by (eexists; reflexivity).
  destruct Hm as [ps Hm].
  rewrite (exec_bind_Ok lib g MassFunction (S (S fuel)) _ _ _ _ st _ _
             (exec_self_miss (S fuel) "satellite_fraction" ps _ st _ _ Hm Hcs Hsat)).
  apply exec_lift.
Qed.

End Fractions.

(** The worked instance with the mass function and the occupations read,
    and neither fraction yet. *)
Definition fractions_ready : inst :=
  match exec Demo.lib module_globals Demo.MassFunction 9
          (pbind (self "n_sat") (fun _ => pbind (self "n_tot") (fun _ => self "dndm")))
          Demo.new_instance with
  | Some (_, st) => st
  | None => Demo.new_instance
  end.

Lemma fractions_between_zero_and_one_witness :
  exists m0 m1 rest dn ns nt,
    (holds Demo.lib module_globals Demo.MassFunction 7 fractions_ready
       "M" (VArr (m0 :: m1 :: rest)) /\
     holds Demo.lib module_globals Demo.MassFunction 7 fractions_ready "dndm" (VArr dn) /\
     holds Demo.lib module_globals Demo.MassFunction 7 fractions_ready "n_sat" (VArr ns) /\
     holds Demo.lib module_globals Demo.MassFunction 7 fractions_ready "n_tot" (VArr nt) /\
     holds Demo.lib module_globals Demo.MassFunction 7 fractions_ready "ng" VNone /\
     cache fractions_ready !! "mean_gal_den" = None /\
     cache fractions_ready !! "satellite_fraction" = None /\
     length dn = length (m0 :: m1 :: rest) /\
     length ns = length (m0 :: m1 :: rest) /\
     length nt = length (m0 :: m1 :: rest) /\
     0 <= np_log Demo.lib (m1 / m0) /\
     Forall (fun v => 0 <= v) (m0 :: m1 :: rest) /\
     Forall (fun v => 0 <= v) dn /\
     Forall (fun v => 0 <= v) ns /\
     Forall2 Qle ns nt /\
     0 < trapz_row (density_of (m0 :: m1 :: rest) dn nt) (np_log Demo.lib (m1 / m0))) /\
    let nbar := trapz_row (density_of (m0 :: m1 :: rest) dn nt)
                  (np_log Demo.lib (m1 / m0)) in
    let fs := trapz_row (density_of (m0 :: m1 :: rest) dn ns)
                (np_log Demo.lib (m1 / m0)) / nbar in
    exec Demo.lib module_globals Demo.MassFunction 8
      (HaloModel.satellite_fraction Demo.lib) fractions_ready
      = Some (Ok (VNum fs), store "mean_gal_den" (VNum nbar) fractions_ready) /\
    exec Demo.lib module_globals Demo.MassFunction 9
      HaloModel.central_fraction fractions_ready
      = Some (Ok (VNum (1 - fs)),
              store "satellite_fraction" (VNum fs)
                (store "mean_gal_den" (VNum nbar) fractions_ready)) /\
    0 <= fs <= 1 /\
    0 <= 1 - fs <= 1.
Proof.
  assert (H : exists m0 m1 rest dn ns nt,
    holds Demo.lib module_globals Demo.MassFunction 7 fractions_ready
      "M" (VArr (m0 :: m1 :: rest)) /\
    holds Demo.lib module_globals Demo.MassFunction 7 fractions_ready "dndm" (VArr dn) /\
    holds Demo.lib module_globals Demo.MassFunction 7 fractions_ready "n_sat" (VArr ns) /\
    holds Demo.lib module_globals Demo.MassFunction 7 fractions_ready "n_tot" (VArr nt) /\
    holds Demo.lib module_globals Demo.MassFunction 7 fractions_ready "ng" VNone /\
    cache fractions_ready !! "mean_gal_den" = None /\
    cache fractions_ready !! "satellite_fraction" = None /\
    length dn = length (m0 :: m1 :: rest) /\
    length ns = length (m0 :: m1 :: rest) /\
    length nt = length (m0 :: m1 :: rest) /\
    0 <= np_log Demo.lib (m1 / m0) /\
    Forall (fun v => 0 <= v) (m0 :: m1 :: rest) /\
    Forall (fun v => 0 <= v) dn /\
    Forall (fun v => 0 <= v) ns /\
    Forall2 Qle ns nt /\
    0 < trapz_row (density_of (m0 :: m1 :: rest) dn nt) (np_log Demo.lib (m1 / m0))).
  { do 6 eexists.
    do 4 (split; [holds_on_cache|]).
    split; [holds_on_params|].
    do 2 (split; [vm_compute; reflexivity|]).
    do 3 (split; [reflexivity|]).
    split; [vm_compute; discriminate|].
    do 3 (split; [repeat constructor; vm_compute; discriminate|]).
    split; [repeat constructor; vm_compute; discriminate|].
    vm_compute. reflexivity. }
  destruct H as (m0 & m1 & rest & dn & ns & nt & H).
  exists m0, m1, rest, dn, ns, nt. split; [exact H|].
  destruct H as (HM & Hdn & Hns & Hnt & Hng & Hc & Hcs & Ldn & Lns & Lnt & Hdx
                 & PM & Pdn & Pns & Hle & Hpos).
  exact (fractions_between_zero_and_one Demo.lib module_globals Demo.MassFunction
           7 fractions_ready m0 m1 rest dn ns nt
           HM Hdn Hns Hnt Hng Hc Hcs Ldn Lns Lnt Hdx PM Pdn Pns Hle Hpos).
Defined.

(** * Stored parameters are validated values *)

Ltac class_member H n :=
  unfold HaloModel.class_dict in H; simpl in H;
  repeat match type of H with
         | (if String.eqb n ?s then _ else _) = _ =>
             let E := fresh "E" in
             destruct (String.eqb n s) eqn:E;
             [apply String.eqb_eq in E; try discriminate H | clear E]
         end;
  try discriminate H.

Section Validators.

Variable lib : Lib.
Variable g : globals.

Lemma truthy_flag_idempotent msg v w :
  match truthy v with
  | Ok true => Ok (VBool true)
  | Ok false => Ok (VBool false)
  | Raise _ => Raise (ValueError msg)
  end = Ok w ->
  match truthy w with
  | Ok true => Ok (VBool true)
  | Ok false => Ok (VBool false)
  | Raise _ => Raise (ValueError msg)
  end = Ok w.
Proof.
  destruct (truthy v) as [[|]|e]; [| |discriminate]; intros [= <-]; reflexivity.
Qed.

Lemma family_idempotent family msg v w :
  (if negb (HaloModel.isinstance_basestring v) && negb (issubclass_ lib v family)
   then Raise (ValueError msg) else Ok v) = Ok w ->
  (if negb (HaloModel.isinstance_basestring w) && negb (issubclass_ lib w family)
   then Raise (ValueError msg) else Ok w) = Ok w.
Proof.
  destruct (negb (HaloModel.isinstance_basestring v) && negb (issubclass_ lib v family))
    eqn:E; [discriminate|].
  intros [= <-]. rewrite E. reflexivity.
Qed.

(** A value that has passed a setter passes it again, unchanged. *)
Lemma setter_fixed_point n validate v w :
  assoc n (HaloModel.class_dict lib g) = Some (parameter validate) ->
  validate v = Ok w ->
  validate w = Ok w.
Proof.
  intros Hn. class_member Hn n; injection Hn as <-.
  - intros [= <-]. reflexivity.
  - intros [= <-]. reflexivity.
  - intros [= <-]. reflexivity.
  - intros [= <-]. reflexivity.
  - apply family_idempotent.
  - apply truthy_flag_idempotent.
  - apply family_idempotent.
  - apply family_idempotent.
  - apply family_idempotent.
  - intros H. apply halo_exclusion_Ok in H as [[_ ->]|(s & _ & Hin & ->)];
      apply halo_exclusion_Ok; right.
    + exists "None". split; [reflexivity|]. split; [|reflexivity]. left. reflexivity.
    + exists s. auto.
  - intros [= <-]. reflexivity.
  - intros [= <-]. reflexivity.
  - intros [= <-]. reflexivity.
  - intros [= <-]. reflexivity.
  - apply truthy_flag_idempotent.
Qed.

(** X10.  Every validating setter of [HaloModel] is idempotent: validating the
    outcome of a validation changes nothing, whether the value was accepted
    or rejected. *)
Theorem setters_idempotent n validate v :
  assoc n (HaloModel.class_dict lib g) = Some (parameter validate) ->
  rbind (validate v) validate = validate v.
Proof.
  intros Hn. destruct (validate v) as [w|e] eqn:E; [|reflexivity].
  simpl. eapply setter_fixed_point; eauto.
Qed.

End Validators.

Lemma setters_idempotent_witness :
  assoc "halo_exclusion" (HaloModel.class_dict Demo.lib module_globals)
    = Some (parameter (HaloModel.halo_exclusion Demo.lib)) /\
  rbind (HaloModel.halo_exclusion Demo.lib VNone) (HaloModel.halo_exclusion Demo.lib)
    = HaloModel.halo_exclusion Demo.lib VNone.
Proof.
  split; [reflexivity|].
  exact (setters_idempotent Demo.lib module_globals "halo_exclusion"
           (HaloModel.halo_exclusion Demo.lib) VNone eq_refl).
Defined.

Section Validated.

Variable lib : Lib.
Variable g : globals.
Variable MassFunction : string -> option member.
Variable inherited_depends : string -> string -> bool.

Local Abbreviation lookup_member := (lookup_member lib g MassFunction).
Local Abbreviation exec := (exec lib g MassFunction).
Local Abbreviation setattr := (setattr lib g MassFunction inherited_depends).
Local Abbreviation assign_all := (assign_all lib g MassFunction inherited_depends).
Local Abbreviation base_update := (base_update lib g MassFunction inherited_depends).
Local Abbreviation at_ := (at_ lib g MassFunction).
Local Abbreviation assign := (assign lib g MassFunction inherited_depends).
Local Abbreviation super_update := (super_update lib g MassFunction inherited_depends).
Local Abbreviation update_with := (update_with lib g MassFunction inherited_depends).
Local Abbreviation update := (update lib g MassFunction inherited_depends).
Local Abbreviation density_integrand := (density_integrand lib g MassFunction).
Local Abbreviation solver_setup := (solver_setup lib g MassFunction).
Local Abbreviation model := (model lib g MassFunction).
Local Abbreviation smooth_m_min := (smooth_m_min lib g MassFunction).
Local Abbreviation find_m_min_with :=
  (find_m_min_with lib g MassFunction inherited_depends).
Local Abbreviation _find_m_min := (_find_m_min lib g MassFunction inherited_depends).

(** Every parameter of [HaloModel] that the instance stores is a value
    its setter returns for itself. *)
Definition validated (st : inst) : Prop :=
  forall n validate w,
    assoc n (HaloModel.class_dict lib g) = Some (parameter validate) ->
    params st !! n = Some w ->
    validate w = Ok w.

(** Every object of the store is validated. *)
Definition all_validated (h : gmap loc inst) : Prop :=
  forall l st, h !! l = Some st -> validated st.

Lemma validated_params st st' : params st' = params st -> validated st -> validated st'.
Proof. intros E H n validate w Hn Hw. rewrite E in Hw. eauto. Qed.

Lemma setattr_validated n v st : validated st -> validated (setattr n v st).2.
Proof.
  intros Hst. unfold setattr.
  destruct (lookup_member n) as [[ps body|val0|w0]|] eqn:L; simpl; auto.
  destruct (val0 v) as [v'|e] eqn:Ev; simpl; auto.
    assert (Hnew : validated {| params := <[n:=v']> (params st);
                                cache := invalidate lib g MassFunction inherited_depends
                                           n (cache st);
                                attrs := attrs st |}).
    { intros m validate w Hm Hw. simpl in Hw.
      destruct (decide (m = n)) as [->|Hne].
      - rewrite lookup_insert_eq in Hw. injection Hw as <-.
        unfold lookup_member in L. rewrite Hm in L. injection L as <-.
        eapply setter_fixed_point; eauto.
      - rewrite lookup_insert_ne in Hw by congruence. eauto. }
    destruct (params st !! n) as [old|]; simpl; auto.
    destruct (value_eqb old v'); simpl; auto.
Qed.

Lemma assign_all_validated kwargs : forall st,
  validated st -> validated (assign_all kwargs st).2.
Proof.
  induction kwargs as [|[n v] rest IH]; intros st Hst; simpl; auto.
  pose proof (setattr_validated n v st Hst) as H.
  destruct (setattr n v st) as [[u|e] st']; simpl in *; auto.
Qed.

Lemma base_update_validated kwargs st :
  validated st -> validated (base_update kwargs st).2.
Proof.
  intros Hst. unfold base_update. destruct (collect _); simpl; auto.
  apply assign_all_validated. exact Hst.
Qed.

Lemma exec_validated fuel A (p : prog A) st r0 st' :
  exec fuel p st = Some (r0, st') -> validated st -> validated st'.
Proof.
  intros Hx. apply validated_params.
  pose proof (exec_eval lib g MassFunction _ _ _ _ _ _ Hx) as Hev.
  apply (eval_params lib g MassFunction _ _ _ _ _ Hev).
Qed.

Lemma all_validated_insert l st h :
  all_validated h -> validated st -> all_validated (<[l:=st]> h).
Proof.
  intros Hh Hst l' st' H. destruct (decide (l' = l)) as [->|Hne].
  - rewrite lookup_insert_eq in H. injection H as <-. exact Hst.
  - rewrite lookup_insert_ne in H by congruence. eauto.
Qed.

Lemma at_validated A fuel l (p : prog A) :
  preserves all_validated (fun _ => True) (at_ fuel l p).
Proof.
  intros h r0 h' Hh. unfold at_.
  destruct (h !! l) as [st|] eqn:E; [|intros [= _ <-]; auto].
  destruct (exec fuel p st) as [[r1 st']|] eqn:Hx; [|discriminate].
  intros [= _ <-]. split; [|auto].
  apply all_validated_insert; [exact Hh|]. eapply exec_validated; eauto.
Qed.

Lemma assign_validated l n v :
  preserves all_validated (fun _ => True) (assign l n v).
Proof.
  intros h r0 h' Hh. unfold assign.
  destruct (h !! l) as [st|] eqn:E; [|intros [= _ <-]; auto].
  pose proof (setattr_validated n v st (Hh l st E)) as Hst.
  destruct (setattr n v st) as [r1 st']. intros [= _ <-]. split; [|auto].
  apply all_validated_insert; assumption.
Qed.

Lemma super_update_validated l kwargs :
  preserves all_validated (fun _ => True) (super_update l kwargs).
Proof.
  intros h r0 h' Hh. unfold super_update.
  destruct (h !! l) as [st|] eqn:E; [|intros [= _ <-]; auto].
  pose proof (base_update_validated kwargs st (Hh l st E)) as Hst.
  destruct (base_update kwargs st) as [r1 st']. intros [= _ <-]. split; [|auto].
  apply all_validated_insert; assumption.
Qed.

Lemma deepcopy_validated l :
  preserves all_validated (fun _ => True) (deepcopy l).
Proof.
  intros h r0 h' Hh. unfold deepcopy.
  destruct (h !! l) as [st|] eqn:E; [|intros [= _ <-]; auto].
  intros [= _ <-]. split; [|auto].
  apply all_validated_insert; [exact Hh | eauto].
Qed.

Lemma preserves_drive Inv (objective : Q -> Op Q) (m : minimizer) :
  (forall x, preserves Inv (fun _ => True) (objective x)) ->
  preserves Inv (fun _ => True) (drive objective m).
Proof.
  intros Hobj. induction m as [x k IH|res]; simpl.
  - eapply preserves_obind; [apply Hobj | intros y _; apply IH].
  - apply preserves_oret. exact I.
Qed.

Ltac keeps_validated :=
  repeat first
    [ apply preserves_oret; exact I
    | apply preserves_olift
    | apply at_validated
    | apply assign_validated
    | apply super_update_validated
    | apply deepcopy_validated
    | eapply preserves_obind; [|intros ? _] ].

Lemma density_integrand_validated fuel c :
  preserves all_validated (fun _ => True) (density_integrand fuel c).
Proof. unfold density_integrand. keeps_validated. Qed.

Lemma update_with_validated find fuel l kwargs :
  (forall c ng, preserves all_validated (fun _ => True) (find c ng)) ->
  preserves all_validated (fun _ => True) (update_with find fuel l kwargs).
Proof.
  intros Hfind. unfold update_with.
  eapply preserves_obind with (Q' := fun _ => True).
  - destruct (assoc "ng" kwargs) as [v|]; [keeps_validated|].
    destruct (assoc "hod_params" kwargs) as [hp|]; [|keeps_validated].
    eapply preserves_obind; [apply preserves_olift | intros b _].
    destruct b; keeps_validated.
  - intros kw _. keeps_validated.
    destruct (negb (is_none a0)); [|keeps_validated].
    eapply preserves_obind; [apply Hfind | intros mmin _]. keeps_validated.
Qed.

Lemma find_m_min_with_validated find fuel l ng :
  (forall c ng', preserves all_validated (fun _ => True) (find c ng')) ->
  preserves all_validated (fun _ => True) (find_m_min_with find fuel l ng).
Proof.
  intros Hfind.
  assert (Hupd : forall c kwargs,
            preserves all_validated (fun _ => True) (update_with find fuel c kwargs))
    by (intros c kwargs; apply update_with_validated; exact Hfind).
  unfold find_m_min_with.
  eapply preserves_obind with (Q' := fun _ => True).
  - unfold solver_setup.
    eapply preserves_obind; [apply at_validated | intros _ _].
    eapply preserves_obind; [apply deepcopy_validated | intros c _].
    eapply preserves_obind; [apply Hupd | intros _ _].
    eapply preserves_obind; [apply density_integrand_validated | intros mi _].
    keeps_validated.
  - intros s _.
    eapply preserves_obind; [apply preserves_olift | intros x _].
    destruct (sharp_cut s); [apply preserves_olift|].
    unfold smooth_m_min.
    eapply preserves_obind; [apply preserves_olift | intros _ _].
    eapply preserves_obind; [|intros res _; apply preserves_olift].
    apply preserves_drive. intros mmin. unfold model.
    eapply preserves_obind; [apply Hupd | intros _ _].
    eapply preserves_obind; [apply density_integrand_validated | intros mi _].
    keeps_validated.
Qed.

Lemma find_m_min_validated fuel : forall l ng,
  preserves all_validated (fun _ => True) (_find_m_min fuel l ng).
Proof.
  induction fuel as [|fuel IH]; intros l ng; [intros h r0 h' _ H; discriminate|].
  simpl. apply find_m_min_with_validated. exact IH.
Qed.

(** X11.  Validation is an invariant of the store: when every object holds
    validated parameters, so it is after an assignment, after reading any
    property, after [update] and after [_find_m_min], whether they succeed
    or raise; this includes the working copy that the solver leaves
    behind. *)
Theorem stored_parameters_stay_validated h :
  all_validated h ->
  (forall l n v r0 h', assign l n v h = Some (r0, h') -> all_validated h') /\
  (forall fuel l n r0 h', at_ fuel l (self n) h = Some (r0, h') -> all_validated h') /\
  (forall fuel l kwargs r0 h',
     update fuel l kwargs h = Some (r0, h') -> all_validated h') /\
  (forall fuel l ng r0 h',
     _find_m_min fuel l ng h = Some (r0, h') -> all_validated h').
Proof.
  intros Hh. split; [|split; [|split]].
  - intros l n v r0 h' H. eapply assign_validated; eauto.
  - intros fuel l n r0 h' H. eapply at_validated; eauto.
  - intros fuel l kwargs r0 h' H.
    eapply (update_with_validated (_find_m_min fuel) fuel l kwargs); eauto.
    intros c ng. apply find_m_min_validated.
  - intros fuel l ng r0 h' H. eapply find_m_min_validated; eauto.
Qed.

End Validated.

Lemma demo_store_validated : all_validated Demo.lib module_globals demo_store.
Proof.
  intros l st H. unfold demo_store in H.
  apply lookup_singleton_Some in H as [_ <-].
  intros n validate w Hn Hw.
  class_member Hn n; injection Hn as <-; subst n;
    vm_compute in Hw; try discriminate Hw; injection Hw as <-; reflexivity.
Defined.

Lemma stored_parameters_stay_validated_witness :
  all_validated Demo.lib module_globals demo_store /\
  (forall l n v r0 h',
     assign Demo.lib module_globals Demo.MassFunction Demo.inherited_depends
       l n v demo_store = Some (r0, h') ->
     all_validated Demo.lib module_globals h') /\
  (forall fuel l n r0 h',
     at_ Demo.lib module_globals Demo.MassFunction fuel l (self n) demo_store
       = Some (r0, h') ->
     all_validated Demo.lib module_globals h') /\
  (forall fuel l kwargs r0 h',
     update Demo.lib module_globals Demo.MassFunction Demo.inherited_depends
       fuel l kwargs demo_store = Some (r0, h') ->
     all_validated Demo.lib module_globals h') /\
  (forall fuel l ng r0 h',
     _find_m_min Demo.lib module_globals Demo.MassFunction Demo.inherited_depends
       fuel l ng demo_store = Some (r0, h') ->
     all_validated Demo.lib module_globals h').
Proof.
  split; [exact demo_store_validated|].
  exact (stored_parameters_stay_validated Demo.lib module_globals Demo.MassFunction
           Demo.inherited_depends demo_store demo_store_validated).
Defined.

(** * Cached values that outlive what they were computed from *)

Section Staleness.

Variable lib : Lib.
Variable g : globals.
Variable MassFunction : string -> option member.
Variable inherited_depends : string -> string -> bool.

Local Abbreviation lookup_member := (lookup_member lib g MassFunction).
Local Abbreviation leaf_depends := (leaf_depends lib g MassFunction inherited_depends).
Local Abbreviation depends := (depends lib g MassFunction inherited_depends).
Local Abbreviation invalidate := (invalidate lib g MassFunction inherited_depends).
Local Abbreviation setattr := (setattr lib g MassFunction inherited_depends).

(** An assignment that changes the stored value. *)
Lemma setattr_changed n validate v w st :
  lookup_member n = Some (parameter validate) ->
  validate v = Ok w ->
  (forall old, params st !! n = Some old -> value_eqb old w = false) ->
  setattr n v st
  = (Ok tt, {| params := <[n:=w]> (params st);
               cache := invalidate n (cache st);
               attrs := attrs st |}).
Proof.
  intros Hm Hv Hnew. unfold setattr. rewrite Hm, Hv.
  destruct (params st !! n) as [old|] eqn:E; [|reflexivity].
  rewrite (Hnew old eq_refl). reflexivity.
Qed.

Lemma leaf_independent_of p l :
  (forall l', inherited_depends l' p = false) ->
  String.eqb l p = false -> leaf_depends l p = false.
Proof.
  intros Hinh E. unfold leaf_depends.
  destruct (assoc l (HaloModel.class_dict lib g)) as [[ps body|validate|v]|]; auto.
  destruct (MassFunction l) as [[ps body|validate|v]|]; auto.
Qed.

Lemma independent_of p n :
  (forall l, inherited_depends l p = false) ->
  forallb (fun l => negb (String.eqb l p))
          (leaves lib g (length (HaloModel.class_dict lib g)) n) = true ->
  depends n p = false.
Proof.
  intros Hinh. unfold depends.
  induction (leaves lib g (length (HaloModel.class_dict lib g)) n) as [|l ls IH];
    simpl; [reflexivity|].
  intros H. apply andb_true_iff in H as [Hl Hls].
  rewrite leaf_independent_of, IH; auto.
  apply negb_true_iff. exact Hl.
Qed.

Lemma dependent_on p n validate :
  assoc p (HaloModel.class_dict lib g) = Some (parameter validate) ->
  existsb (String.eqb p) (leaves lib g (length (HaloModel.class_dict lib g)) n) = true ->
  depends n p = true.
Proof.
  intros Hp H. unfold depends. apply existsb_exists in H as (l & Hl & E).
  apply String.eqb_eq in E. subst l.
  apply existsb_exists. exists p. split; [exact Hl|].
  unfold leaf_depends. rewrite Hp. apply String.eqb_refl.
Qed.

(** X12.  Assigning a new profile model drops the cached profile and what is
    declared to depend on it: the two-halo term, the combined correlation
    and the matter terms.  The galaxy one-halo terms [corr_gal_1h] and
    [_corr_gg_1h_cs] stay cached, although their bodies read
    [self.profile]: their decorators do not name it. *)
Theorem halo_profile_keeps_one_halo_terms st v w :
  (forall l, inherited_depends l "halo_profile" = false) ->
  HaloModel.halo_profile lib v = Ok w ->
  (forall old, params st !! "halo_profile" = Some old -> value_eqb old w = false) ->
  let st' := (setattr "halo_profile" v st).2 in
  (setattr "halo_profile" v st).1 = Ok tt /\
  params st' !! "halo_profile" = Some w /\
  cache st' !! "profile" = None /\
  cache st' !! "corr_gal_2h" = None /\
  cache st' !! "corr_gal" = None /\
  cache st' !! "_power_mm_1h" = None /\
  cache st' !! "_corr_mm_1h" = None /\
  cache st' !! "corr_gal_1h" = cache st !! "corr_gal_1h" /\
  cache st' !! "_corr_gg_1h_cs" = cache st !! "_corr_gg_1h_cs".
Proof.
  intros Hinh Hv Hnew.
  rewrite (setattr_changed "halo_profile" (HaloModel.halo_profile lib) v w st
             eq_refl Hv Hnew).
  simpl.
  split; [reflexivity|]. split; [apply lookup_insert_eq|].
  repeat split.
  all: rewrite lookup_invalidate.
  1-5: erewrite dependent_on; [reflexivity | reflexivity | vm_compute; reflexivity].
  all: rewrite independent_of; [reflexivity | exact Hinh | vm_compute; reflexivity].
Qed.

(** Two dictionaries that bind some key differently are different. *)
Lemma dict_differs (old new : list (string * value)) k x :
  assoc k new = Some x ->
  (forall y, assoc k old = Some y -> value_eqb y x = false) ->
  value_eqb (VDict old) (VDict new) = false.
Proof.
  intros Hk Hold. destruct (value_eqb (VDict old) (VDict new)) eqn:E; [|reflexivity].
  exfalso. simpl in E. revert new Hk E.
  induction old as [|[k1 v1] old IH]; intros [|[k2 v2] new] Hk E; try discriminate.
  apply andb_true_iff in E as [E E3]. apply andb_true_iff in E as [E1 E2].
  apply String.eqb_eq in E1. subst k2.
  simpl in Hk, Hold. destruct (String.eqb k k1) eqn:Ek.
  - injection Hk as <-. rewrite (Hold v1 eq_refl) in E2. discriminate.
  - exact (IH Hold new Hk E3).
Qed.

(** X13.  Assigning occupation parameters that bind some key differently from
    the stored dictionary drops the cached occupation model and the cached
    satellite power [_power_gg_1h_ss], but not [_corr_gg_1h_ss], which is
    computed from that power: the decorator of [_corr_gg_1h_ss] names
    [_power_gal_1h_ss], which is not a member of the class. *)
Theorem hod_params_keeps_satellite_correlation st old new k x :
  MassFunction "_power_gal_1h_ss" = None ->
  leaf_depends "k" "hod_params" = false ->
  params st !! "hod_params" = Some (VDict old) ->
  assoc k new = Some x ->
  (forall y, assoc k old = Some y -> value_eqb y x = false) ->
  let st' := (setattr "hod_params" (VDict new) st).2 in
  (setattr "hod_params" (VDict new) st).1 = Ok tt /\
  cache st' !! "hod" = None /\
  cache st' !! "_power_gg_1h_ss" = None /\
  cache st' !! "_corr_gg_1h_ss" = cache st !! "_corr_gg_1h_ss".
Proof.
  intros Hmf Hk Hst Hnew Hold.
  rewrite (setattr_changed "hod_params" HaloModel.hod_params (VDict new) (VDict new) st
             eq_refl eq_refl).
  2: { intros w Hw. rewrite Hst in Hw. injection Hw as <-.
       exact (dict_differs old new k x Hnew Hold). }
  simpl.
  split; [reflexivity|].
  repeat split.
  all: rewrite lookup_invalidate.
  1-2: erewrite dependent_on; [reflexivity | reflexivity | vm_compute; reflexivity].
  assert (E : leaves lib g (length (HaloModel.class_dict lib g)) "_corr_gg_1h_ss"
              = ["_power_gal_1h_ss"; "k"; "rmin"; "rmax"; "rnum"])
    by (vm_compute; reflexivity).
  unfold depends. rewrite E. cbn [existsb]. rewrite Hk.
  unfold leaf_depends. cbn [assoc HaloModel.class_dict]. simpl. rewrite Hmf.
  reflexivity.
Qed.

End Staleness.

Lemma demo_inherited_profile_independent :
  forall l, Demo.inherited_depends l "halo_profile" = false.
Proof.
  intros l. unfold Demo.inherited_depends. simpl.
  repeat match goal with
         | |- context [String.eqb l ?s] => destruct (String.eqb l s)
         end; reflexivity.
Defined.

Lemma halo_profile_keeps_one_halo_terms_witness :
  ((forall l, Demo.inherited_depends l "halo_profile" = false) /\
   HaloModel.halo_profile Demo.lib (VStr "Hernquist") = Ok (VStr "Hernquist") /\
   (forall old, params warm_instance !! "halo_profile" = Some old ->
                value_eqb old (VStr "Hernquist") = false)) /\
  let st' := (setattr Demo.lib module_globals Demo.MassFunction Demo.inherited_depends
                "halo_profile" (VStr "Hernquist") warm_instance).2 in
  (setattr Demo.lib module_globals Demo.MassFunction Demo.inherited_depends
     "halo_profile" (VStr "Hernquist") warm_instance).1 = Ok tt /\
  params st' !! "halo_profile" = Some (VStr "Hernquist") /\
  cache st' !! "profile" = None /\
  cache st' !! "corr_gal_2h" = None /\
  cache st' !! "corr_gal" = None /\
  cache st' !! "_power_mm_1h" = None /\
  cache st' !! "_corr_mm_1h" = None /\
  cache st' !! "corr_gal_1h" = cache warm_instance !! "corr_gal_1h" /\
  cache st' !! "_corr_gg_1h_cs" = cache warm_instance !! "_corr_gg_1h_cs".
Proof.
  assert (Hnew : forall old, params warm_instance !! "halo_profile" = Some old ->
                             value_eqb old (VStr "Hernquist") = false).
  { intros old H. vm_compute in H. injection H as <-. reflexivity. }
  split; [split; [exact demo_inherited_profile_independent | split; [reflexivity | exact Hnew]]|].
  exact (halo_profile_keeps_one_halo_terms Demo.lib module_globals Demo.MassFunction
           Demo.inherited_depends warm_instance (VStr "Hernquist") (VStr "Hernquist")
           demo_inherited_profile_independent eq_refl Hnew).
Defined.

(** The new instance after a read of [_corr_gg_1h_ss], which computes and
    caches the satellite power on the way. *)
Definition satellite_correlation_read : inst :=
  match exec Demo.lib module_globals Demo.MassFunction 9 (self "_corr_gg_1h_ss")
          Demo.new_instance with
  | Some (_, st) => st
  | None => Demo.new_instance
  end.

Lemma hod_params_keeps_satellite_correlation_witness :
  (Demo.MassFunction "_power_gal_1h_ss" = None /\
   leaf_depends Demo.lib module_globals Demo.MassFunction Demo.inherited_depends
     "k" "hod_params" = false /\
   params satellite_correlation_read !! "hod_params" = Some (VDict [("M_min", VNum 16)]) /\
   assoc "M_min" [("M_min", VNum 13)] = Some (VNum 13) /\
   (forall y, assoc "M_min" [("M_min", VNum 16)] = Some y ->
              value_eqb y (VNum 13) = false)) /\
  (is_Some (cache satellite_correlation_read !! "hod") /\
   is_Some (cache satellite_correlation_read !! "_power_gg_1h_ss") /\
   is_Some (cache satellite_correlation_read !! "_corr_gg_1h_ss")) /\
  let st' := (setattr Demo.lib module_globals Demo.MassFunction Demo.inherited_depends
                "hod_params" (VDict [("M_min", VNum 13)]) satellite_correlation_read).2 in
  (setattr Demo.lib module_globals Demo.MassFunction Demo.inherited_depends
     "hod_params" (VDict [("M_min", VNum 13)]) satellite_correlation_read).1 = Ok tt /\
  cache st' !! "hod" = None /\
  cache st' !! "_power_gg_1h_ss" = None /\
  cache st' !! "_corr_gg_1h_ss" = cache satellite_correlation_read !! "_corr_gg_1h_ss" /\
  is_Some (cache st' !! "_corr_gg_1h_ss").
Proof.
  assert (Hst : params satellite_correlation_read !! "hod_params"
                = Some (VDict [("M_min", VNum 16)])) by (vm_compute; reflexivity).
  assert (Hold : forall y, assoc "M_min" [("M_min", VNum 16)] = Some y ->
                           value_eqb y (VNum 13) = false).
  { intros y H. injection H as <-. reflexivity. }
  assert (Hc : forall n, match cache satellite_correlation_read !! n with
                         | Some _ => true
                         | None => false
                         end = true ->
                         is_Some (cache satellite_correlation_read !! n)).
  { intros n H. destruct (cache satellite_correlation_read !! n); [eauto | discriminate H]. }
  pose proof (hod_params_keeps_satellite_correlation Demo.lib module_globals
                Demo.MassFunction Demo.inherited_depends satellite_correlation_read
                [("M_min", VNum 16)] [("M_min", VNum 13)] "M_min" (VNum 13)
                eq_refl eq_refl Hst eq_refl Hold) as (H1 & H2 & H3 & H4).
  split; [split; [reflexivity | split; [reflexivity | split; [exact Hst | split;
          [reflexivity | exact Hold]]]]|].
  split; [repeat split; apply Hc; vm_compute; reflexivity|].
  split; [exact H1|]. split; [exact H2|]. split; [exact H3|]. split; [exact H4|].
  rewrite H4. apply Hc. vm_compute. reflexivity.
Defined.

(** * The constructor *)

(** The arguments of [__init__] (source lines 45-50), apart from the
    keywords it passes on to the inherited constructor. *)
Record init_args : Type := {
  arg_rmin : value;
  arg_rmax : value;
  arg_rnum : value;
  arg_hod_params : value;
  arg_hod_model : value;
  arg_halo_profile : value;
  arg_cm_relation : value;
  arg_bias_model : value;
  arg_nonlinear : value;
  arg_scale_dependent_bias : value;
  arg_halo_exclusion : value;
  arg_ng : value;
  arg_nthreads_2halo : value;
  arg_proj_limit : value;
  arg_bias_params : value;
  arg_cm_params : value
}.

(** The defaults of the signature. *)
Definition default_args : init_args := {|
  arg_rmin := VNum (1 # 10);
  arg_rmax := VNum 50;
  arg_rnum := VNum 20;
  arg_hod_params := VDict [];
  arg_hod_model := VStr "Zehavi05";
  arg_halo_profile := VStr "NFW";
  arg_cm_relation := VStr "Duffy";
  arg_bias_model := VStr "Tinker10";
  arg_nonlinear := VBool true;
  arg_scale_dependent_bias := VBool true;
  arg_halo_exclusion := VStr "None";
  arg_ng := VNone;
  arg_nthreads_2halo := VNum 0;
  arg_proj_limit := VNone;
  arg_bias_params := VDict [];
  arg_cm_params := VDict []
|}.

(** The assignments of lines 56-71, in their order. *)
Definition init_assignments (a : init_args) : list (string * value) :=
  [ ("hod_params", arg_hod_params a);
    ("hod_model", arg_hod_model a);
    ("halo_profile", arg_halo_profile a);
    ("cm_relation", arg_cm_relation a);
    ("bias_model", arg_bias_model a);
    ("rmin", arg_rmin a);
    ("rmax", arg_rmax a);
    ("rnum", arg_rnum a);
    ("nonlinear", arg_nonlinear a);
    ("halo_exclusion", arg_halo_exclusion a);
    ("scale_dependent_bias", arg_scale_dependent_bias a);
    ("bias_params", arg_bias_params a);
    ("nthreads_2halo", arg_nthreads_2halo a);
    ("cm_params", arg_cm_params a);
    ("ng", arg_ng a) ].

Lemma list_eqb_Qeq_refl (l : list Q) : list_eqb Qeq_bool l l = true.
Proof.
  induction l as [|x l IH]; simpl; [reflexivity|].
  rewrite IH, andb_true_r. apply Qeq_bool_iff. reflexivity.
Qed.

(** Python's [==] holds between a value and itself. *)
Fixpoint value_eqb_refl (v : value) : value_eqb v v = true.
Proof.
  assert (Hitems : forall items : list (string * value),
            (fix all (l : list (string * value)) : Prop :=
               match l with
               | [] => True
               | (_, x) :: l' => value_eqb x x = true /\ all l'
               end) items ->
            (fix go (l1 l2 : list (string * value)) {struct l1} : bool :=
               match l1, l2 with
               | [], [] => true
               | (k1, v1) :: l1', (k2, v2) :: l2' =>
                   String.eqb k1 k2 && value_eqb v1 v2 && go l1' l2'
               | _, _ => false
               end) items items = true).
  { induction items as [|[k x] rest IH]; [reflexivity|].
    intros [Hx Hrest]. rewrite String.eqb_refl, Hx, (IH Hrest). reflexivity. }
  assert (Hall : forall items : list (string * value),
            (fix all (l : list (string * value)) : Prop :=
               match l with
               | [] => True
               | (_, x) :: l' => value_eqb x x = true /\ all l'
               end) items).
  { fix all_refl 1. intros [|[k x] rest]; [exact I|].
    split; [apply value_eqb_refl | apply all_refl]. }
  destruct v as [|b|x|s|xs|rows|items|cls|cls init]; simpl.
  - reflexivity.
  - destruct b; reflexivity.
  - apply Qeq_bool_iff. reflexivity.
  - apply String.eqb_refl.
  - apply list_eqb_Qeq_refl.
  - induction rows as [|row rows IH]; simpl; [reflexivity|].
    rewrite list_eqb_Qeq_refl, IH. reflexivity.
  - apply Hitems, Hall.
  - apply String.eqb_refl.
  - rewrite String.eqb_refl. simpl. apply Hitems, Hall.
Qed.

Section Constructor.

Variable lib : Lib.
Variable g : globals.
Variable MassFunction : string -> option member.
Variable inherited_depends : string -> string -> bool.

(** [super(HaloModel, self).__init__] with the keywords for the inherited
    class: the constructor of [hmf.MassFunction], which prepares the object
    at the given location. *)
Variable super_init : loc -> list (string * value) -> Op unit.

Local Abbreviation lookup_member := (lookup_member lib g MassFunction).
Local Abbreviation setattr := (setattr lib g MassFunction inherited_depends).
Local Abbreviation assign_all := (assign_all lib g MassFunction inherited_depends).
Local Abbreviation assign := (assign lib g MassFunction inherited_depends).
Local Abbreviation _find_m_min := (_find_m_min lib g MassFunction inherited_depends).

Local Open Scope op_scope.

(** [__init__] (source lines 45-76).  The argument [proj_limit] is not
    used. *)
Definition __init__ (fuel : nat) (l : loc) (a : init_args)
    (hmf_kwargs : list (string * value)) : Op unit :=
  _ ← super_init l hmf_kwargs;
  _ ← assign l "hod_params" (arg_hod_params a);
  _ ← assign l "hod_model" (arg_hod_model a);
  _ ← assign l "halo_profile" (arg_halo_profile a);
  _ ← assign l "cm_relation" (arg_cm_relation a);
  _ ← assign l "bias_model" (arg_bias_model a);
  _ ← assign l "rmin" (arg_rmin a);
  _ ← assign l "rmax" (arg_rmax a);
  _ ← assign l "rnum" (arg_rnum a);
  _ ← assign l "nonlinear" (arg_nonlinear a);
  _ ← assign l "halo_exclusion" (arg_halo_exclusion a);
  _ ← assign l "scale_dependent_bias" (arg_scale_dependent_bias a);
  _ ← assign l "bias_params" (arg_bias_params a);
  _ ← assign l "nthreads_2halo" (arg_nthreads_2halo a);
  _ ← assign l "cm_params" (arg_cm_params a);
  _ ← assign l "ng" (arg_ng a);
  if negb (is_none (arg_ng a))
  then mmin ← _find_m_min fuel l (arg_ng a);
       assign l "hod_params" (VDict [("M_min", VNum mmin)])
  else oret tt.

(** Assignments in sequence on one object. *)
Fixpoint assign_each (l : loc) (kvs : list (string * value)) (k : Op unit) : Op unit :=
  match kvs with
  | [] => k
  | (n, v) :: rest => _ ← assign l n v; assign_each l rest k
  end.

Lemma init_as_sequence fuel l a hmf_kwargs :
  __init__ fuel l a hmf_kwargs
  = (_ ← super_init l hmf_kwargs;
     assign_each l (init_assignments a)
       (if negb (is_none (arg_ng a))
        then mmin ← _find_m_min fuel l (arg_ng a);
             assign l "hod_params" (VDict [("M_min", VNum mmin)])
        else oret tt)).
Proof. reflexivity. Qed.

(** A sequence of assignments on the object at [l] is the sequence on the
    instance: it stops at the first rejected value. *)
Lemma assign_each_run l kvs k : forall h st,
  h !! l = Some st ->
  assign_each l kvs k h
  = match assign_all kvs st with
    | (Ok _, st') => k (<[l:=st']> h)
    | (Raise e, st') => Some (Raise e, <[l:=st']> h)
    end.
Proof.
  induction kvs as [|[n v] rest IH]; intros h st Hl; simpl.
  - rewrite (insert_id h l st Hl). reflexivity.
  - unfold obind, assign. rewrite Hl.
    destruct (setattr n v st) as [[u|e] st1]; [|reflexivity].
    rewrite (IH (<[l:=st1]> h) st1 (lookup_insert_eq _ _ _)).
    destruct (assign_all rest st1) as [[u'|e'] st2]; rewrite insert_insert_eq;
      reflexivity.
Qed.


Lemma assign_each_missing l kvs k h :
  h !! l = None -> kvs <> [] ->
  assign_each l kvs k h = Some (Raise ReferenceError, h).
Proof.
  intros Hl Hne. destruct kvs as [|[n v] rest]; [congruence|].
  simpl. unfold obind, assign. rewrite Hl. reflexivity.
Qed.

(** What an accepted assignment [self.n = v] leaves on the instance: for
    a parameter, a value equal to the one its setter returns for [v]; for
    a plain attribute, [v] itself. *)
Definition stored (n : string) (v : value) (st : inst) : Prop :=
  match lookup_member n with
  | Some (parameter validate) =>
      exists w w', validate v = Ok w /\ params st !! n = Some w' /\ value_eqb w' w = true
  | Some (cached_property _ _) => False
  | _ => attrs st !! n = Some v
  end.

Lemma setattr_stored n v st st' : setattr n v st = (Ok tt, st') -> stored n v st'.
Proof.
  unfold setattr, stored.
  destruct (lookup_member n) as [[ps body|validate|w0]|]; try discriminate.
  - destruct (validate v) as [w|e]; [|discriminate].
    destruct (params st !! n) as [old|] eqn:E.
    + destruct (value_eqb old w) eqn:Eq; intros [= <-].
      * exists w, old. auto.
      * exists w, w. simpl. rewrite lookup_insert_eq. auto using value_eqb_refl.
    + intros [= <-]. exists w, w. simpl. rewrite lookup_insert_eq.
      auto using value_eqb_refl.
  - intros [= <-]. simpl. apply lookup_insert_eq.
  - intros [= <-]. simpl. apply lookup_insert_eq.
Qed.

Lemma setattr_attrs_ne n v st m :
  m <> n -> attrs (setattr n v st).2 !! m = attrs st !! m.
Proof.
  intros Hne. unfold setattr.
  destruct (lookup_member n) as [[ps body|validate|w]|]; simpl;
    try reflexivity; try (apply lookup_insert_ne; congruence).
  destruct (validate v) as [v'|e]; simpl; [|reflexivity].
  destruct (params st !! n) as [old|]; simpl; [|reflexivity].
  destruct (value_eqb old v'); reflexivity.
Qed.

Lemma setattr_keeps_stored n w st m v :
  m <> n -> stored m v st -> stored m v (setattr n w st).2.
Proof.
  intros Hne. unfold stored.
  rewrite (setattr_params_ne lib g MassFunction inherited_depends n w st m Hne).
  rewrite (setattr_attrs_ne n w st m Hne). auto.
Qed.

Lemma assign_all_keeps_stored m v kvs : forall st,
  ~ In m (map fst kvs) -> stored m v st -> stored m v (assign_all kvs st).2.
Proof.
  induction kvs as [|[n w] rest IH]; intros st Hm Hst; simpl; [exact Hst|].
  simpl in Hm.
  pose proof (setattr_keeps_stored n w st m v ltac:(intuition) Hst) as H1.
  destruct (setattr n w st) as [[u|e] st1]; simpl in *; [|exact H1].
  apply IH; [intuition | exact H1].
Qed.

(** A sequence of accepted assignments to distinct names stores them
    all. *)
Lemma assign_all_stored kvs : forall st st',
  NoDup (map fst kvs) ->
  assign_all kvs st = (Ok tt, st') ->
  forall n v, In (n, v) kvs -> stored n v st'.
Proof.
  induction kvs as [|[n0 v0] rest IH]; intros st st' Hnd Hrun n v Hin; [destruct Hin|].
  simpl in Hrun, Hnd. apply NoDup_cons in Hnd as [Hfresh Hnd].
  destruct (setattr n0 v0 st) as [[[]|e] st1] eqn:Hs; [|discriminate].
  destruct Hin as [[= <- <-]|Hin].
  - pose proof (assign_all_keeps_stored n0 v0 rest st1
                  ltac:(rewrite <- list_elem_of_In; exact Hfresh)
                  (setattr_stored _ _ _ _ Hs)) as H.
    rewrite Hrun in H. exact H.
  - eapply IH; eauto.
Qed.

(** X14.  A construction without a target density that succeeds leaves on the
    new object every argument as its setter returns it (up to [==]), and
    [nthreads_2halo] as a plain attribute; the solver does not run. *)
Theorem init_stores_its_arguments fuel l a hmf_kwargs h h0 st0 h' :
  super_init l hmf_kwargs h = Some (Ok tt, h0) ->
  h0 !! l = Some st0 ->
  MassFunction "nthreads_2halo" = None ->
  arg_ng a = VNone ->
  __init__ fuel l a hmf_kwargs h = Some (Ok tt, h') ->
  exists st',
    h' = <[l:=st']> h0 /\
    assign_all (init_assignments a) st0 = (Ok tt, st') /\
    (forall n v validate,
       In (n, v) (init_assignments a) ->
       assoc n (HaloModel.class_dict lib g) = Some (parameter validate) ->
       exists w w',
         validate v = Ok w /\ params st' !! n = Some w' /\ value_eqb w' w = true) /\
    attrs st' !! "nthreads_2halo" = Some (arg_nthreads_2halo a).
Proof.
  intros Hsuper Hl Hthreads Hng H.
  rewrite init_as_sequence in H. unfold obind at 1 in H. rewrite Hsuper in H.
  rewrite (assign_each_run l _ _ h0 st0 Hl) in H. rewrite Hng in H. simpl negb in H.
  cbv iota in H.
  destruct (assign_all (init_assignments a) st0) as [[[]|e] st'] eqn:Hrun;
    [|discriminate].
  injection H as <-. exists st'. split; [reflexivity|]. split; [reflexivity|].
  assert (Hnd : NoDup (map fst (init_assignments a))).
  { simpl. compute_done. }
  pose proof (assign_all_stored _ _ _ Hnd Hrun) as Hall.
  split.
  - intros n v validate Hin Hn. specialize (Hall n v Hin). unfold stored in Hall.
    unfold lookup_member in Hall. rewrite Hn in Hall. exact Hall.
  - specialize (Hall "nthreads_2halo" (arg_nthreads_2halo a)).
    unfold stored, lookup_member in Hall. simpl assoc in Hall.
    rewrite Hthreads in Hall. apply Hall. simpl. tauto.
Qed.

(** X15.  A construction with a target density that succeeds has stored its
    arguments, called the solver for the target on the object so prepared,
    and bound ["M_min"] in [hod_params] to the mass the solver returned,
    whatever ["M_min"] the argument [hod_params] gave. *)
Theorem init_with_target_sets_M_min fuel l a hmf_kwargs h h' st' :
  __init__ fuel l a hmf_kwargs h = Some (Ok tt, h') ->
  arg_ng a <> VNone ->
  h' !! l = Some st' ->
  exists h0 st0 st1 h4 mmin items y,
    super_init l hmf_kwargs h = Some (Ok tt, h0) /\
    h0 !! l = Some st0 /\
    assign_all (init_assignments a) st0 = (Ok tt, st1) /\
    _find_m_min fuel l (arg_ng a) (<[l:=st1]> h0) = Some (Ok mmin, h4) /\
    params st' !! "hod_params" = Some (VDict items) /\
    assoc "M_min" items = Some (VNum y) /\
    y == mmin.
Proof.
  intros H Hng Hl. rewrite init_as_sequence in H.
  apply obind_inv in H as [([] & h0 & Hsuper & H)|(e & _ & He)]; [|discriminate].
  destruct (h0 !! l) as [st0|] eqn:E0.
  - rewrite (assign_each_run l _ _ h0 st0 E0) in H.
    destruct (assign_all (init_assignments a) st0) as [[[]|e] st1] eqn:Hrun;
      [|discriminate].
    assert (Hnone : is_none (arg_ng a) = false)
      by (destruct (arg_ng a); simpl; congruence).
    rewrite Hnone in H. simpl negb in H. cbv iota in H.
    apply obind_inv in H as [(mmin & h4 & Hfind & H)|(e & _ & He)]; [|discriminate].
    unfold assign in H. destruct (h4 !! l) as [st4|] eqn:E4; [|discriminate].
    pose proof (setattr_M_min lib g MassFunction inherited_depends st4 mmin)
      as [_ (items & y & Hy & Hitems & Hyq)].
    destruct (setattr "hod_params" (VDict [("M_min", VNum mmin)]) st4) as [r1 st5].
    injection H as _ <-. rewrite lookup_insert_eq in Hl. injection Hl as <-.
    exists h0, st0, st1, h4, mmin, items, y. auto 8.
  - rewrite assign_each_missing in H; [discriminate | exact E0 | discriminate].
Qed.

End Constructor.

(** ** The constructor on the worked configuration *)

(** A stand-in for the inherited constructor: it creates the object with
    the inherited parameters at their defaults. *)
Definition demo_super_init (l : loc) (hmf_kwargs : list (string * value)) : Op unit :=
  fun h =>
    Some (Ok tt,
          <[l := {| params := list_to_map
                      [ ("dlog10m", VNum (1 # 100)); ("z", VNum 0);
                        ("growth_model", VStr "GrowthFactor") ];
                    cache := ∅;
                    attrs := ∅ |}]> h).

Definition demo_init :=
  __init__ Demo.lib module_globals Demo.MassFunction Demo.inherited_depends
    demo_super_init.

(** The constructor with the occupation model of ten grid points, and the
    arguments of [HaloModel(hod_params={"M_min": 16}, ng=0.00023)]. *)
Definition ten_point_init :=
  __init__ ten_point_lib module_globals Demo.MassFunction Demo.inherited_depends
    demo_super_init.

Definition target_args : init_args := {|
  arg_rmin := VNum (1 # 10);
  arg_rmax := VNum 50;
  arg_rnum := VNum 20;
  arg_hod_params := VDict [("M_min", VNum 16)];
  arg_hod_model := VStr "Zehavi05";
  arg_halo_profile := VStr "NFW";
  arg_cm_relation := VStr "Duffy";
  arg_bias_model := VStr "Tinker10";
  arg_nonlinear := VBool true;
  arg_scale_dependent_bias := VBool true;
  arg_halo_exclusion := VStr "None";
  arg_ng := VNum (23 # 100000);
  arg_nthreads_2halo := VNum 0;
  arg_proj_limit := VNone;
  arg_bias_params := VDict [];
  arg_cm_params := VDict []
|}.

Lemma init_stores_its_arguments_witness :
  exists h0 st0 h',
    (demo_super_init 0%nat [] ∅ = Some (Ok tt, h0) /\
     h0 !! 0%nat = Some st0 /\
     Demo.MassFunction "nthreads_2halo" = None /\
     arg_ng default_args = VNone /\
     demo_init 12 0%nat default_args [] ∅ = Some (Ok tt, h')) /\
    exists st',
      h' = <[0%nat:=st']> h0 /\
      assign_all Demo.lib module_globals Demo.MassFunction Demo.inherited_depends
        (init_assignments default_args) st0 = (Ok tt, st') /\
      (forall n v validate,
         In (n, v) (init_assignments default_args) ->
         assoc n (HaloModel.class_dict Demo.lib module_globals)
           = Some (parameter validate) ->
         exists w w',
           validate v = Ok w /\ params st' !! n = Some w' /\ value_eqb w' w = true) /\
      attrs st' !! "nthreads_2halo" = Some (arg_nthreads_2halo default_args).
Proof.
  assert (H : exists h0 st0 h',
    demo_super_init 0%nat [] ∅ = Some (Ok tt, h0) /\
    h0 !! 0%nat = Some st0 /\
    Demo.MassFunction "nthreads_2halo" = None /\
    arg_ng default_args = VNone /\
    demo_init 12 0%nat default_args [] ∅ = Some (Ok tt, h')).
  { do 3 eexists.
    split; [reflexivity|].
    split; [apply lookup_insert_eq|].
    split; [reflexivity|].
    split; [reflexivity|].
    vm_compute. reflexivity. }
  destruct H as (h0 & st0 & h' & H). exists h0, st0, h'. split; [exact H|].
  destruct H as (Hsuper & Hl & Hthreads & Hng & Hrun).
  exact (init_stores_its_arguments Demo.lib module_globals Demo.MassFunction
           Demo.inherited_depends demo_super_init 12 0%nat default_args []
           ∅ h0 st0 h' Hsuper Hl Hthreads Hng Hrun).
Defined.

Lemma init_with_target_sets_M_min_witness :
  exists h' st',
    (ten_point_init 12 0%nat target_args [] ∅ = Some (Ok tt, h') /\
     arg_ng target_args <> VNone /\
     h' !! 0%nat = Some st') /\
    exists h0 st0 st1 h4 mmin items y,
      demo_super_init 0%nat [] ∅ = Some (Ok tt, h0) /\
      h0 !! 0%nat = Some st0 /\
      assign_all ten_point_lib module_globals Demo.MassFunction Demo.inherited_depends
        (init_assignments target_args) st0 = (Ok tt, st1) /\
      _find_m_min ten_point_lib module_globals Demo.MassFunction Demo.inherited_depends
        12 0%nat (arg_ng target_args) (<[0%nat:=st1]> h0) = Some (Ok mmin, h4) /\
      params st' !! "hod_params" = Some (VDict items) /\
      assoc "M_min" items = Some (VNum y) /\
      y == mmin.
Proof.
  assert (Hok : option_map fst (ten_point_init 12 0%nat target_args [] ∅) = Some (Ok tt))
    by (vm_compute; reflexivity).
  assert (Hin : match ten_point_init 12 0%nat target_args [] ∅ with
                | Some (_, h1) => match h1 !! 0%nat with Some _ => true | None => false end
                | None => false
                end = true) by (vm_compute; reflexivity).
  destruct (ten_point_init 12 0%nat target_args [] ∅) as [[r0 h']|] eqn:E;
    [|discriminate Hok].
  simpl in Hok. injection Hok as ->.
  destruct (h' !! 0%nat) as [st'|] eqn:E0; [|discriminate Hin].
  exists h', st'.
  assert (Hng : arg_ng target_args <> VNone) by discriminate.
  split; [auto|].
  exact (init_with_target_sets_M_min ten_point_lib module_globals
           Demo.MassFunction Demo.inherited_depends demo_super_init 12 0%nat
           target_args [] ∅ h' st' E Hng E0).
Defined.

(** * An [update] that fails is not undone *)

Lemma assoc_remove_key {A} (k : string) (l : list (string * A)) :
  assoc k (remove_key k l) = None.
Proof.
  induction l as [|[k' a] l IH]; simpl; [reflexivity|].
  destruct (String.eqb k k') eqn:E; [exact IH|]. simpl. rewrite E. exact IH.
Qed.

Section FailedUpdate.

Variable lib : Lib.
Variable g : globals.
Variable MassFunction : string -> option member.
Variable inherited_depends : string -> string -> bool.

Local Abbreviation lookup_member := (lookup_member lib g MassFunction).
Local Abbreviation exec := (exec lib g MassFunction).
Local Abbreviation setattr := (setattr lib g MassFunction inherited_depends).
Local Abbreviation base_update := (base_update lib g MassFunction inherited_depends).
Local Abbreviation at_ := (at_ lib g MassFunction).
Local Abbreviation assign := (assign lib g MassFunction inherited_depends).
Local Abbreviation super_update := (super_update lib g MassFunction inherited_depends).
Local Abbreviation update_with := (update_with lib g MassFunction inherited_depends).
Local Abbreviation update := (update lib g MassFunction inherited_depends).
Local Abbreviation _find_m_min := (_find_m_min lib g MassFunction inherited_depends).

(** [self.ng = v] is accepted for every [v]. *)
Lemma setattr_ng v st :
  (setattr "ng" v st).1 = Ok tt /\
  exists w, params (setattr "ng" v st).2 !! "ng" = Some w /\ value_eqb w v = true.
Proof.
  unfold setattr.
  assert (Hm : lookup_member "ng" = Some (parameter HaloModel.ng)) by reflexivity.
  rewrite Hm. simpl.
  destruct (params st !! "ng") as [old|] eqn:E; simpl.
  - destruct (value_eqb old v) eqn:Eq; simpl.
    + split; [reflexivity|]. exists old. auto.
    + split; [reflexivity|]. exists v. rewrite lookup_insert_eq.
      auto using value_eqb_refl.
  - split; [reflexivity|]. exists v. rewrite lookup_insert_eq.
    auto using value_eqb_refl.
Qed.

(** X16.  An [update] that passes a target density stores it first; whatever
    happens next, the target stays on the instance: when the inherited
    [update] rejects another keyword, or the solver raises (for a target
    that cannot be reached, say), [update] raises and [ng] keeps the new
    target. *)
Theorem update_keeps_target_on_failure fuel l kwargs v h st r0 h' :
  assoc "ng" kwargs = Some v ->
  h !! l = Some st ->
  update fuel l kwargs h = Some (r0, h') ->
  exists st' w,
    h' !! l = Some st' /\
    params st' !! "ng" = Some w /\
    value_eqb w v = true.
Proof.
  intros Hng Hl H. unfold update, update_with in H. rewrite Hng in H.
  unfold obind at 1 2 in H. unfold assign at 1 in H. rewrite Hl in H.
  pose proof (setattr_ng v st) as [Hok (w & Hw & Hwv)].
  destruct (setattr "ng" v st) as [r1 st1]. simpl in Hok, Hw. subst r1.
  unfold oret at 1 in H.
  unfold obind at 1 in H. unfold super_update at 1 in H.
  rewrite lookup_insert_eq in H.
  pose proof (base_update_params_ne lib g MassFunction inherited_depends
                (remove_key "ng" kwargs) "ng" st1 (assoc_remove_key "ng" kwargs)) as Hp.
  destruct (base_update (remove_key "ng" kwargs) st1) as [[u|e] st2]; simpl in Hp.
  2:{ injection H as _ <-. exists st2, w. rewrite lookup_insert_eq. split; [reflexivity|].
      split; [congruence | exact Hwv]. }
  rewrite insert_insert_eq in H.
  unfold obind at 1 in H. unfold at_ at 1 in H. rewrite lookup_insert_eq in H.
  assert (Hw2 : params st2 !! "ng" = Some w) by congruence.
  rewrite (exec_self_ng lib g MassFunction fuel st2 w Hw2) in H.
  rewrite insert_insert_eq in H.
  destruct (negb (is_none w)).
  - apply obind_inv in H as [(mmin & h4 & Hfind & H)|(e & Hfind & ->)].
    + destruct (find_m_min_grown lib g MassFunction inherited_depends fuel l w
                  _ _ _ Hfind) as [_ G].
      destruct (G st2 (lookup_insert_eq _ _ _)) as (st4 & E4 & HP & _).
      unfold assign in H. rewrite E4 in H.
      pose proof (setattr_params_ne lib g MassFunction inherited_depends
                    "hod_params" (VDict [("M_min", VNum mmin)]) st4 "ng"
                    ltac:(discriminate)) as Hkeep.
      destruct (setattr "hod_params" (VDict [("M_min", VNum mmin)]) st4) as [r2 st5].
      injection H as _ <-. exists st5, w. rewrite lookup_insert_eq.
      split; [reflexivity|]. split; [|exact Hwv]. simpl in Hkeep. congruence.
    + destruct (find_m_min_grown lib g MassFunction inherited_depends fuel l w
                  _ _ _ Hfind) as [_ G].
      destruct (G st2 (lookup_insert_eq _ _ _)) as (st4 & E4 & HP & _).
      exists st4, w. split; [exact E4|]. split; [congruence | exact Hwv].
  - injection H as _ <-. exists st2, w. rewrite lookup_insert_eq. auto.
Qed.

End FailedUpdate.

(** An [update] with a target far above what the worked configuration
    can reach. *)
Lemma update_keeps_target_on_failure_witness :
  exists e h' st' w,
    (assoc "ng" [("ng", VNum 1000)] = Some (VNum 1000) /\
     demo_store !! 0%nat = Some Demo.new_instance /\
     demo_update 12 0%nat [("ng", VNum 1000)] demo_store = Some (Raise e, h')) /\
    h' !! 0%nat = Some st' /\
    params st' !! "ng" = Some w /\
    value_eqb w (VNum 1000) = true.
Proof.
  assert (Hfail : exists e, option_map fst (demo_update 12 0%nat [("ng", VNum 1000)] demo_store)
                            = Some (Raise e))
    by (eexists; vm_compute; reflexivity).
  destruct Hfail as [e Hfail].
  destruct (demo_update 12 0%nat [("ng", VNum 1000)] demo_store) as [[r0 h']|] eqn:E;
    [|discriminate].
  simpl in Hfail. injection Hfail as ->.
  assert (Hl : demo_store !! 0%nat = Some Demo.new_instance) by reflexivity.
  destruct (update_keeps_target_on_failure Demo.lib module_globals Demo.MassFunction
              Demo.inherited_depends 12 0%nat [("ng", VNum 1000)] (VNum 1000)
              demo_store Demo.new_instance (Raise e) h' eq_refl Hl E)
    as (st' & w & H1 & H2 & H3).
  exists e, h', st', w. auto.
Defined.

(** * The satellite-satellite power *)

(** [u**2 * dndm * M * n_sat**2], one row per wavenumber. *)
Definition ss_integrand (u : list (list Q)) (dndm M n_sat : list Q) : list (list Q) :=
  map (fun row =>
         zip_with Qmult
           (zip_with Qmult
              (zip_with Qmult (map (fun x => Qpower_positive x 2) row) dndm) M)
           (map (fun x => Qpower_positive x 2) n_sat))
      u.

Section SatellitePower.

Variable lib : Lib.
Variable g : globals.
Variable MassFunction : string -> option member.

Local Abbreviation exec := (exec lib g MassFunction).
Local Abbreviation holds := (holds lib g MassFunction).

Local Open Scope prog_scope.

Lemma exec_ss_integrand fuel st u dn Ms ns :
  holds fuel st "dndm" (VArr dn) -> holds fuel st "M" (VArr Ms) ->
  holds fuel st "n_sat" (VArr ns) ->
  length dn = length Ms -> length ns = length Ms ->
  Forall (fun row => length row = length Ms) u ->
  exec fuel (Ret (VMat u) [^] 2 [*] self "dndm" [*] self "M" [*] self "n_sat" [^] 2) st
  = Some (Ok (VMat (ss_integrand u dn Ms ns)), st).
Proof.
  intros Hdn HM Hns Ldn Lns Hu.
  set (u2 := map (map (fun x => Qpower_positive x 2)) u).
  set (a := map (fun row => zip_with Qmult row dn) u2).
  set (b := map (fun row => zip_with Qmult row Ms) a).
  assert (Hu2 : Forall (fun row => length row = length dn) u2).
  { unfold u2. apply Forall_map. eapply Forall_impl; [exact Hu|].
    intros row Hrow. simpl in *. rewrite length_map. lia. }
  assert (Ha : Forall (fun row => length row = length Ms) a).
  { unfold a. apply Forall_map. eapply Forall_impl; [exact Hu2|].
    intros row Hrow. simpl in *. rewrite length_zip_with. lia. }
  assert (Hb : Forall (fun row => length row
                                  = length (map (fun x => Qpower_positive x 2) ns)) b).
  { unfold b. apply Forall_map. eapply Forall_impl; [exact Ha|].
    intros row Hrow. simpl in *. rewrite length_zip_with, length_map. lia. }
  assert (E1 : exec fuel (Ret (VMat u) [^] 2 [*] self "dndm") st = Some (Ok (VMat a), st)).
  { rewrite (exec_pbinop lib g MassFunction fuel np_mul _ _ st (VMat u2) (VArr dn)).
    - rewrite np_mul_mat_arr; [reflexivity | exact Hu2].
    - rewrite (exec_pow lib g MassFunction fuel _ 2 st (VMat u)); [reflexivity|].
      apply exec_Ret.
    - exact Hdn. }
  assert (E2 : exec fuel (Ret (VMat u) [^] 2 [*] self "dndm" [*] self "M") st
               = Some (Ok (VMat b), st)).
  { rewrite (exec_pbinop lib g MassFunction fuel np_mul _ _ st (VMat a) (VArr Ms) E1 HM).
    rewrite np_mul_mat_arr; [reflexivity | exact Ha]. }
  rewrite (exec_pbinop lib g MassFunction fuel np_mul _ _ st (VMat b)
             (VArr (map (fun x => Qpower_positive x 2) ns)) E2).
  - rewrite np_mul_mat_arr; [|exact Hb].
    unfold ss_integrand, b, a, u2. rewrite !map_map. reflexivity.
  - rewrite (exec_pow lib g MassFunction fuel _ 2 st (VArr ns) Hns). reflexivity.
Qed.

(** X17.  With the accelerated kernels switched off, [_power_gg_1h_ss]
    integrates [u(k, M)^2 * dn/dM * M * n_sat^2] over the masses, times
    [n_cen] exactly when the occupation model requires a central galaxy
    ([hod._central]), and divides by the square of the mean galaxy
    density. *)
Theorem power_gg_1h_ss_reference
    fuel st prof h flag central ks Ms dn ns nc u dlog10m nbar :
  USEFORT g = false ->
  holds fuel st "profile" prof ->
  holds fuel st "hod" h ->
  attribute lib h "_central" = Ok flag ->
  truthy flag = Ok central ->
  holds fuel st "k" (VArr ks) ->
  holds fuel st "M" (VArr Ms) ->
  holds fuel st "dndm" (VArr dn) ->
  holds fuel st "n_sat" (VArr ns) ->
  holds fuel st "n_cen" (VArr nc) ->
  holds fuel st "dlog10m" (VNum dlog10m) ->
  holds fuel st "mean_gal_den" (VNum nbar) ->
  call_method lib prof "u" [VArr ks; VArr Ms] [("norm", VStr "m")] = Ok (VMat u) ->
  length dn = length Ms -> length ns = length Ms -> length nc = length Ms ->
  Forall (fun row => length row = length Ms) u ->
  let integrand :=
    if central
    then map (fun row => zip_with Qmult row nc) (ss_integrand u dn Ms ns)
    else ss_integrand u dn Ms ns in
  exec fuel (HaloModel._power_gg_1h_ss lib g) st
  = Some (Ok (VArr (map (fun x => x / Qpower_positive nbar 2)
                      (map (fun row => trapz_row row (dlog10m * np_log lib 10))
                           integrand))), st).
Proof.
  intros Hoff Hprof Hhod Hflag Hcentral Hk HM Hdn Hns Hnc Hdl Hnbar Hcall
         Ldn Lns Lnc Hu integrand.
  unfold HaloModel._power_gg_1h_ss. rewrite Hoff.
  rewrite (exec_bind_Ok lib g MassFunction fuel _ _ _ _ st
             (VArr (map (fun row => trapz_row row (dlog10m * np_log lib 10))
                        integrand)) st).
  2:{ rewrite (exec_bind_Ok lib g MassFunction fuel _ _ _ _ st (VMat u) st).
      2:{ rewrite (exec_profile_of lib g MassFunction fuel st "u" "k" prof
                     (VArr ks) (VArr Ms) Hprof Hk HM).
          rewrite Hcall. reflexivity. }
      rewrite (exec_bind_Ok lib g MassFunction fuel _ _ _ _ st _ st
                 (exec_ss_integrand fuel st u dn Ms ns Hdn HM Hns Ldn Lns Hu)).
      rewrite (exec_bind_Ok lib g MassFunction fuel _ _ _ _ st flag st).
      2:{ unfold HaloModel.hod_central.
          rewrite (exec_bind_Ok lib g MassFunction fuel _ _ _ _ st _ st Hhod).
          rewrite Hflag. apply exec_Ret. }
      rewrite exec_bind, exec_lift, Hcentral. cbv beta iota.
      rewrite (exec_bind_Ok lib g MassFunction fuel _ _ _ _ st (VMat integrand) st).
      2:{ unfold integrand. destruct central; [|apply exec_Ret].
          rewrite (exec_pbinop lib g MassFunction fuel np_mul _ _ st
                     (VMat (ss_integrand u dn Ms ns)) (VArr nc));
            [| apply exec_Ret | exact Hnc].
          rewrite np_mul_mat_arr; [reflexivity|].
          unfold ss_integrand. apply Forall_map. eapply Forall_impl; [exact Hu|].
          intros row Hrow. simpl in *. rewrite !length_zip_with, !length_map. lia. }
      rewrite (exec_bind_Ok lib g MassFunction fuel _ _ _ _ st _ st Hdl).
      rewrite exec_bind, exec_lift. simpl as_num. cbv beta iota.
      unfold HaloModel.trapz. apply exec_lift. }
  rewrite (exec_pbinop lib g MassFunction fuel np_div _ _ st
             (VArr (map (fun row => trapz_row row (dlog10m * np_log lib 10)) integrand))
             (VNum (Qpower_positive nbar 2))).
  - reflexivity.
  - apply exec_Ret.
  - rewrite (exec_pow lib g MassFunction fuel _ 2 st (VNum nbar) Hnbar). reflexivity.
Qed.

End SatellitePower.

(** The worked instance, with the accelerated kernels off, after one
    evaluation of the satellite power and of the central occupation. *)
Definition satellite_warm : inst :=
  match exec Demo.lib reference_globals Demo.MassFunction 9
          (pbind (self "_power_gg_1h_ss") (fun _ => self "n_cen"))
          Demo.new_instance with
  | Some (_, st) => st
  | None => Demo.new_instance
  end.

Lemma power_gg_1h_ss_reference_witness :
  exists prof h flag central ks Ms dn ns nc u dlog10m nbar,
    (USEFORT reference_globals = false /\
     holds Demo.lib reference_globals Demo.MassFunction 9 satellite_warm "profile" prof /\
     holds Demo.lib reference_globals Demo.MassFunction 9 satellite_warm "hod" h /\
     attribute Demo.lib h "_central" = Ok flag /\
     truthy flag = Ok central /\
     holds Demo.lib reference_globals Demo.MassFunction 9 satellite_warm "k" (VArr ks) /\
     holds Demo.lib reference_globals Demo.MassFunction 9 satellite_warm "M" (VArr Ms) /\
     holds Demo.lib reference_globals Demo.MassFunction 9 satellite_warm "dndm" (VArr dn) /\
     holds Demo.lib reference_globals Demo.MassFunction 9 satellite_warm "n_sat" (VArr ns) /\
     holds Demo.lib reference_globals Demo.MassFunction 9 satellite_warm "n_cen" (VArr nc) /\
     holds Demo.lib reference_globals Demo.MassFunction 9 satellite_warm
       "dlog10m" (VNum dlog10m) /\
     holds Demo.lib reference_globals Demo.MassFunction 9 satellite_warm
       "mean_gal_den" (VNum nbar) /\
     call_method Demo.lib prof "u" [VArr ks; VArr Ms] [("norm", VStr "m")]
       = Ok (VMat u) /\
     length dn = length Ms /\ length ns = length Ms /\ length nc = length Ms /\
     Forall (fun row => length row = length Ms) u) /\
    let integrand :=
      if central
      then map (fun row => zip_with Qmult row nc) (ss_integrand u dn Ms ns)
      else ss_integrand u dn Ms ns in
    exec Demo.lib reference_globals Demo.MassFunction 9
      (HaloModel._power_gg_1h_ss Demo.lib reference_globals) satellite_warm
    = Some (Ok (VArr (map (fun x => x / Qpower_positive nbar 2)
                        (map (fun row => trapz_row row (dlog10m * np_log Demo.lib 10))
                             integrand))), satellite_warm).
Proof.
  assert (H : exists prof h flag central ks Ms dn ns nc u dlog10m nbar,
    USEFORT reference_globals = false /\
    holds Demo.lib reference_globals Demo.MassFunction 9 satellite_warm "profile" prof /\
    holds Demo.lib reference_globals Demo.MassFunction 9 satellite_warm "hod" h /\
    attribute Demo.lib h "_central" = Ok flag /\
    truthy flag = Ok central /\
    holds Demo.lib reference_globals Demo.MassFunction 9 satellite_warm "k" (VArr ks) /\
    holds Demo.lib reference_globals Demo.MassFunction 9 satellite_warm "M" (VArr Ms) /\
    holds Demo.lib reference_globals Demo.MassFunction 9 satellite_warm "dndm" (VArr dn) /\
    holds Demo.lib reference_globals Demo.MassFunction 9 satellite_warm "n_sat" (VArr ns) /\
    holds Demo.lib reference_globals Demo.MassFunction 9 satellite_warm "n_cen" (VArr nc) /\
    holds Demo.lib reference_globals Demo.MassFunction 9 satellite_warm
      "dlog10m" (VNum dlog10m) /\
    holds Demo.lib reference_globals Demo.MassFunction 9 satellite_warm
      "mean_gal_den" (VNum nbar) /\
    call_method Demo.lib prof "u" [VArr ks; VArr Ms] [("norm", VStr "m")]
      = Ok (VMat u) /\
    length dn = length Ms /\ length ns = length Ms /\ length nc = length Ms /\
    Forall (fun row => length row = length Ms) u).
  { do 12 eexists.
    split; [reflexivity|].
    do 2 (split; [holds_on_cache|]).
    split; [vm_compute; reflexivity|].
    split; [reflexivity|].
    do 5 (split; [holds_on_cache|]).
    split; [holds_on_params|].
    split; [holds_on_cache|].
    split; [vm_compute; reflexivity|].
    do 3 (split; [reflexivity|]).
    repeat constructor. }
  destruct H as (prof & h & flag & central & ks & Ms & dn & ns & nc & u & dlog10m & nbar
                 & H).
  exists prof, h, flag, central, ks, Ms, dn, ns, nc, u, dlog10m, nbar.
  split; [exact H|].
  destruct H as (Hoff & Hprof & Hhod & Hflag & Hcentral & Hk & HM & Hdn & Hns & Hnc
                 & Hdl & Hnbar & Hcall & Ldn & Lns & Lnc & Hu).
  exact (power_gg_1h_ss_reference Demo.lib reference_globals Demo.MassFunction 9
           satellite_warm prof h flag central ks Ms dn ns nc u dlog10m nbar
           Hoff Hprof Hhod Hflag Hcentral Hk HM Hdn Hns Hnc Hdl Hnbar Hcall
           Ldn Lns Lnc Hu).
Defined.

(** * The mass grid *)

(** With a positive step and [start < stop] the grid starts at [start]. *)
Lemma arange_first start stop step :
  0 < step -> start < stop ->
  exists e rest, arange start stop step = e :: rest /\ e == start.
Proof.
  intros Hstep Hlt. unfold arange.
  assert (Hx : 0 < (stop - start) / step).
  { apply Qlt_shift_div_l; [exact Hstep | lra]. }
  assert (Hc : (0 < Qceiling ((stop - start) / step))%Z).
  { rewrite Zlt_Qlt. eapply Qlt_le_trans; [exact Hx | apply Qle_ceiling]. }
  destruct (Z.to_nat (Qceiling ((stop - start) / step))) as [|n] eqn:En; [lia|].
  simpl. eexists. eexists. split; [reflexivity|]. simpl. ring.
Qed.

Lemma arange_empty start stop step :
  0 < step -> stop <= start -> arange start stop step = [].
Proof.
  intros Hstep Hle. unfold arange.
  assert (Hx : (stop - start) / step <= 0).
  { apply Qle_shift_div_r; [exact Hstep | lra]. }
  apply Qceiling_resp_le in Hx. change (Qceiling 0) with 0%Z in Hx.
  replace (Z.to_nat (Qceiling ((stop - start) / step))) with O by lia.
  reflexivity.
Qed.

Section MassGrid.

Variable lib : Lib.
Variable g : globals.
Variable MassFunction : string -> option member.

Local Abbreviation exec := (exec lib g MassFunction).
Local Abbreviation holds := (holds lib g MassFunction).
Local Abbreviation lookup_member := (lookup_member lib g MassFunction).

Local Open Scope prog_scope.

Lemma holds_class_attr fuel st n v :
  lookup_member n = Some (class_attr v) ->
  attrs st !! n = None ->
  holds fuel st n v.
Proof.
  intros Hm Ha. unfold holds, self.
  rewrite exec_GetAttr, Hm, Ha. apply exec_Ret.
Qed.

(** X18.  The masses are [10 ** e] for the exponents [e] of
    [np.arange(hod.mmin, 18, dlog10m)], whose upper end 18 is fixed.  With a
    positive step: when the minimum mass of the occupation model is 18 or
    more the read succeeds with an empty grid; when it is below 18 the grid
    is not empty and its first mass is [10 ** mmin].  The number of entries
    and the last of them are left open here: in floating point they depend
    on rounding. *)
Theorem mass_grid_starts_at_minimum_mass fuel st h mmin step hunit :
  holds fuel st "hod" h ->
  attribute lib h "mmin" = Ok (VNum mmin) ->
  holds fuel st "dlog10m" (VNum step) ->
  holds fuel st "_hunit" hunit ->
  0 < step ->
  exists es,
    exec fuel (HaloModel.M lib) st = Some (Ok (VArr (map (pow10 lib) es)), st) /\
    (18 <= mmin -> es = []) /\
    (mmin < 18 -> exists e rest, es = e :: rest /\ e == mmin).
Proof.
  intros Hhod Hmmin Hstep Hunit Hpos. exists (arange mmin 18 step).
  split; [|split].
  - unfold HaloModel.M.
    rewrite (exec_bind_Ok lib g MassFunction fuel _ _ _ _ st _ st Hhod).
    rewrite Hmmin. simpl rbind. simpl lift. cbn [pbind].
    rewrite (exec_bind_Ok lib g MassFunction fuel _ _ _ _ st _ st Hstep).
    simpl lift. cbn [pbind].
    unfold HaloModel.in_hunits.
    rewrite (exec_bind_Ok lib g MassFunction fuel _ _ _ _ st _ st Hunit).
    apply exec_Ret.
  - apply arange_empty. exact Hpos.
  - apply arange_first. exact Hpos.
Qed.

End MassGrid.

Lemma mass_grid_starts_at_minimum_mass_witness :
  exists h mmin step hunit,
    (holds Demo.lib module_globals Demo.MassFunction 7 fractions_ready "hod" h /\
     attribute Demo.lib h "mmin" = Ok (VNum mmin) /\
     holds Demo.lib module_globals Demo.MassFunction 7 fractions_ready
       "dlog10m" (VNum step) /\
     holds Demo.lib module_globals Demo.MassFunction 7 fractions_ready "_hunit" hunit /\
     0 < step) /\
    mmin < 18 /\
    exists es,
      exec Demo.lib module_globals Demo.MassFunction 7 (HaloModel.M Demo.lib)
        fractions_ready
      = Some (Ok (VArr (map (pow10 Demo.lib) es)), fractions_ready) /\
      (18 <= mmin -> es = []) /\
      (mmin < 18 -> exists e rest, es = e :: rest /\ e == mmin).
Proof.
  assert (H : exists h mmin step hunit,
    (holds Demo.lib module_globals Demo.MassFunction 7 fractions_ready "hod" h /\
     attribute Demo.lib h "mmin" = Ok (VNum mmin) /\
     holds Demo.lib module_globals Demo.MassFunction 7 fractions_ready
       "dlog10m" (VNum step) /\
     holds Demo.lib module_globals Demo.MassFunction 7 fractions_ready "_hunit" hunit /\
     0 < step) /\
    mmin < 18).
  { do 4 eexists. split.
    - split; [holds_on_cache|].
      split; [vm_compute; reflexivity|].
      split; [holds_on_params|].
      split; [eapply holds_class_attr; vm_compute; reflexivity|].
      vm_compute. reflexivity.
    - vm_compute. reflexivity. }
  destruct H as (h & mmin & step & hunit & H & Hlt).
  exists h, mmin, step, hunit. split; [exact H|]. split; [exact Hlt|].
  destruct H as (Hhod & Hmmin & Hstep & Hunit & Hpos).
  exact (mass_grid_starts_at_minimum_mass Demo.lib module_globals Demo.MassFunction 7
           fractions_ready h mmin step hunit Hhod Hmmin Hstep Hunit Hpos).
Defined.

(** * The effective bias *)



Section EffectiveBias.

Variable lib : Lib.
Variable g : globals.
Variable MassFunction : string -> option member.

Local Abbreviation exec := (exec lib g MassFunction).
Local Abbreviation holds := (holds lib g MassFunction).
Local Abbreviation lookup_member := (lookup_member lib g MassFunction).

Local Open Scope prog_scope.


End EffectiveBias.



(** * Occupation parameters are checked when the model is built *)

Lemma as_kwargs_eqb w v e :
  value_eqb w v = true -> as_kwargs v = Raise e -> as_kwargs w = Raise e.
Proof.
  destruct v; simpl; try discriminate; destruct w; simpl; try discriminate; auto.
Qed.

Section DeferredCheck.

Variable lib : Lib.
Variable g : globals.
Variable MassFunction : string -> option member.
Variable inherited_depends : string -> string -> bool.

Local Abbreviation exec := (exec lib g MassFunction).
Local Abbreviation get := (get lib g MassFunction).
Local Abbreviation lookup_member := (lookup_member lib g MassFunction).
Local Abbreviation setattr := (setattr lib g MassFunction inherited_depends).

Local Open Scope prog_scope.

(** X20.  The setter of [hod_params] accepts every value.  One that is not a
    dictionary is found out when the occupation model is first built: the
    read of [hod] raises the [TypeError] of the keyword expansion and
    caches nothing, and so does the read of the mass grid, which needs the
    model. *)
Theorem hod_params_checked_on_first_read fuel st v e sel :
  as_kwargs v = Raise e ->
  params st !! "hod_model" = Some sel ->
  cache st !! "hod" = None ->
  cache st !! "M" = None ->
  let st' := (setattr "hod_params" v st).2 in
  (setattr "hod_params" v st).1 = Ok tt /\
  get (S fuel) "hod" st' = Some (Raise e, st') /\
  get (S (S fuel)) "M" st' = Some (Raise e, st').
Proof.
  intros Hv Hsel Hhod HM.
  pose proof (setattr_stored lib g MassFunction inherited_depends
                "hod_params" v st) as Hst.
  pose proof (setattr_params_ne lib g MassFunction inherited_depends
                "hod_params" v st "hod_model" ltac:(discriminate)) as Hkeep.
  pose proof (setattr_cache lib g MassFunction inherited_depends "hod_params" v st)
    as Hcache.
  assert (Hok : (setattr "hod_params" v st).1 = Ok tt).
  { unfold setattr.
    assert (Hm : lookup_member "hod_params" = Some (parameter HaloModel.hod_params))
      by reflexivity.
    rewrite Hm. simpl. destruct (params st !! "hod_params") as [old|]; [|reflexivity].
    destruct (value_eqb old v); reflexivity. }
  destruct (setattr "hod_params" v st) as [r0 st1]. simpl in *. subst r0.
  specialize (Hst st1 eq_refl). unfold stored in Hst.
  assert (Hm : lookup_member "hod_params" = Some (parameter HaloModel.hod_params))
    by reflexivity.
  rewrite Hm in Hst. destruct Hst as (w & w' & [= <-] & Hw' & Heq).
  assert (Hc : forall n, cache st !! n = None -> cache st1 !! n = None).
  { intros n Hn. destruct Hcache as [-> | ->]; [exact Hn|].
    rewrite lookup_invalidate, Hn. destruct (depends _ _ _ _ _ _); reflexivity. }
  assert (Hbody : exec fuel (HaloModel.hod lib) st1 = Some (Raise e, st1)).
  { unfold HaloModel.hod.
    rewrite (exec_bind_Ok lib g MassFunction fuel _ _ _ _ st1 sel st1).
    2:{ apply (holds_parameter lib g MassFunction); [reflexivity | congruence]. }
    rewrite (exec_bind_Ok lib g MassFunction fuel _ _ _ _ st1 w' st1).
    2:{ apply (holds_parameter lib g MassFunction); [reflexivity | exact Hw']. }
    rewrite exec_bind, exec_lift, (as_kwargs_eqb w' v e Heq Hv). reflexivity. }
  assert (Hget : get (S fuel) "hod" st1 = Some (Raise e, st1)).
  { unfold get, self. rewrite exec_GetAttr.
    assert (Hh : exists ps, lookup_member "hod" = Some (cached_property ps (HaloModel.hod lib)))
      by (eexists; reflexivity).
    destruct Hh as [ps ->]. rewrite (Hc "hod" Hhod), Hbody. reflexivity. }
  split; [reflexivity|]. split; [exact Hget|].
  unfold get, self. rewrite exec_GetAttr.
  assert (Hh : exists ps, lookup_member "M" = Some (cached_property ps (HaloModel.M lib)))
    by (eexists; reflexivity).
  destruct Hh as [ps ->]. rewrite (Hc "M" HM).
  unfold HaloModel.M at 1. rewrite exec_bind.
  fold (get (S fuel) "hod" st1). rewrite Hget. reflexivity.
Qed.

End DeferredCheck.

Lemma hod_params_checked_on_first_read_witness :
  exists e,
    (as_kwargs (VNum 13) = Raise e /\
     params Demo.new_instance !! "hod_model" = Some (VStr "Zehavi05") /\
     cache Demo.new_instance !! "hod" = None /\
     cache Demo.new_instance !! "M" = None) /\
    let st' := (setattr Demo.lib module_globals Demo.MassFunction Demo.inherited_depends
                  "hod_params" (VNum 13) Demo.new_instance).2 in
    (setattr Demo.lib module_globals Demo.MassFunction Demo.inherited_depends
       "hod_params" (VNum 13) Demo.new_instance).1 = Ok tt /\
    get Demo.lib module_globals Demo.MassFunction 1 "hod" st' = Some (Raise e, st') /\
    get Demo.lib module_globals Demo.MassFunction 2 "M" st' = Some (Raise e, st').
Proof.
  eexists. split; [repeat split; reflexivity|].
  exact (hod_params_checked_on_first_read Demo.lib module_globals Demo.MassFunction
           Demo.inherited_depends 0 Demo.new_instance (VNum 13) _ (VStr "Zehavi05")
           eq_refl eq_refl eq_refl eq_refl).
Defined.

(** * The working copy of the solver *)

Section WorkingCopy.

Variable lib : Lib.
Variable g : globals.
Variable MassFunction : string -> option member.
Variable inherited_depends : string -> string -> bool.

Local Abbreviation lookup_member := (lookup_member lib g MassFunction).
Local Abbreviation exec := (exec lib g MassFunction).
Local Abbreviation setattr := (setattr lib g MassFunction inherited_depends).
Local Abbreviation assign_all := (assign_all lib g MassFunction inherited_depends).
Local Abbreviation base_update := (base_update lib g MassFunction inherited_depends).
Local Abbreviation at_ := (at_ lib g MassFunction).
Local Abbreviation assign := (assign lib g MassFunction inherited_depends).
Local Abbreviation super_update := (super_update lib g MassFunction inherited_depends).
Local Abbreviation update := (update lib g MassFunction inherited_depends).
Local Abbreviation density_integrand := (density_integrand lib g MassFunction).
Local Abbreviation solver_setup := (solver_setup lib g MassFunction).
Local Abbreviation _find_m_min := (_find_m_min lib g MassFunction inherited_depends).

(** A program run on an object leaves its parameters as they were. *)
Lemma at_params A fuel c (p : prog A) h r0 h' st :
  at_ fuel c p h = Some (r0, h') ->
  h !! c = Some st ->
  exists st', h' = <[c:=st']> h /\ params st' = params st.
Proof.
  unfold at_. intros H Hc. rewrite Hc in H.
  destruct (exec fuel p st) as [[r1 st']|] eqn:Hx; [|discriminate].
  injection H as _ <-. exists st'. split; [reflexivity|].
  pose proof (exec_eval lib g MassFunction _ _ _ _ _ _ Hx) as Hev.
  apply (eval_params lib g MassFunction _ _ _ _ _ Hev).
Qed.

Lemma density_integrand_params fuel c h r0 h' st :
  density_integrand fuel c h = Some (r0, h') ->
  h !! c = Some st ->
  exists st', h' = <[c:=st']> h /\ params st' = params st.
Proof.
  unfold density_integrand. intros H Hc.
  apply obind_inv in H as [(v & h1 & H1 & H)|(e & H1 & _)].
  2:{ eapply at_params; eauto. }
  destruct (at_params _ _ _ _ _ _ _ _ H1 Hc) as (st1 & -> & P1).
  apply obind_inv in H as [(xs & h2 & H2 & H)|(e & H2 & _)].
  2:{ apply olift_inv in H2 as [_ ->]. eauto. }
  apply olift_inv in H2 as [_ ->].
  apply obind_inv in H as [(m & h3 & H3 & H)|(e & H3 & _)].
  - destruct (at_params _ _ _ _ _ _ _ _ H3 (lookup_insert_eq _ _ _)) as (st3 & -> & P3).
    exists st3. split; [|congruence].
    apply obind_inv in H as [(ms & h4 & H4 & H)|(e & H4 & _)].
    + apply olift_inv in H4 as [_ ->]. injection H as _ <-.
      rewrite insert_insert_eq. reflexivity.
    + apply olift_inv in H4 as [_ ->]. rewrite insert_insert_eq. reflexivity.
  - destruct (at_params _ _ _ _ _ _ _ _ H3 (lookup_insert_eq _ _ _)) as (st3 & -> & P3).
    exists st3. split; [|congruence]. rewrite insert_insert_eq. reflexivity.
Qed.

(** X21.  The solver works on a new object, and at most three parameters of it
    differ from the caller's: there is no target density, the occupation
    parameters bind ["M_min"] to 8, and the grid step is 0.01 (as the
    setter of the inherited [dlog10m] returns it).  Every other parameter
    is the caller's. *)
Theorem solver_copy_differs_in_three_parameters fuel l h st s h1 :
  h !! l = Some st ->
  solver_setup (update fuel) fuel l h = Some (Ok s, h1) ->
  exists cst,
    h1 !! clone s = Some cst /\
    h !! clone s = None /\
    clone s <> l /\
    params cst !! "ng" = Some VNone /\
    (exists items y,
       params cst !! "hod_params" = Some (VDict items) /\
       assoc "M_min" items = Some (VNum y) /\ y == 8) /\
    (forall validate,
       MassFunction "dlog10m" = Some (parameter validate) ->
       exists w w',
         validate (VNum (1 # 100)) = Ok w /\
         params cst !! "dlog10m" = Some w' /\
         value_eqb w' w = true) /\
    (forall n, n <> "ng" -> n <> "hod_params" -> n <> "dlog10m" ->
       params cst !! n = params st !! n).
Proof.
  intros Hl H. unfold solver_setup in H.
  apply obind_inv in H as [(p & ha & Ha & H)|(e & _ & He)]; [|discriminate].
  destruct (at_params _ _ _ _ _ _ _ _ Ha Hl) as (sta & -> & Pa).
  apply obind_inv in H as [(c & hb & Hb & H)|(e & _ & He)]; [|discriminate].
  unfold deepcopy in Hb. rewrite lookup_insert_eq in Hb. injection Hb as <- <-.
  set (c := fresh (dom (<[l:=sta]> h))) in *.
  assert (Hfresh : <[l:=sta]> h !! c = None) by (apply not_elem_of_dom, is_fresh).
  assert (Hcl : c <> l).
  { intros E. rewrite E, lookup_insert_eq in Hfresh. discriminate. }
  assert (Hhc : h !! c = None).
  { rewrite lookup_insert_ne in Hfresh by congruence. exact Hfresh. }
  apply obind_inv in H as [(u & hc & Hc & H)|(e & _ & He)]; [|discriminate].
  unfold update in Hc.
  rewrite (update_with_M_min lib g MassFunction inherited_depends
             (_find_m_min fuel) fuel c
             [("hod_params", VDict [("M_min", VNum 8)]); ("dlog10m", VNum (1 # 100))]
             [("M_min", VNum 8)] eq_refl eq_refl eq_refl) in Hc.
  apply obind_inv in Hc as [(u1 & hn & Hn & Hc)|(e & _ & He)]; [|discriminate].
  unfold assign in Hn. rewrite lookup_insert_eq in Hn.
  pose proof (setattr_ng_None lib g MassFunction inherited_depends sta) as [_ Pn].
  pose proof (fun n Hne => setattr_params_ne lib g MassFunction inherited_depends
                             "ng" VNone sta n Hne) as Kn.
  destruct (setattr "ng" VNone sta) as [rn stn]. injection Hn as _ <-.
  rewrite insert_insert_eq in Hc.
  unfold super_update in Hc. rewrite lookup_insert_eq in Hc.
  unfold base_update in Hc.
  destruct (collect _) as [oks|e]; [|discriminate].
  destruct (assign_all
              [("hod_params", VDict [("M_min", VNum 8)]); ("dlog10m", VNum (1 # 100))]
              stn) as [r2 stc] eqn:Hrun.
  injection Hc as -> <-. rewrite insert_insert_eq in H. destruct u.
  assert (Hnd : NoDup (map fst [("hod_params", VDict [("M_min", VNum 8)]);
                                ("dlog10m", VNum (1 # 100))]))
    by (simpl; compute_done).
  pose proof (assign_all_stored lib g MassFunction inherited_depends _ _ _ Hnd Hrun)
    as Hstored.
  pose proof (fun n Hn => assign_all_params_ne lib g MassFunction inherited_depends
                            [("hod_params", VDict [("M_min", VNum 8)]);
                             ("dlog10m", VNum (1 # 100))] n stn Hn) as Kc.
  rewrite Hrun in Kc. simpl in Kc, Kn, Pn.
  apply obind_inv in H as [(mi & hd & Hd & H)|(e & _ & He)]; [|discriminate].
  destruct (density_integrand_params _ _ _ _ _ _ Hd (lookup_insert_eq _ _ _))
    as (std & -> & Pd).
  rewrite insert_insert_eq in H.
  apply obind_inv in H as [(hod & he & He & H)|(e & _ & He')]; [|discriminate].
  assert (Hle : <[c:=std]> (<[l:=sta]> h) !! l = Some sta).
  { rewrite lookup_insert_ne by congruence. apply lookup_insert_eq. }
  destruct (at_params _ _ _ _ _ _ _ _ He Hle) as (ste & -> & Pe).
  apply obind_inv in H as [(sharp & hf & Hf & H)|(e & _ & He')]; [|discriminate].
  apply olift_inv in Hf as [_ ->]. injection H as <- <-. simpl.
  exists std. split; [|split; [exact Hhc | split; [exact Hcl|]]].
  { rewrite lookup_insert_ne by congruence. apply lookup_insert_eq. }
  rewrite Pd. split; [|split; [|split]].
  - rewrite Kc by reflexivity. exact Pn.
  - specialize (Hstored "hod_params" (VDict [("M_min", VNum 8)]) ltac:(simpl; tauto)).
    unfold stored in Hstored.
    assert (Hm : lookup_member "hod_params" = Some (parameter HaloModel.hod_params))
      by reflexivity.
    rewrite Hm in Hstored. destruct Hstored as (w & w' & [= <-] & Hw' & Heq).
    apply value_eqb_M_min in Heq as (y & -> & Hy).
    exists [("M_min", VNum y)], y. auto.
  - intros validate Hv.
    specialize (Hstored "dlog10m" (VNum (1 # 100)) ltac:(simpl; tauto)).
    unfold stored, lookup_member in Hstored. simpl assoc in Hstored.
    rewrite Hv in Hstored. exact Hstored.
  - intros n N1 N2 N3. rewrite Kc.
    + rewrite Kn by exact N1. rewrite Pa. reflexivity.
    + simpl. destruct (String.eqb n "hod_params") eqn:E1;
        [apply String.eqb_eq in E1; congruence|].
      destruct (String.eqb n "dlog10m") eqn:E2;
        [apply String.eqb_eq in E2; congruence|]. reflexivity.
Qed.

End WorkingCopy.

Lemma solver_copy_differs_in_three_parameters_witness :
  exists s h1,
    (demo_store !! 0%nat = Some Demo.new_instance /\
     demo_setup 0%nat demo_store = Some (Ok s, h1)) /\
    exists cst,
      h1 !! clone s = Some cst /\
      demo_store !! clone s = None /\
      clone s <> 0%nat /\
      params cst !! "ng" = Some VNone /\
      (exists items y,
         params cst !! "hod_params" = Some (VDict items) /\
         assoc "M_min" items = Some (VNum y) /\ y == 8) /\
      (forall validate,
         Demo.MassFunction "dlog10m" = Some (parameter validate) ->
         exists w w',
           validate (VNum (1 # 100)) = Ok w /\
           params cst !! "dlog10m" = Some w' /\
           value_eqb w' w = true) /\
      (forall n, n <> "ng" -> n <> "hod_params" -> n <> "dlog10m" ->
         params cst !! n = params Demo.new_instance !! n).
Proof.
  assert (Hok : match demo_setup 0%nat demo_store with
                | Some (Ok _, _) => true
                | _ => false
                end = true) by (vm_compute; reflexivity).
  destruct (demo_setup 0%nat demo_store) as [[[s|e] h1]|] eqn:E; try discriminate Hok.
  assert (Hl : demo_store !! 0%nat = Some Demo.new_instance) by reflexivity.
  exists s, h1. split; [auto|].
  exact (solver_copy_differs_in_three_parameters Demo.lib module_globals Demo.MassFunction
           Demo.inherited_depends 11 0%nat demo_store Demo.new_instance s h1 Hl E).
Defined.
